(** * ymmv: a differential DNS comparator, embedded in Rocq

    The development follows the two Go packages of the repository:
    [ymmv/ymmv.go] (frame reader, obfuscator, response comparator, main loop)
    and [dnsstub/dnsstub.go] (the UDP-then-TCP stub query, the stub resolver
    and its workers).

    Go strings are byte strings; they are modelled by [string], whose
    characters are the 256 byte values.  Unsigned machine integers that are
    only compared or printed (record types, TTLs, SOA counters) are modelled
    by [N]; the 32-bit words of SHA-256 are modelled by [Z] with the
    wrap-around written out. *)

From Stdlib Require Import ZArith NArith List String Ascii Bool Lia.
From Stdlib Require Import Permutation Sorted DecimalString.
From Stdlib Require OrderedTypeEx DecimalN.
From stdpp Require Import gmap strings.
Import ListNotations.

Local Open Scope string_scope.
Local Open Scope list_scope.

(** String concatenation unfolds under [simpl] as soon as its first argument
    shows a constructor. *)
#[local] Arguments String.append !s1 s2 : simpl nomatch.

(** ** The parts of Go's [strings] package that the program calls *)

Module GoStrings.

(** [strings.ToLower] on its single-byte path: the names and record texts
    handled here are the codec's presentation format, which is 7-bit. *)
Definition lower_byte (c : ascii) : ascii :=
  let n := N_of_ascii c in
  if ((65 <=? n) && (n <=? 90))%N then ascii_of_N (n + 32) else c.

Fixpoint ToLower (s : string) : string :=
  match s with
  | EmptyString => EmptyString
  | String c r => String (lower_byte c) (ToLower r)
  end.

Definition is_dot (c : ascii) : bool := Ascii.eqb c ".".

(** [strings.FieldsFunc(s, func(r rune) bool { return r == '.' })]:
    the maximal runs of bytes other than ['.'], in order.  [cur] is the
    run being scanned. *)
Fixpoint fields_from (cur : string) (s : string) : list string :=
  match s with
  | EmptyString => match cur with EmptyString => [] | _ => [cur] end
  | String c r =>
      if is_dot c
      then match cur with
           | EmptyString => fields_from EmptyString r
           | _ => cur :: fields_from EmptyString r
           end
      else fields_from (cur +:+ String c EmptyString) r
  end.

Definition FieldsFunc_dot (s : string) : list string :=
  fields_from EmptyString s.

(** [strings.Join(elems, sep)] *)
Fixpoint Join (elems : list string) (sep : string) : string :=
  match elems with
  | [] => EmptyString
  | [e] => e
  | e :: rest => e +:+ sep +:+ Join rest sep
  end.

(** The slices [s[:n]] and [s[n:]], for [n] within the string. *)
Fixpoint str_take (n : nat) (s : string) : string :=
  match n, s with
  | S n', String c r => String c (str_take n' r)
  | _, _ => EmptyString
  end.

Fixpoint str_drop (n : nat) (s : string) : string :=
  match n, s with
  | S n', String _ r => str_drop n' r
  | _, _ => s
  end.

(** [strings.HasSuffix(s, suffix)]:
    [len(s) >= len(suffix) && s[len(s)-len(suffix):] == suffix] *)
Definition HasSuffix (s suffix : string) : bool :=
  (String.length suffix <=? String.length s)%nat
  && String.eqb (str_drop (String.length s - String.length suffix) s) suffix.

(** Go's [<] on strings is the byte-wise lexicographic order. *)
Definition str_lt (a b : string) : bool :=
  match String.compare a b with Lt => true | _ => false end.

(** [labels[len(labels)-1:len(labels)]]: the one-element slice holding
    the last label (the caller has checked that there are at least two). *)
Definition last_slice (labels : list string) : list string :=
  skipn (List.length labels - 1) labels.

End GoStrings.
Export GoStrings.

(** ** [crypto/sha256] and [encoding/hex]

    SHA-256 as in FIPS 180-4, over 32-bit words held in [Z]. Bytes are
    numbers in [0, 256). *)

Module Sha256.
Local Open Scope Z_scope.

Definition wrap32 (x : Z) : Z := x mod 4294967296.
Definition add32 (x y : Z) : Z := wrap32 (x + y).
Definition not32 (x : Z) : Z := Z.lxor x 4294967295.
(** [bits.RotateLeft32(x, -n)] *)
Definition rotr (n x : Z) : Z :=
  Z.lor (Z.shiftr x n) (wrap32 (Z.shiftl x (32 - n))).

Definition init_state : list Z :=
  [ 1779033703; 3144134277; 1013904242; 2773480762;
    1359893119; 2600822924; 528734635; 1541459225 ].

Definition round_constants : list Z :=
  [ 1116352408; 1899447441; 3049323471; 3921009573;
    961987163; 1508970993; 2453635748; 2870763221;
    3624381080; 310598401; 607225278; 1426881987;
    1925078388; 2162078206; 2614888103; 3248222580;
    3835390401; 4022224774; 264347078; 604807628;
    770255983; 1249150122; 1555081692; 1996064986;
    2554220882; 2821834349; 2952996808; 3210313671;
    3336571891; 3584528711; 113926993; 338241895;
    666307205; 773529912; 1294757372; 1396182291;
    1695183700; 1986661051; 2177026350; 2456956037;
    2730485921; 2820302411; 3259730800; 3345764771;
    3516065817; 3600352804; 4094571909; 275423344;
    430227734; 506948616; 659060556; 883997877;
    958139571; 1322822218; 1537002063; 1747873779;
    1955562222; 2024104815; 2227730452; 2361852424;
    2428436474; 2756734187; 3204031479; 3329325298 ].

(** Padding: one byte 128, zeros up to 56 mod 64, then the bit length
    as a 64-bit big-endian integer. *)
Definition be_bytes (width : nat) (x : Z) : list Z :=
  map (fun i => (Z.shiftr x (8 * Z.of_nat i)) mod 256) (rev (seq 0 width)).

Definition pad (msg : list Z) : list Z :=
  let len := Z.of_nat (List.length msg) in
  let zeros := Z.to_nat ((55 - len) mod 64) in
  msg ++ [128] ++ repeat 0 zeros ++ be_bytes 8 (8 * len).

Fixpoint be_words (bytes : list Z) : list Z :=
  match bytes with
  | b0 :: b1 :: b2 :: b3 :: rest =>
      (((b0 * 256 + b1) * 256 + b2) * 256 + b3) :: be_words rest
  | _ => []
  end.

(** The message schedule: [w] holds the words computed so far. *)
Fixpoint schedule (more : nat) (w : list Z) : list Z :=
  match more with
  | O => w
  | S more' =>
      let i := List.length w in
      let v1 := nth (i - 2) w 0 in
      let t1 := Z.lxor (Z.lxor (rotr 17 v1) (rotr 19 v1)) (Z.shiftr v1 10) in
      let v2 := nth (i - 15) w 0 in
      let t2 := Z.lxor (Z.lxor (rotr 7 v2) (rotr 18 v2)) (Z.shiftr v2 3) in
      schedule more'
        (w ++ [add32 (add32 (add32 t1 (nth (i - 7) w 0)) t2) (nth (i - 16) w 0)])
  end.

Definition round (st : list Z) (kw : Z * Z) : list Z :=
  match st with
  | [a; b; c; d; e; f; g; h] =>
      let t1 :=
        add32 (add32 (add32 (add32 h
          (Z.lxor (Z.lxor (rotr 6 e) (rotr 11 e)) (rotr 25 e)))
          (Z.lxor (Z.land e f) (Z.land (not32 e) g)))
          (fst kw)) (snd kw) in
      let t2 :=
        add32 (Z.lxor (Z.lxor (rotr 2 a) (rotr 13 a)) (rotr 22 a))
              (Z.lxor (Z.lxor (Z.land a b) (Z.land a c)) (Z.land b c)) in
      [add32 t1 t2; a; b; c; add32 d t1; e; f; g]
  | _ => st
  end.

Definition block (st : list Z) (chunk : list Z) : list Z :=
  let w := schedule 48 (be_words chunk) in
  let st' := fold_left round (combine round_constants w) st in
  map (fun p => add32 (fst p) (snd p)) (combine st st').

Fixpoint blocks (n : nat) (st : list Z) (bytes : list Z) : list Z :=
  match n with
  | O => st
  | S n' => blocks n' (block st (firstn 64 bytes)) (skipn 64 bytes)
  end.

(** [sha256.Sum256]: the 32 digest bytes. *)
Definition Sum256 (msg : list Z) : list Z :=
  let p := pad msg in
  flat_map (be_bytes 4) (blocks (List.length p / 64) init_state p).

End Sha256.

Module Hex.

Definition digit (n : Z) : ascii :=
  nth (Z.to_nat n) (list_ascii_of_string "0123456789abcdef") "0"%char.

(** [hex.Encode]: two lowercase digits per byte. *)
Fixpoint Encode (bytes : list Z) : string :=
  match bytes with
  | [] => EmptyString
  | b :: rest => String (digit (b / 16)) (String (digit (b mod 16)) (Encode rest))
  end.

End Hex.

Definition bytes_of_string (s : string) : list Z :=
  map (fun c => Z.of_N (N_of_ascii c)) (list_ascii_of_string s).

(** ** The obfuscator ([obfuscate_query]) *)

Module Obfuscator.
Import Sha256.

(** The package variable [obfuscate_secret] is threaded as state: [None] is
    the nil slice.  [rand_bytes] stands for the eight bytes that [rand.Read]
    delivers when the secret has to be generated ([math/rand] never reports
    an error, so neither [log.Fatalf] can be reached).  What the function
    writes to the logs is left out. *)
Definition obfuscate_query (rand_bytes : list Z)
    (obfuscate_secret : option (list Z)) (qname_in : string)
    : string * option (list Z) :=
  let labels := FieldsFunc_dot qname_in in
  if (List.length labels <? 2)%nat then
    (ToLower (Join labels ".") +:+ ".", obfuscate_secret)
  else
    let secret :=
      match obfuscate_secret with
      | Some s => s
      | None => rand_bytes
      end in
    let hash_input := secret ++ bytes_of_string (ToLower (Join labels ".")) in
    let hashed := Sum256 hash_input in
    let hashed_hex := Hex.Encode hashed in
    ("ymmv." +:+ substring 0 16 hashed_hex +:+ "."
       +:+ ToLower (Join (last_slice labels) ".") +:+ ".",
     Some secret).

(** *** Vocabulary of the contract *)

Definition dot_free (l : string) : Prop :=
  forallb (fun c => negb (is_dot c)) (list_ascii_of_string l) = true.

(** A label is a non-empty run of bytes other than the dot. *)
Definition is_label (l : string) : Prop :=
  l <> EmptyString /\ dot_free l.





End Obfuscator.
Export Obfuscator.

(** ** The DNS data the comparator looks at ([github.com/miekg/dns]) *)

Module Dns.

Definition TypeNS : N := 2.
Definition TypeCNAME : N := 5.
Definition TypeSOA : N := 6.
Definition TypePTR : N := 12.
Definition TypeMX : N := 15.
Definition TypeSRV : N := 33.
Definition TypeNAPTR : N := 35.
Definition TypeDNAME : N := 39.
Definition TypeOPT : N := 41.
Definition TypeRRSIG : N := 46.
Definition RcodeSuccess : N := 0.

(** [dns.RR_Header] *)
Record RR_Header : Type := mkHeader {
  Name : string;
  Rrtype : N;
  Class : N;
  Ttl : N;
  Rdlength : N
}.

(** [dns.SOA] *)
Module SOA.
Record t : Type := mk {
  Hdr : RR_Header;
  Ns : string;
  Mbox : string;
  Serial : N;
  Refresh : N;
  Retry : N;
  Expire : N;
  Minttl : N
}.
End SOA.

(** [dns.RR] is an interface; the comparator tells [*dns.SOA] apart from
    every other record struct, of which it uses the header only.
    [content] stands for the dynamic type and the field values of such a
    struct. *)
Inductive RR : Type :=
| RR_SOA (soa : SOA.t)
| RR_other (hdr : RR_Header) (content : string).

(** [rr.Header()] *)
Definition Header (rr : RR) : RR_Header :=
  match rr with
  | RR_SOA soa => SOA.Hdr soa
  | RR_other hdr _ => hdr
  end.

Definition with_Name (name : string) (h : RR_Header) : RR_Header :=
  mkHeader name (Rrtype h) (Class h) (Ttl h) (Rdlength h).

(** [rr.Header().Name = name] *)
Definition set_Name (name : string) (rr : RR) : RR :=
  match rr with
  | RR_SOA s =>
      RR_SOA (SOA.mk (with_Name name (SOA.Hdr s)) (SOA.Ns s) (SOA.Mbox s)
                (SOA.Serial s) (SOA.Refresh s) (SOA.Retry s) (SOA.Expire s)
                (SOA.Minttl s))
  | RR_other h c => RR_other (with_Name name h) c
  end.

(** [rr.Header().Name = strings.ToLower(rr.Header().Name)] *)
Definition lower_owner (rr : RR) : RR :=
  set_Name (ToLower (Name (Header rr))) rr.

(** The type assertion of [rr] to a pointer to [dns.SOA]; [None] is the
    run-time panic of a failed assertion. *)
Definition assert_SOA (rr : RR) : option SOA.t :=
  match rr with
  | RR_SOA soa => Some soa
  | RR_other _ _ => None
  end.

(** [dns.Question] *)
Module Question.
Record t : Type := mk { Name : string; Qtype : N; Qclass : N }.
End Question.

(** [dns.Msg] *)
Module Msg.
Record t : Type := mk {
  Id : N;
  Response : bool;
  Opcode : N;
  Authoritative : bool;
  Truncated : bool;
  RecursionDesired : bool;
  RecursionAvailable : bool;
  AuthenticatedData : bool;
  CheckingDisabled : bool;
  Rcode : N;
  Question : list Question.t;
  Answer : list RR;
  Ns : list RR;
  Extra : list RR
}.
End Msg.

#[export] Instance RR_Header_eq_dec : EqDecision RR_Header.
Proof. solve_decision. Defined.
#[export] Instance SOA_eq_dec : EqDecision SOA.t.
Proof. solve_decision. Defined.
#[export] Instance RR_eq_dec : EqDecision RR.
Proof. solve_decision. Defined.

(** What the program asks of the codec and never implements itself: the
    presentation text of a record ([String()], also what [%s] prints),
    the mnemonic tables, the wire parser (whose error the reader drops,
    so only the message it leaves matters) and the EDNS0 helpers. *)
Class Codec : Type := {
  RR_String : RR -> string;
  OpcodeToString : N -> string;
  RcodeToString : N -> string;
  TypeToString : N -> string;
  Unpack : string -> Msg.t;
  IsEdns0 : Msg.t -> option nat;
  SetEdns0 : N -> bool -> Msg.t -> Msg.t;
  SetUDPSize : nat -> N -> Msg.t -> Msg.t
}.

(** What the program asks of the Go library: [sort.Sort] driven by a
    [Less] method. *)
Class GoSort : Type := {
  sort_Sort : (RR -> RR -> bool) -> list RR -> list RR
}.

End Dns.
Export Dns.

(** ** Formatting ([fmt]) *)

Module Fmt.

(** The newline byte. *)
Definition nl : string := String (ascii_of_nat 10) EmptyString.

(** [%d] of an unsigned integer. *)
Definition decimal (n : N) : string := NilZero.string_of_uint (N.to_uint n).

Fixpoint zeros (k : nat) : string :=
  match k with
  | O => EmptyString
  | S k' => String "0" (zeros k')
  end.

(** [%06d]: at least six digits, padded with zeros on the left. *)
Definition decimal06 (n : N) : string :=
  let d := decimal n in zeros (6 - String.length d) +:+ d.

(** [%t] of a boolean. *)
Definition verb_t (b : bool) : string := if b then "true" else "false".

(** [%s] given a boolean: the verb does not apply, and [fmt] prints the
    mismatch marker instead. *)
Definition verb_s_of_bool (b : bool) : string :=
  "%!s(bool=" +:+ verb_t b +:+ ")".

(** [%t] given a string, likewise. *)
Definition verb_t_of_string (s : string) : string :=
  "%!t(string=" +:+ s +:+ ")".

End Fmt.
Export Fmt.

(** ** The response comparator *)

Module Comparator.

Section WithLibraries.
Context `{codec : Codec} `{gosort : GoSort}.

(** *** [rr_sort.Less], on the two elements [a[i]] and [a[j]] *)

Definition case_insensitive_type (rrtype : N) : bool :=
  (rrtype =? TypeNS)%N || (rrtype =? TypeCNAME)%N || (rrtype =? TypeSOA)%N
  || (rrtype =? TypePTR)%N || (rrtype =? TypeMX)%N || (rrtype =? TypeSRV)%N
  || (rrtype =? TypeNAPTR)%N || (rrtype =? TypeDNAME)%N.

Definition Less (a_i a_j : RR) : bool :=
  let i_name := ToLower (Name (Header a_i)) in
  let j_name := ToLower (Name (Header a_i)) in
  if str_lt i_name j_name then true
  else if str_lt j_name i_name then false
  else if (Rrtype (Header a_i) <? Rrtype (Header a_j))%N then true
  else if (Rrtype (Header a_j) <? Rrtype (Header a_i))%N then false
  else if (Ttl (Header a_i) <? Ttl (Header a_j))%N then true
  else if (Ttl (Header a_j) <? Ttl (Header a_i))%N then false
  else
    let case_insensitive := case_insensitive_type (Rrtype (Header a_i)) in
    let i_str := if case_insensitive then ToLower (RR_String a_i) else RR_String a_i in
    let j_str := if case_insensitive then ToLower (RR_String a_j) else RR_String a_j in
    if str_lt i_str j_str then true else false.

(** *** [extract_rrset] *)

Definition rrset_key (rr : RR) : string :=
  decimal06 (Rrtype (Header rr)) +:+ "_" +:+ Name (Header rr).

(** One turn of the first loop: the record's owner name is lowercased in
    place, and the record is appended to the RRset found under its key. *)
Definition add_to_rrsets (rrsets : gmap string (list RR)) (rr : RR)
    : gmap string (list RR) :=
  let rr := lower_owner rr in
  let key := rrset_key rr in
  let rrset := match rrsets !! key with
               | Some rrset => rrset
               | None => []
               end in
  <[key := rrset ++ [rr]]> rrsets.

Definition extract_rrset (rrs : list RR) : gmap string (list RR) :=
  let rrsets := fold_left add_to_rrsets rrs ∅ in
  sort_Sort Less <$> rrsets.

(** *** [compare_additional]

    Go visits the entries of a map in an order it chooses afresh for each
    [range]; [order] is that choice, applied to the entries of
    [iana_rr_map]. *)

Definition range_order : Type :=
  list (string * list RR) -> list (string * list RR).

Fixpoint additional_loop (yeti_rr_map : gmap string (list RR))
    (entries : list (string * list RR)) (iana_only yeti_only : list RR)
    : option (list RR * list RR) :=
  match entries with
  | [] => Some (iana_only, yeti_only)
  | (key, iana_rrset) :: rest =>
      first ← head iana_rrset;
      if (Rrtype (Header first) =? TypeOPT)%N then
        additional_loop yeti_rr_map rest iana_only yeti_only
      else if (Rrtype (Header first) =? TypeRRSIG)%N then
        additional_loop yeti_rr_map rest iana_only yeti_only
      else
        match yeti_rr_map !! key with
        | Some yeti_rrset =>
            if bool_decide (iana_rrset = yeti_rrset) then
              additional_loop yeti_rr_map rest iana_only yeti_only
            else
              additional_loop yeti_rr_map rest
                (iana_only ++ iana_rrset) (yeti_only ++ yeti_rrset)
        | None => additional_loop yeti_rr_map rest iana_only yeti_only
        end
  end.

Definition compare_additional (order : range_order) (iana yeti : list RR)
    : option (list RR * list RR) :=
  let iana_rr_map := extract_rrset iana in
  let yeti_rr_map := extract_rrset yeti in
  additional_loop yeti_rr_map (order (map_to_list iana_rr_map)) [] [].

(** *** [compare_section] *)

Definition is_root_SOA (rr : RR) : bool :=
  (Rrtype (Header rr) =? TypeSOA)%N && String.eqb (Name (Header rr)) ".".

(** The first loop, over [yeti]. *)
Fixpoint yeti_loop (yeti : list RR) (yeti_only : list RR)
    (yeti_root_soa : option SOA.t) : option (list RR * option SOA.t) :=
  match yeti with
  | [] => Some (yeti_only, yeti_root_soa)
  | yeti_rr :: rest =>
      if is_root_SOA yeti_rr then
        soa ← assert_SOA yeti_rr;
        yeti_loop rest yeti_only (Some soa)
      else if negb (Rrtype (Header yeti_rr) =? TypeRRSIG)%N then
        yeti_loop rest (yeti_only ++ [yeti_rr]) yeti_root_soa
      else
        yeti_loop rest yeti_only yeti_root_soa
  end.

(** The innermost loop: [yeti_only] without the first record whose
    lowercased text is [text], or [None] when nothing was found. *)
Fixpoint remove_match (text : string) (yeti_only : list RR)
    : option (list RR) :=
  match yeti_only with
  | [] => None
  | yeti_rr :: rest =>
      if String.eqb text (ToLower (RR_String yeti_rr)) then Some rest
      else match remove_match text rest with
           | Some rest' => Some (yeti_rr :: rest')
           | None => None
           end
  end.

(** The second loop, over [iana]. *)
Fixpoint iana_loop (iana : list RR) (iana_only yeti_only : list RR)
    (iana_root_soa : option SOA.t)
    : option (list RR * list RR * option SOA.t) :=
  match iana with
  | [] => Some (iana_only, yeti_only, iana_root_soa)
  | iana_rr :: rest =>
      if (Rrtype (Header iana_rr) =? TypeRRSIG)%N then
        iana_loop rest iana_only yeti_only iana_root_soa
      else if is_root_SOA iana_rr then
        soa ← assert_SOA iana_rr;
        iana_loop rest iana_only yeti_only (Some soa)
      else
        match remove_match (ToLower (RR_String iana_rr)) yeti_only with
        | Some yeti_only' => iana_loop rest iana_only yeti_only' iana_root_soa
        | None => iana_loop rest (iana_only ++ [iana_rr]) yeti_only iana_root_soa
        end
  end.

Definition compare_section (iana yeti : list RR)
    : option (list RR * list RR * option SOA.t * option SOA.t) :=
  '(yeti_only, yeti_root_soa) ← yeti_loop yeti [] None;
  '(iana_only, yeti_only, iana_root_soa) ← iana_loop iana [] yeti_only None;
  Some (iana_only, yeti_only, iana_root_soa, yeti_root_soa).

(** *** [skip_comparison]; [None] is the panic of [query.Question[0]] on an
    empty question section. *)
Definition skip_comparison (query : Msg.t) : option bool :=
  question ← head (Msg.Question query);
  let name := ToLower (Question.Name question) in
  if String.eqb name "." then Some true
  else if String.eqb name "id.server." then Some true
  else if String.eqb name "hostname.bind." then Some true
  else if HasSuffix name ".root-servers.net." then Some true
  else if HasSuffix name ".arpa." then Some true
  else Some false.

(** *** [compare_soa]; a nil pointer is [None]. *)
Definition soa_line (what : string) (iana_value yeti_value : N) : string :=
  if (iana_value =? yeti_value)%N then EmptyString
  else "IANA SOA " +:+ what +:+ ": " +:+ decimal iana_value
       +:+ ", Yeti SOA " +:+ what +:+ ": " +:+ decimal yeti_value +:+ nl.

Definition compare_soa (iana_soa yeti_soa : option SOA.t) : string :=
  match iana_soa, yeti_soa with
  | None, Some yeti_soa =>
      "SOA only for Yeti: " +:+ RR_String (RR_SOA yeti_soa) +:+ nl
  | None, None => EmptyString
  | Some iana_soa, None =>
      "SOA only for IANA: " +:+ RR_String (RR_SOA iana_soa) +:+ nl
  | Some iana_soa, Some yeti_soa =>
      soa_line "serial" (SOA.Serial iana_soa) (SOA.Serial yeti_soa)
      +:+ soa_line "refresh" (SOA.Refresh iana_soa) (SOA.Refresh yeti_soa)
      +:+ soa_line "retry" (SOA.Retry iana_soa) (SOA.Retry yeti_soa)
      +:+ soa_line "expiry" (SOA.Expire iana_soa) (SOA.Expire yeti_soa)
      +:+ soa_line "negative TTL" (SOA.Minttl iana_soa) (SOA.Minttl yeti_soa)
  end.

(** *** [compare_resp]

    The variable [equivalent] of the source is only ever written, and is
    left out. *)

Definition header_lines (iana yeti : Msg.t) : string :=
  (if Bool.eqb (Msg.Response iana) (Msg.Response yeti) then EmptyString
   else "Response flag mismatch: IANA " +:+ verb_s_of_bool (Msg.Response iana)
        +:+ " vs Yeti " +:+ verb_s_of_bool (Msg.Response yeti) +:+ nl)
  +:+ (if (Msg.Opcode iana =? Msg.Opcode yeti)%N then EmptyString
       else "Opcode mismatch: IANA " +:+ OpcodeToString (Msg.Opcode iana)
            +:+ " vs Yeti " +:+ OpcodeToString (Msg.Opcode yeti) +:+ nl)
  +:+ (if Bool.eqb (Msg.Authoritative iana) (Msg.Authoritative yeti) then EmptyString
       else "Authoritative flag mismatch: IANA " +:+ verb_t (Msg.Authoritative iana)
            +:+ " vs Yeti " +:+ verb_t (Msg.Authoritative yeti) +:+ nl)
  +:+ (if Bool.eqb (Msg.RecursionDesired iana) (Msg.RecursionDesired yeti) then EmptyString
       else "Recursion desired flag mismatch: IANA " +:+ verb_t (Msg.RecursionDesired iana)
            +:+ " vs Yeti " +:+ verb_t (Msg.RecursionDesired yeti) +:+ nl)
  +:+ (if Bool.eqb (Msg.RecursionAvailable iana) (Msg.RecursionAvailable yeti) then EmptyString
       else "Recursion available flag mismatch: IANA "
            +:+ verb_t_of_string (verb_t (Msg.RecursionAvailable iana))
            +:+ " vs Yeti "
            +:+ verb_t_of_string (verb_t (Msg.RecursionAvailable yeti)) +:+ nl)
  +:+ (if Bool.eqb (Msg.AuthenticatedData iana) (Msg.AuthenticatedData yeti) then EmptyString
       else "Authenticated data flag mismatch: IANA " +:+ verb_t (Msg.AuthenticatedData iana)
            +:+ " vs Yeti " +:+ verb_t (Msg.AuthenticatedData yeti) +:+ nl)
  +:+ (if (Msg.Rcode iana =? Msg.Rcode yeti)%N then EmptyString
       else "Rcode mismatch: IANA " +:+ RcodeToString (Msg.Rcode iana)
            +:+ " vs Yeti " +:+ RcodeToString (Msg.Rcode yeti) +:+ nl).

(** [for _, rr := range rrs { result += fmt.Sprintf("%s\n", rr) }] *)
Definition rr_lines (rrs : list RR) (result : string) : string :=
  fold_left (fun result rr => result +:+ RR_String rr +:+ nl) rrs result.

(** The block printed after each section comparison. *)
Definition section_lines (iana_title yeti_title : string)
    (iana_only yeti_only : list RR) (result : string) : string :=
  let result :=
    match iana_only with
    | [] => result
    | _ => rr_lines iana_only (result +:+ iana_title +:+ nl)
    end in
  match yeti_only with
  | [] => result
  | _ => rr_lines yeti_only (result +:+ yeti_title +:+ nl)
  end.

Definition compare_resp (order : range_order) (iana yeti : Msg.t)
    : option string :=
  skip ← skip_comparison iana;
  if skip : bool then Some ("Skipping query" +:+ nl)
  else
    let result := header_lines iana yeti in
    let iana_Answer := sort_Sort Less (Msg.Answer iana) in
    let yeti_Answer := sort_Sort Less (Msg.Answer yeti) in
    '(iana_only, yeti_only, iana_root_soa, yeti_root_soa) ←
      compare_section iana_Answer yeti_Answer;
    let result :=
      section_lines "Answer section, IANA only" "Answer section, Yeti only"
        iana_only yeti_only result in
    let result := result +:+ compare_soa iana_root_soa yeti_root_soa in
    let iana_Ns := sort_Sort Less (Msg.Ns iana) in
    let yeti_Ns := sort_Sort Less (Msg.Ns yeti) in
    '(iana_only, yeti_only, iana_root_soa, yeti_root_soa) ←
      compare_section iana_Ns yeti_Ns;
    let result :=
      section_lines "Authority section, IANA only" "Authority section, Yeti only"
        iana_only yeti_only result in
    let result := result +:+ compare_soa iana_root_soa yeti_root_soa in
    let iana_Extra := sort_Sort Less (Msg.Extra iana) in
    let yeti_Extra := sort_Sort Less (Msg.Extra yeti) in
    '(iana_only, yeti_only) ← compare_additional order iana_Extra yeti_Extra;
    let result :=
      section_lines "Additional section, IANA mismatch"
        "Additional section, Yeti mismatch" iana_only yeti_only result in
    Some result.

(** [compare_resp] works on its arguments in place: when it returns, the
    three sections of [iana] are sorted and the owner names of its
    additional records are lowercased (by [extract_rrset]).  This is the
    message the caller holds afterwards. *)
Definition compare_resp_leaves (iana : Msg.t) : Msg.t :=
  match skip_comparison iana with
  | Some false =>
      Msg.mk (Msg.Id iana) (Msg.Response iana) (Msg.Opcode iana)
        (Msg.Authoritative iana) (Msg.Truncated iana)
        (Msg.RecursionDesired iana) (Msg.RecursionAvailable iana)
        (Msg.AuthenticatedData iana) (Msg.CheckingDisabled iana)
        (Msg.Rcode iana) (Msg.Question iana)
        (sort_Sort Less (Msg.Answer iana))
        (sort_Sort Less (Msg.Ns iana))
        (map lower_owner (sort_Sort Less (Msg.Extra iana)))
  | _ => iana
  end.


End WithLibraries.
End Comparator.
Export Comparator.

(** ** The stub query ([dnsstub.DnsQuery]) *)

Module Dnsstub.

Inductive transport : Type := UDP | TCP.

(** Go error values: [dns.ErrTruncated] is told apart from all others. *)
Inductive error : Type :=
| ErrTruncated
| ErrOther (text : string).

Definition Error_text (e : error) : string :=
  match e with
  | ErrTruncated => "dns: failed to unpack truncated message"
  | ErrOther text => text
  end.

(** What one [dnsClient.Exchange] call returns: [(r, rtt, err)]. *)
Record exchanged : Type := mkExchanged {
  reply : option Msg.t;
  reply_rtt : N;
  reply_err : option error
}.

(** The outside world.  Both oracles are indexed by the number of calls
    made so far, so that successive calls may be answered differently. *)
Record Network : Type := mkNetwork {
  rand_Int : nat -> N + error;
  Exchange : nat -> transport -> string -> Msg.t -> exchanged
}.

(** The calls made so far: a counter for the oracles and the log of the
    exchanges started, oldest first. *)
Record Wire : Type := mkWire {
  calls : nat;
  sent : list (transport * string * Msg.t)
}.

Definition idle : Wire := mkWire 0 [].

Definition tick (w : Wire) : Wire := mkWire (S (calls w)) (sent w).

Definition log_exchange (net : transport) (server : string) (query : Msg.t)
    (w : Wire) : Wire :=
  mkWire (S (calls w)) (sent w ++ [(net, server, query)]).

(** [RandUint16] *)
Definition RandUint16 (world : Network) (w : Wire) : (N + error) * Wire :=
  match rand_Int world (calls w) with
  | inl id => (inl (id mod 65536)%N, tick w)
  | inr err => (inr err, tick w)
  end.

Definition set_Id (id : N) (m : Msg.t) : Msg.t :=
  Msg.mk id (Msg.Response m) (Msg.Opcode m) (Msg.Authoritative m)
    (Msg.Truncated m) (Msg.RecursionDesired m) (Msg.RecursionAvailable m)
    (Msg.AuthenticatedData m) (Msg.CheckingDisabled m) (Msg.Rcode m)
    (Msg.Question m) (Msg.Answer m) (Msg.Ns m) (Msg.Extra m).

(** How a call ends: with the triple [(r, rtt, err)], or in the panic of
    dereferencing a nil response. *)
Inductive outcome : Type :=
| Returned (r : option Msg.t) (rtt : N) (err : option error)
| Panicked.

(** [DnsQuery]; the third component is [query] as the call leaves it (its
    [Id] is assigned in place). *)
Definition DnsQuery (world : Network) (w : Wire) (server : string)
    (query : Msg.t) : outcome * Wire * Msg.t :=
  match RandUint16 world w with
  | (inr err, w) => (Returned None 0 (Some err), w, query)
  | (inl id, w) =>
      let query := set_Id id query in
      let x := Exchange world (calls w) UDP server query in
      let w := log_exchange UDP server query w in
      match reply_err x with
      | Some (ErrOther text) => (Returned None 0 (Some (ErrOther text)), w, query)
      | _ =>
          match reply x with
          | None => (Panicked, w, query)
          | Some r =>
              if (Msg.Rcode r =? RcodeSuccess)%N && negb (Msg.Truncated r) then
                (Returned (Some r) (reply_rtt x) None, w, query)
              else
                let x := Exchange world (calls w) TCP server query in
                let w := log_exchange TCP server query w in
                match reply_err x with
                | Some err => (Returned None 0 (Some err), w, query)
                | None => (Returned (reply x) (reply_rtt x) None, w, query)
                end
          end
      end
  end.

End Dnsstub.
Export Dnsstub.

(** ** Replaying one captured exchange ([yeti_query]) *)

Module Replay.

Section WithLibraries.
Context `{codec : Codec} `{gosort : GoSort}.

(** [SetOrChangeUDPSize] *)
Definition SetOrChangeUDPSize (msg : Msg.t) (udpsize : N) : Msg.t :=
  match IsEdns0 msg with
  | None => SetEdns0 udpsize false msg
  | Some e => SetUDPSize e udpsize msg
  end.

(** The fields of a server target that [yeti_query] reads; [ip] is the
    text that [target.ip.String()] yields.  The generator that owns the
    targets, and its [update_srtt], are not part of this file: [next()]
    is represented by the list it returns. *)
Record target : Type := mkTarget { ip : string; ns_name : string }.

(** All that one task reads and writes. *)
Record task : Type := mkTask {
  iana_query : Msg.t;
  iana_resp : Msg.t;
  result : string;
  obfuscate_secret : option (list Z);
  wire : Wire
}.

(** [iana_query.Question[0].Name = qname] *)
Definition set_Question0_Name (qname : string) (m : Msg.t) : option Msg.t :=
  match Msg.Question m with
  | [] => None
  | q :: rest =>
      Some (Msg.mk (Msg.Id m) (Msg.Response m) (Msg.Opcode m)
              (Msg.Authoritative m) (Msg.Truncated m)
              (Msg.RecursionDesired m) (Msg.RecursionAvailable m)
              (Msg.AuthenticatedData m) (Msg.CheckingDisabled m)
              (Msg.Rcode m)
              (Question.mk qname (Question.Qtype q) (Question.Qclass q) :: rest)
              (Msg.Answer m) (Msg.Ns m) (Msg.Extra m))
  end.

(** [log.Prefix()]: the program never sets one. *)
Definition log_Prefix : string := EmptyString.

(** The body of the loop over the targets; [None] is a panic.  ([order] is
    the choice Go makes for the map of a call to [compare_resp]; the model
    lets every call of one task make the same choice.) *)
Definition yeti_query_body (world : Network) (order : range_order)
    (rand_bytes : list Z) (clear_names : bool) (edns_size : N)
    (tgt : target) (t : task) : option task :=
  question ← head (Msg.Question (iana_query t));
  let '(qname, secret) :=
    if clear_names then (Question.Name question, obfuscate_secret t)
    else obfuscate_query rand_bytes (obfuscate_secret t) (Question.Name question) in
  let server := "[" +:+ ip tgt +:+ "]:53" in
  let result :=
    result t +:+ log_Prefix +:+ "Sending query '" +:+ Question.Name question
    +:+ "' " +:+ TypeToString (Question.Qtype question) +:+ " as '" +:+ qname
    +:+ "' to " +:+ ns_name tgt +:+ " @ " +:+ server +:+ nl in
  query ← set_Question0_Name qname (iana_query t);
  let query := if (edns_size =? 0)%N then query
               else SetOrChangeUDPSize query edns_size in
  let '(out, w, query) := DnsQuery world (wire t) server query in
  match out with
  | Panicked => None
  | Returned _ _ (Some err) =>
      Some (mkTask query (iana_resp t)
              (result +:+ "Error querying Yeti root server; "
                 +:+ Error_text err +:+ nl)
              secret w)
  | Returned (Some yeti_resp) _ None =>
      report ← compare_resp order (iana_resp t) yeti_resp;
      Some (mkTask query (compare_resp_leaves (iana_resp t))
              (result +:+ report) secret w)
  | Returned None _ None =>
      skip ← skip_comparison (iana_resp t);
      if skip : bool then
        Some (mkTask query (iana_resp t)
                (result +:+ "Skipping query" +:+ nl) secret w)
      else None
  end.

Fixpoint yeti_query_loop (world : Network) (order : range_order)
    (rand_bytes : list Z) (clear_names : bool) (edns_size : N)
    (targets : list target) (t : task) : option task :=
  match targets with
  | [] => Some t
  | tgt :: rest =>
      t ← yeti_query_body world order rand_bytes clear_names edns_size tgt t;
      yeti_query_loop world order rand_bytes clear_names edns_size rest t
  end.

(** [yeti_query]: what is sent on [output] (with the state left behind),
    or [None] when the goroutine panics. *)
Definition yeti_query (world : Network) (order : range_order)
    (rand_bytes : list Z) (secret : option (list Z)) (w : Wire)
    (targets : list target) (clear_names : bool) (edns_size : N)
    (iana_query iana_resp : Msg.t) : option (string * task) :=
  t ← yeti_query_loop world order rand_bytes clear_names edns_size targets
        (mkTask iana_query iana_resp EmptyString secret w);
  Some (result t, t).

End WithLibraries.
End Replay.
Export Replay.

(** ** The frame reader ([read_next_message], [message_reader])

    Standard input is the string of bytes not yet consumed.  A read is
    given every requested byte that the stream still holds. *)

Module Frame.

(** The error values the reader can hold: [io.EOF], [io.ErrUnexpectedEOF],
    and the messages built with [errors.New]. *)
Inductive io_error : Type :=
| EOF
| ErrUnexpectedEOF
| errors_New (text : string).

Definition Error (e : io_error) : string :=
  match e with
  | EOF => "EOF"
  | ErrUnexpectedEOF => "unexpected EOF"
  | errors_New text => text
  end.

(** Reading: from the bytes left to a value or an error, and the bytes
    left afterwards. *)
Definition reading (A : Type) : Type := string -> (io_error + A) * string.

Definition ret {A : Type} (a : A) : reading A := fun stdin => (inr a, stdin).
Definition raise {A : Type} (e : io_error) : reading A := fun stdin => (inl e, stdin).
Definition bind {A B : Type} (m : reading A) (k : A -> reading B) : reading B :=
  fun stdin =>
    match m stdin with
    | (inr a, rest) => k a rest
    | (inl e, rest) => (inl e, rest)
    end.

Notation "x <~ m ; k" := (bind m (fun x => k))
  (at level 20, m at level 100, k at level 200, only parsing).

(** A reading that never hands back more bytes than it was given. *)
Definition never_lengthens {A : Type} (m : reading A) : Prop :=
  forall stdin a rest,
    m stdin = (inr a, rest) -> String.length rest <= String.length stdin.

(** [os.Stdin.Read(buf)] with [len(buf) = len]: the bytes read.  An empty
    buffer reads nothing; at the end of the stream the result is
    [(0, io.EOF)]. *)
Definition Stdin_Read (len : nat) : reading string :=
  fun stdin =>
    match len, stdin with
    | O, _ => (inr EmptyString, stdin)
    | _, EmptyString => (inl EOF, stdin)
    | _, _ => (inr (str_take len stdin), str_drop len stdin)
    end.

Fixpoint BigEndian (bytes : string) (acc : N) : N :=
  match bytes with
  | EmptyString => acc
  | String c r => BigEndian r (acc * 256 + N_of_ascii c)
  end.

(** [binary.Read(os.Stdin, binary.BigEndian, &v)] for an unsigned [v] of
    [size] bytes: [io.ReadFull] underneath, which reports [io.EOF] when no
    byte could be read and [io.ErrUnexpectedEOF] when only some could. *)
Definition binary_Read (size : nat) : reading N :=
  fun stdin =>
    match stdin with
    | EmptyString => (inl EOF, stdin)
    | _ =>
        if (String.length stdin <? size)%nat then (inl ErrUnexpectedEOF, EmptyString)
        else (inr (BigEndian (str_take size stdin) 0), str_drop size stdin)
    end.

(** [ymmv_message]; [time.Unix(sec, nsec)] is kept as the pair. *)
Record ymmv_message : Type := mkMessage {
  ip_family : N;
  ip_protocol : ascii;
  addr : string;
  query_time : N * N;
  query : Msg.t;
  answer_time : N * N;
  answer : Msg.t
}.

Definition nat_text (n : nat) : string := decimal (N.of_nat n).

Section WithCodec.
Context `{codec : Codec}.

Definition read_next_message : reading ymmv_message :=
  magic <~ Stdin_Read 4 ;
  if negb (String.length magic =? 4)%nat then
    raise (errors_New ("Only read " +:+ nat_text (String.length magic)
                        +:+ " of 4 magic bytes"))
  else if negb (String.eqb magic "ymmv") then
    raise (errors_New ("Magic '" +:+ magic +:+ "' instead of 'ymmv'"))
  else
  tmp_ip_family <~ Stdin_Read 1 ;
  if negb (String.length tmp_ip_family =? 1)%nat then
    raise (errors_New "Couldn't read IPv4 or IPv6")
  else if negb (String.eqb tmp_ip_family "4" || String.eqb tmp_ip_family "6") then
    raise (errors_New ("Expecting '4' or '6' for IP family, got '"
                        +:+ tmp_ip_family +:+ "'"))
  else
  let ip_family : N := if String.eqb tmp_ip_family "4" then 4%N else 6%N in
  protocol <~ Stdin_Read 1 ;
  if negb (String.length protocol =? 1)%nat then
    raise (errors_New "Couldn't read TCP or UDP")
  else if negb (String.eqb protocol "u" || String.eqb protocol "t") then
    raise (errors_New ("Expecting 't'cp or 'u'dp for protocol, got '"
                        +:+ protocol +:+ "'"))
  else
  let cap_tmp_addr := if (ip_family =? 4)%N then 4%nat else 16%nat in
  tmp_addr <~ Stdin_Read cap_tmp_addr ;
  if negb (String.length tmp_addr =? cap_tmp_addr)%nat then
    raise (errors_New ("Only read " +:+ nat_text (String.length tmp_addr)
                        +:+ " of " +:+ nat_text cap_tmp_addr
                        +:+ " bytes of address"))
  else
  query_sec <~ binary_Read 4 ;
  query_nsec <~ binary_Read 4 ;
  query_len <~ binary_Read 2 ;
  query_raw <~ Stdin_Read (N.to_nat query_len) ;
  if negb (String.length query_raw =? N.to_nat query_len)%nat then
    raise (errors_New ("Only read " +:+ nat_text (String.length query_raw)
                        +:+ " of " +:+ decimal query_len
                        +:+ " bytes of query message"))
  else
  let query := Unpack query_raw in
  answer_sec <~ binary_Read 4 ;
  answer_nsec <~ binary_Read 4 ;
  answer_len <~ binary_Read 2 ;
  answer_raw <~ Stdin_Read (N.to_nat answer_len) ;
  if negb (String.length answer_raw =? N.to_nat answer_len)%nat then
    raise (errors_New ("Only read " +:+ nat_text (String.length answer_raw)
                        +:+ " of " +:+ decimal answer_len
                        +:+ " bytes of answer message"))
  else
  let answer := Unpack answer_raw in
  ret (mkMessage ip_family
         (match protocol with String c _ => c | EmptyString => zero end)
         tmp_addr (query_sec, query_nsec) query
         (answer_sec, answer_nsec) answer).

(** How the reader goroutine ends: it returns after sending the nil
    message, or [log.Fatal] ends the process.  [OutOfFuel] belongs to the
    model only: the loop is run for at most [fuel] turns. *)
Inductive reader_end : Type :=
| ReaderReturns
| log_Fatal (text : string)
| OutOfFuel.

(** [message_reader]: the values sent on [output], in order ([None] is
    the nil message), and how the goroutine ends. *)
Fixpoint message_reader (fuel : nat) (stdin : string)
    : list (option ymmv_message) * reader_end :=
  match fuel with
  | O => ([], OutOfFuel)
  | S fuel' =>
      match read_next_message stdin with
      | (inl EOF, _) => ([None], ReaderReturns)
      | (inl err, _) => ([], log_Fatal (Error err))
      | (inr y, rest) =>
          let '(sent, ending) := message_reader fuel' rest in
          (Some y :: sent, ending)
      end
  end.

End WithCodec.
End Frame.
Export Frame.

(** ** The main loop ([main]) *)

Module Main.

(** What a [select] of the main loop can receive: a value from
    [messages] (nil is [None]) or a report from [query_output]. *)
Inductive event : Type :=
| from_messages (y : option ymmv_message)
| from_query_output (str : string).

Record vars : Type := mkVars {
  query_count : Z;
  printed : list string;          (* [fmt.Print], oldest first *)
  started : list ymmv_message     (* [go yeti_query(...)], oldest first *)
}.

(** How the body of a [select] case ends. *)
Inductive completion : Type :=
| falls_off      (* the end of the case is reached *)
| breaks.        (* a [break] statement is executed *)

(** The [select] of the main loop, given what it receives. *)
Definition main_select (v : vars) (e : event) : vars * completion :=
  match e with
  | from_messages None => (v, breaks)
  | from_messages (Some y) =>
      (mkVars (query_count v + 1) (printed v) (started v ++ [y]), falls_off)
  | from_query_output str =>
      (mkVars (query_count v - 1) (printed v ++ [str]) (started v), falls_off)
  end.

(** Where control stands between two receptions. *)
Inductive place : Type :=
| in_main_loop     (* at the [select] of [for { select { ... } }] *)
| in_drain_loop    (* at the receive of [for query_count > 0 { ... }] *)
| returned.        (* [main] has returned: exit status 0 *)

Definition enter_drain_loop (v : vars) : place :=
  if (0 <? query_count v)%Z then in_drain_loop else returned.

(** Where control goes once a [select] case has ended.  In Go a [break]
    ends the innermost [for], [switch] or [select] statement: here the
    [select].  The [for] around it has no condition and no statement
    that leaves it, so after either completion the loop takes its next
    turn. *)
Definition after_select (c : completion) : place :=
  match c with
  | falls_off => in_main_loop
  | breaks => in_main_loop
  end.

Definition main_step (s : place * vars) (e : event) : place * vars :=
  let '(at_, v) := s in
  match at_ with
  | in_main_loop =>
      let '(v, c) := main_select v e in (after_select c, v)
  | in_drain_loop =>
      match e with
      | from_query_output str =>
          let v := mkVars (query_count v - 1) (printed v ++ [str]) (started v) in
          (enter_drain_loop v, v)
      | from_messages _ => (in_drain_loop, v)
      end
  | returned => (returned, v)
  end.

Definition main_start : place * vars := (in_main_loop, mkVars 0 [] []).

(** The run of [main] against the receptions [events], in order. *)
Definition main_run (events : list event) : place * vars :=
  fold_left main_step events main_start.

End Main.
Export Main.

(** ** Padding and printing a captured message ([PadRight], [print]) *)

Module Padding.

(** [for len(s) < length { s += pad }], run for at most [fuel] turns;
    [None] when the turns are used up before the loop ends. *)
Fixpoint PadRight_loop (fuel : nat) (s : string) (length : Z) (pad : string)
    : option string :=
  if (Z.of_nat (String.length s) <? length)%Z then
    match fuel with
    | O => None
    | S fuel' => PadRight_loop fuel' (s +:+ pad) length pad
    end
  else Some s.

(** [PadRight]; [length] is a Go [int] and may be negative. *)
Definition PadRight (fuel : nat) (s : string) (length : Z) (pad : string)
    : option string :=
  if (length <=? Z.of_nat (String.length s))%Z then Some s
  else
    s ← PadRight_loop fuel s length pad;
    Some (str_take (Z.to_nat length) s).

(** What [%s] prints for the values that [print] hands to [fmt]: the
    address (a pointer to [net.IP]), a message, and a [time.Time]. *)
Class Presentation : Type := {
  IP_String : string -> string;
  Msg_String : Msg.t -> string;
  Time_String : N * N -> string
}.

(** [time.Unix(sec, nsec).Unix()]: whole seconds of [nsec] are carried
    over into the seconds. *)
Definition Unix (t : N * N) : N := (fst t + snd t / 1000000000)%N.

Section WithPresentation.
Context `{presentation : Presentation}.

Definition when_line (t : N * N) : string :=
  if (Unix t =? 0)%N then ";; WHEN: unknown" +:+ nl
  else ";; WHEN: " +:+ Time_String t +:+ nl.

(** [y.print()]: the text written to standard output. *)
Definition print (fuel : nat) (y : ymmv_message) : option string :=
  let protocol_str :=
    if Ascii.eqb (ip_protocol y) "u" then "UDP" else "TCP" in
  let header :=
    "===[ ymmv message (IPv" +:+ decimal (ip_family y) +:+ ", "
    +:+ protocol_str +:+ ", " +:+ IP_String (addr y) +:+ ") ]" in
  banner ← PadRight fuel header 78 "=";
  let out := banner +:+ nl in
  let out := out +:+ Msg_String (query y) +:+ nl in
  let out := out +:+ when_line (query_time y) in
  rule ← PadRight fuel EmptyString 78 "-";
  let out := out +:+ rule +:+ nl in
  let out := out +:+ Msg_String (answer y) +:+ nl in
  let out := out +:+ when_line (answer_time y) in
  rule ← PadRight fuel EmptyString 78 "-";
  Some (out +:+ rule +:+ nl).

End WithPresentation.
End Padding.
Export Padding.

(** ** The slice type [rr_sort] as [sort.Interface] ([Len], [Swap]) *)

Module RrSort.

(** [a[i]] for a Go [int] index; [None] is the index-out-of-range panic. *)
Definition index {A : Type} (a : list A) (i : Z) : option A :=
  if (i <? 0)%Z then None else a !! Z.to_nat i.

Definition Len (a : list RR) : Z := Z.of_nat (List.length a).

(** [a[i], a[j] = a[j], a[i]]: both operands are read first, then
    [a[i]] and [a[j]] are assigned in this order. *)
Definition Swap (a : list RR) (i j : Z) : option (list RR) :=
  a_j ← index a j;
  a_i ← index a i;
  Some (<[Z.to_nat j := a_i]> (<[Z.to_nat i := a_j]> a)).

End RrSort.
Export RrSort.

(** ** The stub resolver ([dnsstub.StubResolver] and its workers)

    A channel is the queue of the values sent and not yet received, and
    whether it has been closed.  A send is taken to find room: of the
    buffer sizes chosen by [Init], the model keeps only whether [make]
    accepts them. *)

Module Resolver.

Module query.
Record t : Type := mk {
  handle : Z;
  qname : string;
  rtype : N
}.
End query.

Module answer.
Record t : Type := mk {
  handle : Z;
  qname : string;
  rtype : N;
  answer : option Msg.t;
  rtt : N;
  err : option error
}.
End answer.

Record chan (A : Type) : Type := mkChan {
  queued : list A;
  closed : bool
}.
Arguments mkChan {A} _ _.
Arguments queued {A} _.
Arguments closed {A} _.

(** The channel that [make(chan T, n)] returns: empty and open. *)
Definition make_chan {A : Type} : chan A := mkChan [] false.

(** [make(chan T, size)] for a Go [int] [size]; [None] is the panic of
    [make] on a size that is negative or out of range.  [limit] is the
    largest buffer size that the runtime grants: its bound on the size of
    an allocation is not part of the sources. *)
Definition make_sized {A : Type} (limit size : Z) : option (chan A) :=
  if ((size <? 0) || (limit <? size))%Z then None else Some make_chan.

(** [ch <- v]; [None] is the panic of a send on a closed channel. *)
Definition send {A : Type} (v : A) (ch : chan A) : option (chan A) :=
  if closed ch then None else Some (mkChan (queued ch ++ [v]) false).

(** [close(ch)]; [None] is the panic of closing a closed channel. *)
Definition close {A : Type} (ch : chan A) : option (chan A) :=
  if closed ch then None else Some (mkChan (queued ch) true).

Record StubResolver : Type := mkStubResolver {
  next_handle : Z;
  queries : chan query.t;
  answers : chan answer.t;
  finished_answers : list answer.t
}.

(** Go's [int] is 64 bits wide and wraps around. *)
Definition wrap_int (x : Z) : Z :=
  ((x + 9223372036854775808) mod 18446744073709551616 - 9223372036854775808)%Z.

(** [new(dns.Msg)] *)
Definition new_Msg : Msg.t :=
  Msg.mk 0 false 0 false false false false false false 0 [] [] [] [].

Definition set_RecursionDesired (b : bool) (m : Msg.t) : Msg.t :=
  Msg.mk (Msg.Id m) (Msg.Response m) (Msg.Opcode m) (Msg.Authoritative m)
    (Msg.Truncated m) b (Msg.RecursionAvailable m)
    (Msg.AuthenticatedData m) (Msg.CheckingDisabled m) (Msg.Rcode m)
    (Msg.Question m) (Msg.Answer m) (Msg.Ns m) (Msg.Extra m).

Definition ClassINET : N := 1.

(** [m.SetQuestion(z, t)] of the codec: a fresh [Id] (here [id]), the RD
    bit, and the one question [z], [t], class IN. *)
Definition SetQuestion (id : N) (z : string) (t : N) (m : Msg.t) : Msg.t :=
  Msg.mk id (Msg.Response m) (Msg.Opcode m) (Msg.Authoritative m)
    (Msg.Truncated m) true (Msg.RecursionAvailable m)
    (Msg.AuthenticatedData m) (Msg.CheckingDisabled m) (Msg.Rcode m)
    [Question.mk z t ClassINET] (Msg.Answer m) (Msg.Ns m) (Msg.Extra m).

(** [strings.ContainsRune(server, ':')] *)
Definition ContainsRune_colon (s : string) : bool :=
  existsb (Ascii.eqb ":") (list_ascii_of_string s).

(** The address a worker hands to [DnsQuery]: a colon marks an IPv6
    address, which is put in brackets. *)
Definition resolver_address (server : string) : string :=
  if ContainsRune_colon server then "[" +:+ server +:+ "]:53"
  else server +:+ ":53".

(** The loop of [stub_resolve] over the servers; [a] is the answer being
    filled in and [dns_query] the query, which [DnsQuery] stamps with an
    identifier at each call.  [None] is a panic. *)
Fixpoint try_servers (world : Network) (servers : list string)
    (dns_query : Msg.t) (a : answer.t) (w : Wire)
    : option (answer.t * Wire) :=
  match servers with
  | [] => Some (a, w)
  | server :: rest =>
      let resolver := resolver_address server in
      match DnsQuery world w resolver dns_query with
      | (Panicked, _, _) => None
      | (Returned r rtt err, w, dns_query) =>
          let a := answer.mk (answer.handle a) (answer.qname a)
                     (answer.rtype a) r rtt err in
          match r with
          | Some _ => Some (a, w)
          | None => try_servers world rest dns_query a w
          end
      end
  end.

(** One turn of [for q := range queries] in [stub_resolve]: the answer
    that is sent on [answers].  [dns_Id] stands for the identifiers that
    the codec draws in [SetQuestion], indexed like the oracles of the
    network. *)
Definition stub_resolve_turn (world : Network) (dns_Id : nat -> N)
    (servers : list string) (q : query.t) (w : Wire)
    : option (answer.t * Wire) :=
  let dns_query := set_RecursionDesired true new_Msg in
  let dns_query :=
    SetQuestion (dns_Id (calls w)) (query.qname q) (query.rtype q) dns_query in
  let a := answer.mk (query.handle q) (query.qname q) (query.rtype q)
             None 0 None in
  try_servers world servers dns_query a w.


(** How [Init] ends. *)
Inductive initialised : Type :=
| Init_error (text : string)
| Init_panics          (* [make] refuses the size of a channel *)
| Init_returns (resolver : StubResolver) (servers : list string)
               (workers : nat).

(** [Init]; [server_ips] holds the texts [ip.String()], and
    [resolv_conf] is what [dns.ClientConfigFromFile] would return: an
    error text or the configured servers.  The two buffer sizes are
    products in Go's [int], which wrap around; [limit] is the bound of
    [make_sized], one for both channels, whose elements are pointers.
    One worker is started for each [i] from 0 that is less than
    [concurrency]. *)
Definition Init (limit : Z) (resolv_conf : string + list string)
    (concurrency : Z) (server_ips : list string) : initialised :=
  let servers := server_ips in
  match
    (if (List.length servers =? 0)%nat then
       match resolv_conf with
       | inl err =>
           inl ("error reading resolver configuration from "
                +:+ "'/etc/resolv.conf'; " +:+ err)
       | inr configured => inr configured
       end
     else inr servers)
  with
  | inl newerr => Init_error newerr
  | inr servers =>
      match make_sized limit (wrap_int (concurrency * 4)) with
      | None => Init_panics
      | Some queries =>
          match make_sized limit (wrap_int (concurrency * 2)) with
          | None => Init_panics
          | Some answers =>
              Init_returns (mkStubResolver 0 queries answers [])
                servers (Z.to_nat concurrency)
          end
      end
  end.

(** [resolver.Query(qname, rtype)]: the handle, and the resolver
    afterwards; [None] is a panic. *)
Definition Query (resolver : StubResolver) (qname : string) (rtype : N)
    : option (Z * StubResolver) :=
  let next_handle := wrap_int (next_handle resolver + 1) in
  let q := query.mk next_handle qname rtype in
  queries ← send q (queries resolver);
  Some (next_handle,
        mkStubResolver next_handle queries (answers resolver)
          (finished_answers resolver)).

(** What a waiting call returns: [a.answer, a.rtt, a.qname, a.rtype,
    a.err]. *)
Definition returned_fields (a : answer.t)
    : option Msg.t * N * string * N * option error :=
  (answer.answer a, answer.rtt a, answer.qname a, answer.rtype a,
   answer.err a).

(** How a waiting call ends: it returns, it blocks on the empty channel
    (for as long as no worker sends), or it panics on the nil pointer
    received from the closed channel. *)
Inductive waited : Type :=
| Waited (fields : option Msg.t * N * string * N * option error)
         (resolver : StubResolver)
| Blocks (resolver : StubResolver)
| Wait_panics.

(** [resolver.Wait()] *)
Definition Wait (resolver : StubResolver) : waited :=
  match finished_answers resolver with
  | a :: rest =>
      Waited (returned_fields a)
        (mkStubResolver (next_handle resolver) (queries resolver)
           (answers resolver) rest)
  | [] =>
      match queued (answers resolver) with
      | a :: rest =>
          Waited (returned_fields a)
            (mkStubResolver (next_handle resolver) (queries resolver)
               (mkChan rest (closed (answers resolver))) [])
      | [] =>
          if closed (answers resolver) then Wait_panics
          else Blocks resolver
      end
  end.

(** The first loop of [WaitByHandle]: the first finished answer that
    bears [handle], and the slice without it. *)
Fixpoint take_finished (handle : Z) (finished_answers : list answer.t)
    : option (answer.t * list answer.t) :=
  match finished_answers with
  | [] => None
  | a :: rest =>
      if (answer.handle a =? handle)%Z then Some (a, rest)
      else
        '(found, rest) ← take_finished handle rest;
        Some (found, a :: rest)
  end.

(** The second loop of [WaitByHandle], over what the channel holds:
    the answer found if any, what the channel still holds, and the
    finished answers. *)
Fixpoint receive_until (handle : Z) (queued : list answer.t)
    (finished_answers : list answer.t)
    : option answer.t * list answer.t * list answer.t :=
  match queued with
  | [] => (None, [], finished_answers)
  | a :: rest =>
      if (answer.handle a =? handle)%Z then (Some a, rest, finished_answers)
      else receive_until handle rest (finished_answers ++ [a])
  end.

(** [resolver.WaitByHandle(handle)] *)
Definition WaitByHandle (resolver : StubResolver) (handle : Z) : waited :=
  match take_finished handle (finished_answers resolver) with
  | Some (a, rest) =>
      Waited (returned_fields a)
        (mkStubResolver (next_handle resolver) (queries resolver)
           (answers resolver) rest)
  | None =>
      let '(found, queued, finished_answers) :=
        receive_until handle (queued (answers resolver))
          (finished_answers resolver) in
      let resolver :=
        mkStubResolver (next_handle resolver) (queries resolver)
          (mkChan queued (closed (answers resolver))) finished_answers in
      match found with
      | Some a => Waited (returned_fields a) resolver
      | None =>
          if closed (answers resolver) then Wait_panics else Blocks resolver
      end
  end.

(** [resolver.Close()]; [None] is a panic. *)
Definition Close (resolver : StubResolver) : option StubResolver :=
  queries ← close (queries resolver);
  answers ← close (answers resolver);
  Some (mkStubResolver (next_handle resolver) queries answers
          (finished_answers resolver)).

End Resolver.

(** ** What [main] does before its loop *)

Module Setup.

(** [strings.ToUpper], on single bytes as [ToLower] above. *)
Definition upper_byte (c : ascii) : ascii :=
  let n := N_of_ascii c in
  if ((97 <=? n) && (n <=? 122))%N then ascii_of_N (n - 32) else c.

Fixpoint ToUpper (s : string) : string :=
  match s with
  | EmptyString => EmptyString
  | String c r => String (upper_byte c) (ToUpper r)
  end.

(** The value of a hexadecimal digit, of either case. *)
Definition fromHexChar (c : ascii) : option Z :=
  let n := Z.of_N (N_of_ascii c) in
  if ((48 <=? n) && (n <=? 57))%Z then Some (n - 48)%Z
  else if ((97 <=? n) && (n <=? 102))%Z then Some (n - 87)%Z
  else if ((65 <=? n) && (n <=? 70))%Z then Some (n - 55)%Z
  else None.

(** [hex.DecodeString]: the bytes, or [None] when it reports an error (a
    byte that is no digit, or an odd length). *)
Fixpoint DecodeString (s : string) : option (list Z) :=
  match s with
  | EmptyString => Some []
  | String _ EmptyString => None
  | String p (String q rest) =>
      a ← fromHexChar p;
      b ← fromHexChar q;
      bytes ← DecodeString rest;
      Some ((a * 16 + b)%Z :: bytes)
  end.

(** What [obfuscate_query] writes to the log when it has drawn the
    secret. *)
Definition generated_secret_log (obfuscate_secret : list Z) : string :=
  "generated random obfuscation secret "
  +:+ ToUpper (Hex.Encode obfuscate_secret).

(** The command line after [flag.Parse()]. *)
Record flags : Type := mkFlags {
  clear_names : bool;
  secret : string;
  edns_size : N;
  args : list string
}.

(** What the rest of [main] works with. *)
Record settings : Type := mkSettings {
  use_clear_names : bool;
  ips : list string;
  obfuscate_secret : option (list Z);
  edns_size16 : N
}.

(** How the preparation ends: [log.Fatalf] (the format's argument is
    kept), [os.Exit(1)] after the message on standard output, or the
    program goes on to start the reader and enter the main loop. *)
Inductive prepared : Type :=
| Fatalf_unrecognized_IP (server : string)
| Fatalf_decoding_secret
| Exit_1 (stdout : string)
| goes_on (s : settings).

Section WithParseIP.
(** [net.ParseIP]: [None] is nil. *)
Variable ParseIP : string -> option string.

(** [for _, server := range args { ... }]: the addresses, or the first
    argument that is none. *)
Fixpoint parse_servers (args : list string) (ips : list string)
    : string + list string :=
  match args with
  | [] => inr ips
  | server :: rest =>
      match ParseIP server with
      | None => inl server
      | Some ip => parse_servers rest (ips ++ [ip])
      end
  end.

Definition main_prepare (f : flags) : prepared :=
  match
    (if (1 <? List.length (args f))%nat then parse_servers (args f) []
     else inr [])
  with
  | inl server => Fatalf_unrecognized_IP server
  | inr ips =>
      match
        (if String.eqb (secret f) EmptyString then Some None
         else option_map Some (DecodeString (secret f)))
      with
      | None => Fatalf_decoding_secret
      | Some obfuscate_secret =>
          if (65535 <? edns_size f)%N then
            Exit_1 ("Syntax error: EDNS0 buffer size maximum is 65535" +:+ nl)
          else
            goes_on (mkSettings (clear_names f) ips obfuscate_secret
                       (edns_size f mod 65536)%N)
      end
  end.

End WithParseIP.
End Setup.

(** ** The canonical ordering as the specification words it

    Owner names first, the left record's against the right record's; then
    type, TTL and text as in [Less].  It is stated here to be compared with
    [Less], which is the ordering the program runs. *)

Module Specified.
Section WithCodec.
Context `{codec : Codec}.

Definition canonical_less (left right : RR) : bool :=
  let left_name := ToLower (Name (Header left)) in
  let right_name := ToLower (Name (Header right)) in
  if str_lt left_name right_name then true
  else if str_lt right_name left_name then false
  else if (Rrtype (Header left) <? Rrtype (Header right))%N then true
  else if (Rrtype (Header right) <? Rrtype (Header left))%N then false
  else if (Ttl (Header left) <? Ttl (Header right))%N then true
  else if (Ttl (Header right) <? Ttl (Header left))%N then false
  else
    let fold := case_insensitive_type (Rrtype (Header left)) in
    str_lt (if fold then ToLower (RR_String left) else RR_String left)
           (if fold then ToLower (RR_String right) else RR_String right).

End WithCodec.

(** The question names of the skip policy: the root, the two server
    identity names, and whatever ends in [.root-servers.net.] or in
    [.arpa.]. *)
Definition skip_listed (name : string) : Prop :=
  name = "." \/ name = "id.server." \/ name = "hostname.bind."
  \/ (exists front, name = front +:+ ".root-servers.net.")
  \/ (exists front, name = front +:+ ".arpa.").



End Specified.
Export Specified.

(** ** Stand-ins for the libraries, to run the definitions on examples

    The text of a record has the shape of the codec's: owner, TTL, class,
    type and RDATA separated by tabs, with numbers where the codec prints
    mnemonics.  The sort is an insertion sort. *)

Module Reference.

Definition tab : string := String (ascii_of_nat 9) EmptyString.

Definition header_text (h : RR_Header) : string :=
  Name h +:+ tab +:+ decimal (Ttl h) +:+ tab +:+ decimal (Class h) +:+ tab
  +:+ decimal (Rrtype h) +:+ tab.

Definition plain_text (rr : RR) : string :=
  match rr with
  | RR_SOA s =>
      header_text (SOA.Hdr s) +:+ SOA.Ns s +:+ " " +:+ SOA.Mbox s
      +:+ " " +:+ decimal (SOA.Serial s) +:+ " " +:+ decimal (SOA.Refresh s)
      +:+ " " +:+ decimal (SOA.Retry s) +:+ " " +:+ decimal (SOA.Expire s)
      +:+ " " +:+ decimal (SOA.Minttl s)
  | RR_other h content => header_text h +:+ content
  end.

(** [new(dns.Msg)] *)
Definition empty_Msg : Msg.t :=
  Msg.mk 0 false 0 false false false false false false 0 [] [] [] [].

#[export] Instance plain_codec : Codec := {|
  RR_String := plain_text;
  OpcodeToString := decimal;
  RcodeToString := decimal;
  TypeToString := decimal;
  Unpack := fun _ => empty_Msg;
  IsEdns0 := fun _ => None;
  SetEdns0 := fun _ _ m => m;
  SetUDPSize := fun _ _ m => m
|}.

Fixpoint insert_sorted (less : RR -> RR -> bool) (x : RR) (l : list RR) : list RR :=
  match l with
  | [] => [x]
  | y :: rest => if less x y then x :: y :: rest else y :: insert_sorted less x rest
  end.

Fixpoint insertion_sort (less : RR -> RR -> bool) (l : list RR) : list RR :=
  match l with
  | [] => []
  | x :: rest => insert_sorted less x (insertion_sort less rest)
  end.

#[export] Instance insertion : GoSort := {| sort_Sort := insertion_sort |}.

(** The entries of a map visited in the order they are listed in. *)
Definition as_listed : range_order := fun entries => entries.

End Reference.

(** ** Observations on a run of [DnsQuery] *)

Module Observed.

Definition over_TCP (packet : transport * string * Msg.t) : bool :=
  match packet with
  | (TCP, _, _) => true
  | (UDP, _, _) => false
  end.

(** The exchanges started between two states of the wire. *)
Definition exchanges (before after : Wire) : list (transport * string * Msg.t) :=
  skipn (List.length (sent before)) (sent after).

Definition retried_over_TCP (before after : Wire) : bool :=
  existsb over_TCP (exchanges before after).

(** The UDP exchange returned a truncated response: the TC bit is set in
    the response, or the codec reported its truncation error. *)
Definition truncated_response (x : exchanged) : bool :=
  match reply_err x with
  | Some ErrTruncated => true
  | _ => match reply x with
         | Some r => Msg.Truncated r
         | None => false
         end
  end.

(** The UDP exchange produced a response (with no error, or with the
    truncation error only) that is truncated or whose RCODE is not
    NOERROR. *)
Definition unsatisfactory_response (x : exchanged) : bool :=
  match reply_err x, reply x with
  | Some (ErrOther _), _ => false
  | _, None => false
  | _, Some r => negb ((Msg.Rcode r =? RcodeSuccess)%N && negb (Msg.Truncated r))
  end.

End Observed.
Export Observed.

(** ** What is assumed of the libraries

    [sort.Sort] reorders the slice it is given, and a [range] over a map
    visits each entry once. *)

Module Libraries.

Definition sort_permutes (gosort : GoSort) : Prop :=
  forall (less : RR -> RR -> bool) (l : list RR),
    Permutation (sort_Sort less l) l.

Definition visits_each_once (order : range_order) : Prop :=
  forall entries, Permutation (order entries) entries.

(** Driven by [Less], [sort.Sort] leaves no later element less than an
    earlier one. *)
Definition sort_sorts `{codec : Codec} (gosort : GoSort) : Prop :=
  forall l : list RR,
    StronglySorted (fun a b => Less b a = false) (sort_Sort Less l).

End Libraries.
Export Libraries.

(** ** The two loops of [compare_section], seen as functions of the lists *)

Module Views.
Section WithCodec.
Context `{codec : Codec}.

(** The text by which records are matched across the two sides. *)
Definition match_text (rr : RR) : string := ToLower (RR_String rr).

(** Neither a signature nor a root SOA. *)
Definition general (rr : RR) : bool :=
  negb (Rrtype (Header rr) =? TypeRRSIG)%N && negb (is_root_SOA rr).

Definition general_records (l : list RR) : list RR := List.filter general l.

(** The root SOA a loop ends with, starting from [soa]; [None] when a
    type assertion panics on the way. *)
Fixpoint last_root_SOA (l : list RR) (soa : option SOA.t)
    : option (option SOA.t) :=
  match l with
  | [] => Some soa
  | rr :: rest =>
      if is_root_SOA rr then
        s ← assert_SOA rr; last_root_SOA rest (Some s)
      else last_root_SOA rest soa
  end.

(** Matching [iana] off against [yeti_only]: what is left on each side. *)
Fixpoint match_off (iana yeti_only : list RR) : list RR * list RR :=
  match iana with
  | [] => ([], yeti_only)
  | iana_rr :: rest =>
      match remove_match (match_text iana_rr) yeti_only with
      | Some yeti_only' => match_off rest yeti_only'
      | None =>
          let '(iana_only, yeti_only) := match_off rest yeti_only in
          (iana_rr :: iana_only, yeti_only)
      end
  end.

(** Every record of type SOA owned by the root is a [dns.SOA] struct,
    as the codec builds them. *)
Definition root_SOAs_typed (l : list RR) : Prop :=
  Forall (fun rr => is_root_SOA rr = true -> exists soa, rr = RR_SOA soa) l.

(** The text that [Less] compares last. *)
Definition sort_text (rr : RR) : string :=
  if case_insensitive_type (Rrtype (Header rr)) then ToLower (RR_String rr)
  else RR_String rr.

(** The records that [extract_rrset] files under [key], in the order
    they come in. *)
Definition rrset_of (key : string) (rrs : list RR) : list RR :=
  List.filter (fun rr => String.eqb (rrset_key rr) key) (map lower_owner rrs).

(** What one turn of the loop of [compare_additional] adds to the two
    results, if anything. *)
Definition rrset_mismatch (yeti_rr_map : gmap string (list RR))
    (key : string) (iana_rrset : list RR) : option (list RR * list RR) :=
  match iana_rrset with
  | [] => None
  | first :: _ =>
      if (Rrtype (Header first) =? TypeOPT)%N then None
      else if (Rrtype (Header first) =? TypeRRSIG)%N then None
      else
        match yeti_rr_map !! key with
        | Some yeti_rrset =>
            if bool_decide (iana_rrset = yeti_rrset) then None
            else Some (iana_rrset, yeti_rrset)
        | None => None
        end
  end.

(** A map entry exists only for a key that has records. *)
Definition nonempty_rrset (g : list RR) : option (list RR) :=
  match g with
  | [] => None
  | _ => Some g
  end.

(** What the whole loop adds, entry by entry. *)
Definition mismatches (yeti_rr_map : gmap string (list RR))
    (entries : list (string * list RR)) : list (list RR * list RR) :=
  omap (fun e => rrset_mismatch yeti_rr_map e.1 e.2) entries.

(** *** Vocabulary for the differences that the comparison ignores *)

(** Neither an OPT pseudo-record nor a signature. *)
Definition regular (rr : RR) : bool :=
  negb (Rrtype (Header rr) =? TypeOPT)%N
  && negb (Rrtype (Header rr) =? TypeRRSIG)%N.

Definition regular_records (l : list RR) : list RR := List.filter regular l.

Definition root_SOAs (l : list RR) : list RR := List.filter is_root_SOA l.

(** The root SOA of a section that has exactly one. *)
Definition the_root_SOA (l : list RR) : option SOA.t :=
  match root_SOAs l with
  | [RR_SOA soa] => Some soa
  | _ => None
  end.

(** No two distinct records of [l] are level in the order of [Less]. *)
Definition no_ties (l : list RR) : Prop :=
  forall a b, In a l -> In b l -> Less a b = false -> Less b a = false -> a = b.

(** An Answer or Authority section: at most one root SOA, built by the
    codec, and no ties among the records that are matched. *)
Definition tidy_section (l : list RR) : Prop :=
  root_SOAs_typed l
  /\ List.length (root_SOAs l) <= 1
  /\ no_ties (general_records l).

(** An Additional section: no ties among the records that are grouped.
    (They are sorted after [extract_rrset] has lowercased their owners.) *)
Definition tidy_extra (l : list RR) : Prop :=
  no_ties (map lower_owner (regular_records l)).

Definition tidy (m : Msg.t) : Prop :=
  tidy_section (Msg.Answer m) /\ tidy_section (Msg.Ns m)
  /\ tidy_extra (Msg.Extra m).

(** The five fields that [compare_soa] compares. *)
Definition soa_numbers (soa : SOA.t) : N * N * N * N * N :=
  (SOA.Serial soa, SOA.Refresh soa, SOA.Retry soa, SOA.Expire soa,
   SOA.Minttl soa).

(** The root SOAs of the two sides, before and after a change: nothing
    changed, or both sides have one before and after and each keeps its
    five numbers. *)
Definition root_SOAs_alike (iana yeti iana' yeti' : option SOA.t) : Prop :=
  (iana' = iana /\ yeti' = yeti)
  \/ (exists a b a' b',
        iana = Some a /\ yeti = Some b /\ iana' = Some a' /\ yeti' = Some b'
        /\ soa_numbers a' = soa_numbers a /\ soa_numbers b' = soa_numbers b).

(** Two versions of an Answer or Authority section, on both sides: they
    differ by signatures, and by the MNAME and RNAME of root SOAs. *)
Definition sections_alike (iana yeti iana' yeti' : list RR) : Prop :=
  general_records iana' = general_records iana
  /\ general_records yeti' = general_records yeti
  /\ root_SOAs_alike (the_root_SOA iana) (the_root_SOA yeti)
                     (the_root_SOA iana') (the_root_SOA yeti').

(** Two versions of an Additional section: they differ by signatures and
    by OPT records. *)
Definition extras_alike (l l' : list RR) : Prop :=
  regular_records l' = regular_records l.

End WithCodec.

Definition exchange {A : Type} (p : A * A) : A * A := (p.2, p.1).

(** [m] with other records in its three sections. *)
Definition with_sections (m : Msg.t) (answer ns extra : list RR) : Msg.t :=
  Msg.mk (Msg.Id m) (Msg.Response m) (Msg.Opcode m) (Msg.Authoritative m)
    (Msg.Truncated m) (Msg.RecursionDesired m) (Msg.RecursionAvailable m)
    (Msg.AuthenticatedData m) (Msg.CheckingDisabled m) (Msg.Rcode m)
    (Msg.Question m) answer ns extra.

End Views.
Export Views.

(** ** The shape of a report *)

Module ReportShape.

(** Empty, or beginning with two bytes other than ["Sk"]. *)
Definition not_skipping (s : string) : Prop :=
  match s with
  | EmptyString => True
  | String _ EmptyString => False
  | String c1 (String c2 _) => c1 <> "S"%char \/ c2 <> "k"%char
  end.

(** Beginning with two bytes other than ["Sk"]. *)
Definition solid (s : string) : Prop := s <> EmptyString /\ not_skipping s.

End ReportShape.
Export ReportShape.

(** ** Concrete inputs used below *)

Module LessExample.
Import Reference.

Definition host_b : RR :=
  RR_other (mkHeader "b." 1 1 300 4) "192.0.2.1".
Definition ns_a : RR :=
  RR_other (mkHeader "a." TypeNS 1 300 6) "ns.a.".

End LessExample.

Module DnsQueryExample.
Import Reference.

Definition question : Msg.t :=
  Msg.mk 0 false 0 false false true false false false 0
    [Question.mk "nonexistent.example." 1 1] [] [] [].

(** A name error (RCODE 3), complete: the TC bit is clear. *)
Definition nxdomain : Msg.t :=
  Msg.mk 7 true 0 true false true false false false 3
    [Question.mk "nonexistent.example." 1 1] [] [] [].

Definition world : Network :=
  mkNetwork (fun _ => inl 7%N)
            (fun _ _ _ _ => mkExchanged (Some nxdomain) 20 None).

Definition udp_exchange : exchanged :=
  Exchange world 1 UDP "[2001:db8::1]:53" (set_Id 7 question).

Definition wire_after : Wire :=
  snd (fst (DnsQuery world idle "[2001:db8::1]:53" question)).

End DnsQueryExample.

Module SkipExample.

Definition asked (qname : string) : Msg.t :=
  Msg.mk 0 true 0 true false false false false false 0
    [Question.mk qname 16 3] [] [] [].

End SkipExample.

Module CaptureExample.

Definition two_zero_bytes : string := String zero (String zero EmptyString).

(** One whole record: IPv4, UDP, a 4-byte address, and two empty
    messages, each after its 8 bytes of time and its length of zero. *)
Definition stream : string :=
  "ymmv4uADDRsecsnsec" +:+ two_zero_bytes +:+ "SECSNSEC" +:+ two_zero_bytes.

Definition server : target := mkTarget "2001:db8::53" "ns.example.".

Definition silent : Network :=
  mkNetwork (fun _ => inr (ErrOther "no entropy"))
            (fun _ _ _ _ => mkExchanged None 0 (Some (ErrOther "unreachable"))).

End CaptureExample.

Module SectionExample.

Definition host (name : string) (ttl : N) (address : string) : RR :=
  RR_other (mkHeader name 1 1 ttl 4) address.

Definition signature (name : string) (covered : string) : RR :=
  RR_other (mkHeader name TypeRRSIG 1 300 64) covered.

Definition option_record (udp_size : N) (payload : string) : RR :=
  RR_other (mkHeader "." TypeOPT udp_size 0 0) payload.

Definition root_soa (mname rname : string) (serial : N) : RR :=
  RR_SOA (SOA.mk (mkHeader "." TypeSOA 1 86400 64) mname rname
            serial 1800 900 604800 86400).

Definition reference_answer : list RR :=
  [host "www.example." 300 "192.0.2.1"; host "www.example." 300 "192.0.2.2"].
Definition shadow_answer : list RR :=
  [host "WWW.example." 300 "192.0.2.2"; host "www.example." 300 "192.0.2.3"].

Definition reference_extra : list RR :=
  [host "ns.example." 300 "192.0.2.53"; option_record 4096 ""].
Definition shadow_extra : list RR :=
  [host "NS.example." 300 "192.0.2.54"; host "ns2.example." 300 "192.0.2.55"].

(** A referral-like response about [www.example.]. *)
Definition response : Msg.t :=
  Msg.mk 4711 true 0 false false false false false false 0
    [Question.mk "www.example." 1 1]
    reference_answer
    [root_soa "a.root-servers.net." "nstld.verisign-grs.com." 2024010101;
     signature "." "SOA"]
    reference_extra.

End SectionExample.

Module IgnoredExample.
Import SectionExample.

Definition asked : list Question.t := [Question.mk "nonexistent.example." 1 1].

Definition message (answer ns extra : list RR) : Msg.t :=
  Msg.mk 4711 true 0 true false false false false false 3 asked answer ns extra.

(** A name error from each side; the root SOAs differ in MNAME, RNAME and
    serial. *)
Definition reference : Msg.t :=
  message
    [host "www.example." 300 "192.0.2.1"; host "www.example." 300 "192.0.2.2";
     signature "www.example." "A"]
    [root_soa "a.root-servers.net." "nstld.verisign-grs.com." 2024010101;
     signature "." "SOA"]
    [host "ns.example." 300 "192.0.2.53"; option_record 4096 ""].

Definition shadow : Msg.t :=
  message
    [host "www.example." 300 "192.0.2.2"; host "www.example." 300 "192.0.2.1"]
    [root_soa "bii.dns-lab.net." "yeti.biigroup.cn." 2024010102]
    [host "ns.example." 300 "192.0.2.53"; option_record 1232 "cookie"].

(** The same two responses with signatures added or removed, other OPT
    records, and another MNAME and RNAME in the reference root SOA. *)
Definition reference_answer' : list RR :=
  [host "www.example." 300 "192.0.2.1"; host "www.example." 300 "192.0.2.2"].
Definition reference_ns' : list RR :=
  [root_soa "elsewhere." "someone.elsewhere." 2024010101].
Definition reference_extra' : list RR := [host "ns.example." 300 "192.0.2.53"].
Definition shadow_answer' : list RR :=
  [signature "www.example." "A"; host "www.example." 300 "192.0.2.2";
   host "www.example." 300 "192.0.2.1"].
Definition shadow_ns' : list RR :=
  [root_soa "bii.dns-lab.net." "yeti.biigroup.cn." 2024010102; signature "." "SOA"].
Definition shadow_extra' : list RR :=
  [option_record 512 ""; host "ns.example." 300 "192.0.2.53"].

(** An OPT record in the Answer section of one side. *)
Definition stray_option : Msg.t := message [option_record 4096 ""] [] [].
Definition nothing : Msg.t := message [] [] [].

(** A root SOA in the Additional section. *)
Definition soa_in_extra (mname : string) : Msg.t :=
  message [] [] [root_soa mname "nstld.verisign-grs.com." 2024010101].

(** A root SOA in the Authority section. *)
Definition soa_in_ns (mname : string) : Msg.t :=
  message [] [root_soa mname "nstld.verisign-grs.com." 2024010101] [].

End IgnoredExample.

(** ** Vocabulary for the further properties *)

Module Filling.

(** [k] copies of [pad], one after the other. *)
Fixpoint copies (k : nat) (pad : string) : string :=
  match k with
  | O => EmptyString
  | S k' => pad +:+ copies k' pad
  end.

End Filling.
Export Filling.

Module Ordering.
Section WithCodec.
Context `{codec : Codec}.

(** Neither record comes before the other in the order of [Less]. *)
Definition level (a b : RR) : Prop := Less a b = false /\ Less b a = false.

End WithCodec.
End Ordering.
Export Ordering.

Module Asking.
Section WithCodec.
Context `{codec : Codec}.

(** The EDNS0 helpers of the codec work on the OPT record of the
    Additional section and leave the question section alone. *)
Definition keeps_question : Prop :=
  forall msg udpsize,
    Msg.Question (SetOrChangeUDPSize msg udpsize) = Msg.Question msg.

End WithCodec.

(** An exchange with [server] whose query asks for [name]. *)
Definition asks (server name : string) (x : transport * string * Msg.t)
    : Prop :=
  x.1.2 = server
  /\ Question.Name <$> head (Msg.Question x.2) = Some name.

(** The address at which [yeti_query] reaches a target. *)
Definition address_of (tgt : target) : string := "[" +:+ ip tgt +:+ "]:53".

End Asking.
Export Asking.

Module ReplayExample.

(** A task whose captured response is a name error, as is every answer
    of [DnsQueryExample.world]. *)
Definition start : task :=
  mkTask DnsQueryExample.question DnsQueryExample.nxdomain EmptyString
    (Some [0;1;2;3;4;5;6;7]%Z) idle.

Definition other_server : target := mkTarget "2001:db8::54" "ns2.example.".

End ReplayExample.

Module Layout.

(** The fields of one record of the input, as the bytes that hold them. *)
Record record : Type := mkRecord {
  family : ascii;
  protocol : ascii;
  address : string;
  query_sec : string;
  query_nsec : string;
  query_len : string;
  query_raw : string;
  answer_sec : string;
  answer_nsec : string;
  answer_len : string;
  answer_raw : string
}.


(** The record, field after field, followed by [rest]. *)
Definition laid_out (r : record) (rest : string) : string :=
  "ymmv" +:+ String (family r) (String (protocol r) (
    address r +:+ query_sec r +:+ query_nsec r +:+ query_len r
    +:+ query_raw r +:+ answer_sec r +:+ answer_nsec r +:+ answer_len r
    +:+ answer_raw r +:+ rest)).

(** Records one after the other, followed by [rest]. *)
Definition stream (records : list record) (rest : string) : string :=
  fold_right laid_out rest records.

Section WithCodec.
Context `{codec : Codec}.

(** The message that the fields of a record stand for. *)
Definition message (r : record) : ymmv_message :=
  mkMessage (if Ascii.eqb (family r) "4" then 4%N else 6%N)
    (protocol r) (address r)
    (BigEndian (query_sec r) 0, BigEndian (query_nsec r) 0)
    (Unpack (query_raw r))
    (BigEndian (answer_sec r) 0, BigEndian (answer_nsec r) 0)
    (Unpack (answer_raw r)).

End WithCodec.
End Layout.

Module MainEvents.

(** The reports among the receptions, in order. *)
Definition reports (events : list event) : list string :=
  omap (fun e => match e with
                 | from_query_output str => Some str
                 | from_messages _ => None
                 end) events.

(** The messages other than nil among the receptions, in order. *)
Definition messages (events : list event) : list ymmv_message :=
  omap (fun e => match e with
                 | from_messages y => y
                 | from_query_output _ => None
                 end) events.

End MainEvents.

Module LayoutExample.


End LayoutExample.

Module PrintExample.

(** A presentation that shows an address as it is, a message as a fixed
    line, and a time by its seconds. *)
Definition plain_presentation : Presentation := {|
  IP_String := fun addr => addr;
  Msg_String := fun _ => ";; a message";
  Time_String := fun t => decimal t.1
|}.

(** A message whose query time was not recorded. *)
Definition undated : ymmv_message :=
  mkMessage 4 "u" "192.0.2.7" (0%N, 5%N) Reference.empty_Msg
    (1462060800%N, 0%N) Reference.empty_Msg.

End PrintExample.

Module Pending.
Import Resolver.

(** The answers that have arrived and have not been handed out: those
    set aside in [finished_answers] first, then those that the channel
    still holds. *)
Definition pending (resolver : StubResolver) : list answer.t :=
  finished_answers resolver ++ queued (answers resolver).



(** An answer that does not bear [handle]. *)
Definition other_than (handle : Z) (a : answer.t) : Prop :=
  answer.handle a <> handle.

End Pending.

Module ResolverExample.
Import Resolver.

(** The resolver that [Init] returns. *)
Definition fresh : StubResolver := mkStubResolver 0 make_chan make_chan [].


Definition asked : query.t := query.mk 1 "nonexistent.example." 1.

Definition servers : list string := ["2001:db8::1"; "192.0.2.1"].

End ResolverExample.

(** * Properties *)

Example Sum256_abc :
  Hex.Encode (Sha256.Sum256 (bytes_of_string "abc"))
  = "ba7816bf8f01cfea414140de5dae2223b00361a396177a9cb410ff61f20015ad".
Proof. vm_compute. reflexivity. Qed.

Example Sum256_two_blocks :
  Hex.Encode (Sha256.Sum256 (bytes_of_string
    "abcdbcdecdefdefgefghfghighijhijkijkljklmklmnlmnomnopnopq"))
  = "248d6a61d20638b8e5c026930c3e6039a33ce45964ff2167f6ecedd419db06c1".
Proof. vm_compute. reflexivity. Qed.

Example obfuscate_S5 :
  fst (obfuscate_query [] (Some [0;1;2;3;4;5;6;7]%Z) "foo.bar.Example.NET.")
  = "ymmv.2497848ff53d53dc.net.".
Proof. vm_compute. reflexivity. Qed.

(** ** The ordering [rr_sort.Less] *)

Section LessFacts.
Context `{codec : Codec}.

Lemma str_lt_irrefl (s : string) : str_lt s s = false.
Proof.
  unfold str_lt.
  assert (H : String.compare s s = Eq)
    by (apply OrderedTypeEx.String_as_OT.cmp_eq; reflexivity).
  rewrite H. reflexivity.
Qed.

(** The two owner-name tests of [Less] compare a name with itself, so
    neither can fire: the ordering starts at the record type. *)
Lemma Less_starts_at_type (a_i a_j : RR) :
  Less a_i a_j =
    if (Rrtype (Header a_i) <? Rrtype (Header a_j))%N then true
    else if (Rrtype (Header a_j) <? Rrtype (Header a_i))%N then false
    else if (Ttl (Header a_i) <? Ttl (Header a_j))%N then true
    else if (Ttl (Header a_j) <? Ttl (Header a_i))%N then false
    else
      let fold := case_insensitive_type (Rrtype (Header a_i)) in
      str_lt (if fold then ToLower (RR_String a_i) else RR_String a_i)
             (if fold then ToLower (RR_String a_j) else RR_String a_j).
Proof.
  unfold Less. cbv zeta. rewrite str_lt_irrefl.
  repeat match goal with |- context [if ?c then _ else _] => destruct c end;
    reflexivity.
Qed.

End LessFacts.


(** C2 (evaluation at the failing input).  The record owned by [b.] (type
    A) is put before the record owned by [a.] (type NS): [Less] never looks
    at the right record's owner name, and decides on the types.  The
    ordering of the specification compares the owner names and answers the
    opposite. *)
Theorem Less_owner_name_slip :
  let less := Less (codec := Reference.plain_codec) in
  let specified := canonical_less (codec := Reference.plain_codec) in
  less LessExample.host_b LessExample.ns_a = true /\
  specified LessExample.host_b LessExample.ns_a = false /\
  less LessExample.ns_a LessExample.host_b = false /\
  specified LessExample.ns_a LessExample.host_b = true.
Proof. vm_compute. repeat split; reflexivity. Qed.

(** ** The stub query *)


(** C5 (counterexample).  The server answers over UDP with a complete name
    error: no error from the exchange, TC clear.  The query is nevertheless
    sent again over TCP, so "retried exactly when truncated" fails. *)
Lemma DnsQuery_retries_untruncated :
  ~ (retried_over_TCP idle DnsQueryExample.wire_after = true
     <-> truncated_response DnsQueryExample.udp_exchange = true).
Proof.
  intros [Hretry _].
  assert (Hrun : retried_over_TCP idle DnsQueryExample.wire_after = true)
    by (vm_compute; reflexivity).
  apply Hretry in Hrun. vm_compute in Hrun. discriminate Hrun.
Qed.

(** C5 (amended).  Once the query identifier is drawn, [DnsQuery] sends the
    query over UDP; it sends the same query (same identifier) once more,
    over TCP, exactly when the UDP exchange produced a response, with no
    error or with the truncation error only, that is truncated or whose
    RCODE is not NOERROR; any other error of the UDP exchange is returned as
    it is, and nothing more is sent. *)
Theorem DnsQuery_retry_rule (world : Network) (w : Wire) (server : string)
    (query : Msg.t) (id : N) :
  rand_Int world (calls w) = inl id ->
  let q := set_Id (id mod 65536) query in
  let x := Exchange world (S (calls w)) UDP server q in
  let '(out, w', _) := DnsQuery world w server query in
  exchanges w w' =
    (UDP, server, q) :: (if unsatisfactory_response x then [(TCP, server, q)] else [])
  /\ (retried_over_TCP w w' = true <-> unsatisfactory_response x = true)
  /\ (forall text, reply_err x = Some (ErrOther text) ->
        out = Returned None 0 (Some (ErrOther text))
        /\ retried_over_TCP w w' = false).
Proof.
  intros Hid q x.
  assert (Hskip : forall l : list (transport * string * Msg.t),
             skipn (List.length (sent w)) (sent w ++ l) = l).
  { intros l. rewrite skipn_app, Nat.sub_diag, skipn_all. reflexivity. }
  unfold DnsQuery, RandUint16. rewrite Hid. cbn [tick calls sent].
  fold q. fold x.
  unfold unsatisfactory_response, retried_over_TCP, exchanges.
  destruct (reply_err x) as [[|text]|] eqn:Herr;
    destruct (reply x) as [r|] eqn:Hreply; cbn [log_exchange sent calls];
    try destruct ((Msg.Rcode r =? RcodeSuccess)%N && negb (Msg.Truncated r)) eqn:Hok;
    cbn [negb log_exchange sent calls];
    try match goal with
        | |- context [reply_err ?y] => destruct (reply_err y)
        end;
    cbn [log_exchange sent calls];
    rewrite <- ?app_assoc; rewrite ?Hskip; cbn;
    repeat split; try congruence; try discriminate;
    intros text' Heq; inversion Heq; subst; split; reflexivity.
Qed.

Lemma DnsQuery_retry_rule_witness :
  let '(out, w', _) :=
    DnsQuery DnsQueryExample.world idle "[2001:db8::1]:53" DnsQueryExample.question in
  exchanges idle w' =
    [(UDP, "[2001:db8::1]:53", set_Id 7 DnsQueryExample.question);
     (TCP, "[2001:db8::1]:53", set_Id 7 DnsQueryExample.question)].
Proof.
  pose proof (DnsQuery_retry_rule DnsQueryExample.world idle "[2001:db8::1]:53"
                DnsQueryExample.question 7 eq_refl) as H.
  cbv zeta in H.
  destruct (DnsQuery DnsQueryExample.world idle "[2001:db8::1]:53"
              DnsQueryExample.question) as [[out w'] q'].
  destruct H as [H _]. exact H.
Defined.

(** ** The frame reader *)

Section FrameFacts.
Context `{codec : Codec}.

(** C6 (evaluation at the failing inputs).  A stream that ends inside a
    record, at the boundary between two of its fields, makes the next read
    report [io.EOF]; [message_reader] takes that for the end of the input
    and returns as it does at a record boundary ([""]).  Only a stream
    that ends in the middle of a field is fatal. *)
Theorem mid_record_EOF_taken_for_clean_end (fuel : nat) :
  message_reader (S fuel) "" = ([None], ReaderReturns)
  /\ message_reader (S fuel) "ymmv" = ([None], ReaderReturns)
  /\ message_reader (S fuel) "ymmv4" = ([None], ReaderReturns)
  /\ message_reader (S fuel) "ymmv4u" = ([None], ReaderReturns)
  /\ message_reader (S fuel) "ymmv4uADDR" = ([None], ReaderReturns)
  /\ message_reader (S fuel) "ymmv4uADDRsecs" = ([None], ReaderReturns)
  /\ message_reader (S fuel) "ymmv4uADDRsecsnsec" = ([None], ReaderReturns)
  /\ message_reader (S fuel) "ym"
     = ([], log_Fatal "Only read 2 of 4 magic bytes")
  /\ message_reader (S fuel) "ymmv4uAD"
     = ([], log_Fatal "Only read 2 of 4 bytes of address")
  /\ message_reader (S fuel) "ymmv4uADDRse"
     = ([], log_Fatal "unexpected EOF").
Proof. repeat split; reflexivity. Qed.

End FrameFacts.

(** *** The reader needs no more turns than the stream has bytes *)

Section FrameFuel.
Context `{codec : Codec}.

Lemma str_take_drop_length (n : nat) (s : string) :
  (String.length (str_take n s) + String.length (str_drop n s))%nat
  = String.length s.
Proof.
  revert s. induction n as [|n IH]; intros [|c r]; simpl; try reflexivity.
  rewrite IH. reflexivity.
Qed.

Lemma str_drop_length (n : nat) (s : string) :
  String.length (str_drop n s) <= String.length s.
Proof. pose proof (str_take_drop_length n s). lia. Qed.

Lemma never_lengthens_ret {A : Type} (a : A) : never_lengthens (ret a).
Proof. intros stdin a' rest H. injection H as _ <-. reflexivity. Qed.

Lemma never_lengthens_raise {A : Type} (e : io_error) :
  never_lengthens (raise (A := A) e).
Proof. intros stdin a rest H. discriminate H. Qed.

Lemma never_lengthens_bind {A B : Type} (m : reading A) (k : A -> reading B) :
  never_lengthens m -> (forall a, never_lengthens (k a)) ->
  never_lengthens (bind m k).
Proof.
  intros Hm Hk stdin b rest. unfold bind.
  destruct (m stdin) as [[e|a] mid] eqn:E; [discriminate|].
  intros H. apply Hm in E. apply Hk in H. lia.
Qed.

Lemma never_lengthens_Stdin_Read (len : nat) : never_lengthens (Stdin_Read len).
Proof.
  intros stdin a rest. unfold Stdin_Read.
  destruct len as [|len]; [intros H; injection H as _ <-; reflexivity|].
  destruct stdin as [|c r]; [discriminate|].
  intros H.
  assert (E : rest = str_drop (S len) (String c r)) by congruence.
  rewrite E. apply str_drop_length.
Qed.

Lemma never_lengthens_binary_Read (size : nat) :
  never_lengthens (binary_Read size).
Proof.
  intros stdin a rest. unfold binary_Read.
  destruct stdin as [|c r]; [discriminate|].
  destruct (String.length (String c r) <? size)%nat; [discriminate|].
  intros H.
  assert (E : rest = str_drop size (String c r)) by congruence.
  rewrite E. apply str_drop_length.
Qed.

Ltac never_lengthens :=
  repeat first
    [ apply never_lengthens_ret
    | apply never_lengthens_raise
    | apply never_lengthens_Stdin_Read
    | apply never_lengthens_binary_Read
    | apply never_lengthens_bind; [|intros ?]
    | match goal with
      | |- never_lengthens (if ?c then _ else _) => destruct c
      end ].

(** A record that is read takes at least its four bytes of magic. *)
Lemma read_next_message_consumes (stdin rest : string) (y : ymmv_message) :
  read_next_message stdin = (inr y, rest) ->
  String.length rest < String.length stdin.
Proof.
  unfold read_next_message. unfold bind at 1.
  destruct (Stdin_Read 4 stdin) as [[e|magic] mid] eqn:Hmagic; [discriminate|].
  destruct (String.length magic =? 4)%nat eqn:Hlen; simpl; [|discriminate].
  destruct (String.eqb magic "ymmv"); simpl; [|discriminate].
  intros H.
  assert (Hmid : String.length mid + 4 = String.length stdin).
  { apply Nat.eqb_eq in Hlen. unfold Stdin_Read in Hmagic.
    destruct stdin as [|c r]; [discriminate Hmagic|].
    assert (Em : magic = str_take 4 (String c r)) by congruence.
    assert (Ed : mid = str_drop 4 (String c r)) by congruence.
    pose proof (str_take_drop_length 4 (String c r)) as Hsum.
    rewrite <- Em, <- Ed in Hsum. lia. }
  assert (Hrest : String.length rest <= String.length mid).
  { revert H. match goal with |- ?m mid = _ -> _ => generalize mid y rest;
                                change (never_lengthens m) end.
    cbv zeta. never_lengthens. }
  lia.
Qed.

(** With more fuel than bytes, [message_reader] ends as the source does. *)
Lemma message_reader_has_fuel (fuel : nat) (stdin : string) :
  String.length stdin < fuel ->
  snd (message_reader fuel stdin) <> OutOfFuel.
Proof.
  revert stdin. induction fuel as [|fuel IH]; intros stdin Hlen; [lia|].
  simpl. destruct (read_next_message stdin) as [[e|y] rest] eqn:Hread.
  - destruct e; simpl; discriminate.
  - apply read_next_message_consumes in Hread.
    specialize (IH rest ltac:(lia)).
    destruct (message_reader fuel rest) as [sent ending]. exact IH.
Qed.

End FrameFuel.

(** ** The main loop *)

Lemma main_step_in_main_loop (v : vars) (e : event) :
  fst (main_step (in_main_loop, v) e) = in_main_loop.
Proof. destruct e as [[y|]|str]; reflexivity. Qed.

(** C7 (the main loop has no exit).  Whatever is received, in whatever
    order, control is still at the [select] of the main loop afterwards:
    the nil message only ends the [select] it was received in.  The drain
    loop is never entered and [main] never returns. *)
Theorem main_loop_never_left (events : list event) :
  fst (main_run events) = in_main_loop.
Proof.
  unfold main_run.
  assert (H : forall s, fst s = in_main_loop ->
                        fst (fold_left main_step events s) = in_main_loop).
  { induction events as [|e rest IH]; intros [at_ v] Hs; simpl in *.
    - exact Hs.
    - subst at_. apply IH. apply main_step_in_main_loop. }
  apply H. reflexivity.
Qed.

(** The reports that arrive after the end of the input are still printed,
    by the main loop itself. *)
Lemma main_prints_late_reports (y : ymmv_message) (r1 r2 : string) :
  main_run [from_messages (Some y); from_messages (Some y);
            from_messages None; from_query_output r1; from_query_output r2]
  = (in_main_loop, mkVars 0 [r1; r2] [y; y]).
Proof. reflexivity. Qed.

(** ** Suffixes *)

Lemma str_take_drop (n : nat) (s : string) : str_take n s +:+ str_drop n s = s.
Proof.
  revert s. induction n as [|n IH]; intros [|c r]; simpl; try reflexivity.
  f_equal. apply IH.
Qed.

Lemma length_append (a b : string) :
  String.length (a +:+ b) = (String.length a + String.length b)%nat.
Proof. induction a as [|c a IH]; simpl; [reflexivity | f_equal; exact IH]. Qed.

Lemma str_drop_append (a b : string) : str_drop (String.length a) (a +:+ b) = b.
Proof. induction a as [|c a IH]; simpl; [destruct b; reflexivity | exact IH]. Qed.

(** [HasSuffix s suffix] holds exactly when [s] ends in [suffix]. *)
Lemma HasSuffix_spec (s suffix : string) :
  HasSuffix s suffix = true <-> exists front, s = front +:+ suffix.
Proof.
  unfold HasSuffix. split.
  - intros H. apply andb_true_iff in H as [_ H].
    apply String.eqb_eq in H.
    set (k := (String.length s - String.length suffix)%nat) in *.
    exists (str_take k s).
    transitivity (str_take k s +:+ str_drop k s);
      [symmetry; apply str_take_drop | f_equal; exact H].
  - intros [front ->]. rewrite length_append.
    apply andb_true_iff. split.
    + apply Nat.leb_le. lia.
    + replace (String.length front + String.length suffix - String.length suffix)%nat
        with (String.length front) by lia.
      rewrite str_drop_append. apply String.eqb_refl.
Qed.

(** ** The shape of a report: it never begins like the skipping line *)

Section ReportShapeFacts.


Lemma solid_append (a x : string) : solid a -> solid (a +:+ x).
Proof.
  destruct a as [|c1 [|c2 r]]; intros [Hne H]; simpl in *; try contradiction.
  split; [discriminate | exact H].
Qed.

Lemma not_skipping_append (a b : string) :
  not_skipping a -> not_skipping b -> not_skipping (a +:+ b).
Proof.
  destruct a as [|c1 [|c2 r]]; intros Ha Hb; simpl in *; try contradiction; assumption.
Qed.

Lemma not_skipping_solid_append (a b : string) :
  not_skipping a -> solid b -> solid (a +:+ b).
Proof.
  destruct a as [|c1 [|c2 r]]; intros Ha Hb; simpl in *; try contradiction.
  - exact Hb.
  - split; [discriminate | exact Ha].
Qed.

Lemma solid_not_skipping (s : string) : solid s -> not_skipping s.
Proof. intros [_ H]. exact H. Qed.

Lemma not_skipping_line (s : string) :
  not_skipping s -> s <> "Skipping query" +:+ nl.
Proof. intros H ->. simpl in H. destruct H as [H|H]; apply H; reflexivity. Qed.

End ReportShapeFacts.

Ltac solid_literal :=
  split; [discriminate | simpl; (left; discriminate) || (right; discriminate)].

Section ReportShapeOfComparator.
Context `{codec : Codec} `{gosort : GoSort}.

Lemma header_lines_not_skipping (iana yeti : Msg.t) :
  not_skipping (header_lines iana yeti).
Proof.
  unfold header_lines.
  repeat apply not_skipping_append;
    match goal with
    | |- not_skipping (if ?c then _ else _) =>
        destruct c; [exact I | apply solid_not_skipping; solid_literal]
    end.
Qed.

Lemma rr_lines_append (rrs : list RR) (acc : string) :
  rr_lines rrs acc = acc +:+ rr_lines rrs EmptyString.
Proof.
  unfold rr_lines. revert acc.
  induction rrs as [|rr rrs IH]; intros acc; simpl.
  - induction acc as [|c acc IHacc]; simpl; [reflexivity | f_equal; exact IHacc].
  - rewrite IH. rewrite (IH (RR_String rr +:+ nl)).
    induction acc as [|c acc IHacc]; simpl; [reflexivity | f_equal; exact IHacc].
Qed.

Lemma section_lines_not_skipping (t1 t2 : string) (io yo : list RR) (result : string) :
  solid t1 -> solid t2 -> not_skipping result ->
  not_skipping (section_lines t1 t2 io yo result).
Proof.
  intros H1 H2 Hr. unfold section_lines.
  assert (Hio : not_skipping
                  match io with
                  | [] => result
                  | _ :: _ => rr_lines io (result +:+ t1 +:+ nl)
                  end).
  { destruct io as [|rr io]; [exact Hr|].
    rewrite rr_lines_append. apply solid_not_skipping, solid_append.
    apply not_skipping_solid_append; [exact Hr | apply solid_append, H1]. }
  destruct yo as [|rr yo]; [exact Hio|].
  rewrite rr_lines_append. apply solid_not_skipping, solid_append.
  apply not_skipping_solid_append; [exact Hio | apply solid_append, H2].
Qed.

Lemma compare_soa_not_skipping (iana_soa yeti_soa : option SOA.t) :
  not_skipping (compare_soa iana_soa yeti_soa).
Proof.
  unfold compare_soa, soa_line.
  destruct iana_soa as [i|], yeti_soa as [y|];
    try exact I; try (apply solid_not_skipping; solid_literal).
  repeat apply not_skipping_append;
    match goal with
    | |- not_skipping (if ?c then _ else _) =>
        destruct c; [exact I | apply solid_not_skipping; solid_literal]
    end.
Qed.

End ReportShapeOfComparator.

(** ** The skip policy *)

Section SkipPolicy.
Context `{codec : Codec} `{gosort : GoSort}.

Lemma skip_comparison_spec (query : Msg.t) (question : Question.t)
    (rest : list Question.t) :
  Msg.Question query = question :: rest ->
  exists b, skip_comparison query = Some b
            /\ (b = true <-> skip_listed (ToLower (Question.Name question))).
Proof.
  intros Hq. unfold skip_comparison, skip_listed. rewrite Hq. simpl.
  set (name := ToLower (Question.Name question)).
  destruct (String.eqb_spec name ".") as [E1|N1];
    [exists true; split; [reflexivity | tauto]|].
  destruct (String.eqb_spec name "id.server.") as [E2|N2];
    [exists true; split; [reflexivity | tauto]|].
  destruct (String.eqb_spec name "hostname.bind.") as [E3|N3];
    [exists true; split; [reflexivity | tauto]|].
  destruct (HasSuffix name ".root-servers.net.") eqn:S1;
    [exists true; split; [reflexivity|];
     apply HasSuffix_spec in S1; tauto|].
  destruct (HasSuffix name ".arpa.") eqn:S2;
    [exists true; split; [reflexivity|];
     apply HasSuffix_spec in S2; tauto|].
  exists false. split; [reflexivity|].
  split; [discriminate|].
  intros [H|[H|[H|[H|H]]]]; try contradiction.
  - apply HasSuffix_spec in H. congruence.
  - apply HasSuffix_spec in H. congruence.
Qed.

Lemma compare_resp_not_skipping (order : range_order) (iana yeti : Msg.t)
    (report : string) :
  skip_comparison iana = Some false ->
  compare_resp order iana yeti = Some report ->
  not_skipping report.
Proof.
  intros Hskip. unfold compare_resp. rewrite Hskip. simpl.
  destruct (compare_section (sort_Sort Less (Msg.Answer iana)) _)
    as [[[[io1 yo1] is1] ys1]|]; simpl; [|intros HNone; discriminate HNone].
  destruct (compare_section (sort_Sort Less (Msg.Ns iana)) _)
    as [[[[io2 yo2] is2] ys2]|]; simpl; [|intros HNone; discriminate HNone].
  destruct (compare_additional _ _ _) as [[io3 yo3]|]; simpl;
    [|intros HNone; discriminate HNone].
  intros H. injection H as <-.
  apply section_lines_not_skipping; [solid_literal | solid_literal |].
  apply not_skipping_append; [|apply compare_soa_not_skipping].
  apply section_lines_not_skipping; [solid_literal | solid_literal |].
  apply not_skipping_append; [|apply compare_soa_not_skipping].
  apply section_lines_not_skipping; [solid_literal | solid_literal |].
  apply header_lines_not_skipping.
Qed.

(** C9.  For a query whose lowercased question name is on the skip list,
    [compare_resp] returns the skipping line and nothing else (no header
    or section is compared); for every other question name
    [skip_comparison] answers false and the report is not the skipping
    line. *)
Theorem skip_policy (order : range_order) (iana yeti : Msg.t)
    (question : Question.t) (rest : list Question.t) :
  Msg.Question iana = question :: rest ->
  let name := ToLower (Question.Name question) in
  (skip_listed name ->
     skip_comparison iana = Some true
     /\ compare_resp order iana yeti = Some ("Skipping query" +:+ nl))
  /\ (~ skip_listed name ->
     skip_comparison iana = Some false
     /\ compare_resp order iana yeti <> Some ("Skipping query" +:+ nl)).
Proof.
  intros Hq name.
  destruct (skip_comparison_spec iana question rest Hq) as [b [Hb Hiff]].
  fold name in Hiff. split.
  - intros Hlisted. apply Hiff in Hlisted. subst b.
    split; [exact Hb|]. unfold compare_resp. rewrite Hb. reflexivity.
  - intros Hnot. destruct b; [exfalso; apply Hnot, Hiff; reflexivity|].
    split; [exact Hb|]. intros Hrep.
    apply (compare_resp_not_skipping order iana yeti _ Hb) in Hrep.
    exact (not_skipping_line _ Hrep eq_refl).
Qed.

End SkipPolicy.

Lemma skip_policy_witness :
  let cmp := compare_resp (codec := Reference.plain_codec)
               (gosort := Reference.insertion) Reference.as_listed in
  cmp (SkipExample.asked "ID.Server.") (SkipExample.asked "ID.Server.")
    = Some ("Skipping query" +:+ nl)
  /\ cmp (SkipExample.asked "example.com.") (SkipExample.asked "example.com.")
    <> Some ("Skipping query" +:+ nl).
Proof.
  split.
  - apply (skip_policy (codec := Reference.plain_codec)
             (gosort := Reference.insertion) Reference.as_listed
             (SkipExample.asked "ID.Server.") (SkipExample.asked "ID.Server.")
             (Question.mk "ID.Server." 16 3) [] eq_refl).
    right. left. reflexivity.
  - apply (skip_policy (codec := Reference.plain_codec)
             (gosort := Reference.insertion) Reference.as_listed
             (SkipExample.asked "example.com.") (SkipExample.asked "example.com.")
             (Question.mk "example.com." 16 3) [] eq_refl).
    intros [H|[H|[H|[[front H]|[front H]]]]]; try discriminate H.
    + assert (E : HasSuffix "example.com." ".root-servers.net." = true)
        by (apply HasSuffix_spec; exists front; exact H).
      discriminate E.
    + assert (E : HasSuffix "example.com." ".arpa." = true)
        by (apply HasSuffix_spec; exists front; exact H).
      discriminate E.
Defined.

(** ** The empty question section *)

Section EmptyQuestion.
Context `{codec : Codec} `{gosort : GoSort}.

(** C10.  Take a captured record whose query message has an empty question
    section (as when its bytes did not parse).  Replaying it against at
    least one target panics at [iana_query.Question[0]], before anything
    is sent; and [compare_resp], given such a message as its first
    argument, panics in [skip_comparison]. *)
Theorem empty_question_panics (world : Network) (order : range_order)
    (rand_bytes : list Z) (secret : option (list Z)) (w : Wire)
    (clear_names : bool) (edns_size : N) (stdin rest : string)
    (y : ymmv_message) (tgt : target) (targets : list target) :
  read_next_message stdin = (inr y, rest) ->
  Msg.Question (query y) = [] ->
  yeti_query world order rand_bytes secret w (tgt :: targets)
    clear_names edns_size (query y) (answer y) = None
  /\ skip_comparison (query y) = None
  /\ forall yeti, compare_resp order (query y) yeti = None.
Proof.
  intros _ Hq. repeat split.
  - unfold yeti_query. simpl. unfold yeti_query_body. simpl.
    rewrite Hq. reflexivity.
  - unfold skip_comparison. rewrite Hq. reflexivity.
  - intros yeti. unfold compare_resp, skip_comparison. rewrite Hq. reflexivity.
Qed.

End EmptyQuestion.

Lemma empty_question_panics_witness :
  exists y rest,
    read_next_message (codec := Reference.plain_codec) CaptureExample.stream
      = (inr y, rest)
    /\ Msg.Question (query y) = []
    /\ yeti_query (codec := Reference.plain_codec) (gosort := Reference.insertion)
         CaptureExample.silent Reference.as_listed [] None idle
         [CaptureExample.server] false 4093 (query y) (answer y) = None.
Proof.
  eexists. eexists.
  split; [vm_compute; reflexivity|].
  split; [reflexivity|].
  apply (empty_question_panics (codec := Reference.plain_codec)
           (gosort := Reference.insertion) CaptureExample.silent
           Reference.as_listed [] None idle false 4093
           CaptureExample.stream EmptyString _ CaptureExample.server []).
  - vm_compute. reflexivity.
  - reflexivity.
Defined.

(** ** The obfuscator *)

Section ObfuscatorFacts.

Lemma append_assoc (a b c : string) : (a +:+ b) +:+ c = a +:+ (b +:+ c).
Proof. induction a as [|x a IH]; simpl; [reflexivity | f_equal; exact IH]. Qed.

Lemma append_empty_r (a : string) : a +:+ EmptyString = a.
Proof. induction a as [|x a IH]; simpl; [reflexivity | f_equal; exact IH]. Qed.

(** Scanning a dot-free run moves it into the field being built. *)
Lemma fields_from_run (l cur rest : string) :
  dot_free l -> fields_from cur (l +:+ rest) = fields_from (cur +:+ l) rest.
Proof.
  unfold dot_free. revert cur.
  induction l as [|c l IH]; intros cur H; simpl in *.
  - rewrite append_empty_r. reflexivity.
  - apply andb_true_iff in H as [Hc Hl].
    destruct (is_dot c); [discriminate Hc|].
    rewrite (IH _ Hl), append_assoc. reflexivity.
Qed.

Lemma fields_from_label (l rest : string) :
  is_label l ->
  fields_from EmptyString (l +:+ "." +:+ rest) = l :: fields_from EmptyString rest.
Proof.
  intros [Hne Hfree]. rewrite (fields_from_run _ _ _ Hfree). simpl.
  destruct l; [contradiction|reflexivity].
Qed.

Lemma fields_from_last_label (l : string) :
  is_label l -> fields_from EmptyString l = [l].
Proof.
  intros [Hne Hfree].
  rewrite <- (append_empty_r l) at 1.
  rewrite (fields_from_run _ _ _ Hfree). simpl.
  destruct l; [contradiction|reflexivity].
Qed.

Lemma Join_cons2 (a b : string) (rest : list string) (sep : string) :
  Join (a :: b :: rest) sep = a +:+ sep +:+ Join (b :: rest) sep.
Proof. reflexivity. Qed.

(** [FieldsFunc] gives back the labels a name was made of, with or
    without the root dot. *)
Lemma FieldsFunc_dot_Join (labels : list string) :
  Forall is_label labels ->
  FieldsFunc_dot (Join labels ".") = labels
  /\ FieldsFunc_dot (Join labels "." +:+ ".") = labels.
Proof.
  unfold FieldsFunc_dot.
  induction labels as [|l [|l2 rest] IH]; intros H.
  - split; reflexivity.
  - inversion H as [|? ? Hl _]; subst. split.
    + apply fields_from_last_label, Hl.
    + simpl Join. rewrite <- (append_empty_r ".") at 1.
      rewrite (fields_from_label l EmptyString Hl). reflexivity.
  - inversion H as [|? ? Hl Hrest]; subst.
    destruct (IH Hrest) as [IH1 IH2].
    rewrite Join_cons2. split.
    + rewrite (fields_from_label _ _ Hl), IH1. reflexivity.
    + rewrite !append_assoc.
      rewrite (fields_from_label _ _ Hl), IH2. reflexivity.
Qed.

Lemma ToLower_append (a b : string) :
  ToLower (a +:+ b) = ToLower a +:+ ToLower b.
Proof. induction a as [|c a IH]; simpl; [reflexivity | f_equal; exact IH]. Qed.







Lemma substring_Encode (k : nat) (bytes : list Z) :
  substring 0 (2 * k) (Hex.Encode bytes) = Hex.Encode (firstn k bytes).
Proof.
  revert bytes. induction k as [|k IH]; intros bytes.
  - simpl. destruct (Hex.Encode bytes); reflexivity.
  - replace (2 * S k)%nat with (S (S (2 * k))) by lia.
    destruct bytes as [|b bytes]; [reflexivity|].
    simpl firstn. simpl Hex.Encode. simpl substring.
    rewrite <- IH. reflexivity.
Qed.

Lemma last_slice_last (labels : list string) :
  labels <> [] -> last_slice labels = [List.last labels EmptyString].
Proof.
  unfold last_slice. induction labels as [|l [|l2 rest] IH]; intros H.
  - contradiction.
  - reflexivity.
  - replace (List.length (l :: l2 :: rest) - 1)%nat
      with (S (List.length (l2 :: rest) - 1)) by (simpl; lia).
    change (List.last (l :: l2 :: rest) EmptyString)
      with (List.last (l2 :: rest) EmptyString).
    simpl skipn at 1. apply IH. discriminate.
Qed.

(** What the function computes on any string, in terms of the fields that
    [FieldsFunc] finds in it. *)
Lemma obfuscate_query_fields (rand_bytes secret : list Z) (qname : string) :
  let labels := FieldsFunc_dot qname in
  fst (obfuscate_query rand_bytes (Some secret) qname) =
    if (List.length labels <? 2)%nat then ToLower (Join labels ".") +:+ "."
    else "ymmv."
         +:+ Hex.Encode (firstn 8 (Sha256.Sum256
               (secret ++ bytes_of_string (ToLower (Join labels ".")))))
         +:+ "." +:+ ToLower (List.last labels EmptyString) +:+ ".".
Proof.
  intros labels. unfold obfuscate_query. fold labels.
  destruct (Nat.ltb_spec (List.length labels) 2) as [Hlt|Hge]; [reflexivity|].
  cbn [fst]. rewrite (substring_Encode 8).
  rewrite last_slice_last by (destruct labels; [simpl in Hge; lia | discriminate]).
  reflexivity.
Qed.



End ObfuscatorFacts.


(** ** [compare_section] as a function of its two lists *)

Section SectionView.
Context `{codec : Codec}.

Lemma RRSIG_not_root_SOA (rr : RR) :
  (Rrtype (Header rr) =? TypeRRSIG)%N = true -> is_root_SOA rr = false.
Proof.
  unfold is_root_SOA. intros H. apply N.eqb_eq in H. rewrite H. reflexivity.
Qed.

Lemma yeti_loop_view (yeti yeti_only : list RR) (soa : option SOA.t) :
  yeti_loop yeti yeti_only soa =
    soa' ← last_root_SOA yeti soa;
    Some (yeti_only ++ general_records yeti, soa').
Proof.
  revert yeti_only soa.
  induction yeti as [|rr rest IH]; intros yeti_only soa; simpl.
  - rewrite app_nil_r. reflexivity.
  - unfold general. destruct (is_root_SOA rr) eqn:Hroot.
    + rewrite andb_false_r.
      destruct (assert_SOA rr) as [s|]; simpl; [apply IH | reflexivity].
    + rewrite andb_true_r.
      destruct (Rrtype (Header rr) =? TypeRRSIG)%N; simpl.
      * apply IH.
      * rewrite IH, <- app_assoc. reflexivity.
Qed.

Lemma iana_loop_view (iana iana_only yeti_only : list RR) (soa : option SOA.t) :
  iana_loop iana iana_only yeti_only soa =
    soa' ← last_root_SOA iana soa;
    let '(unmatched, remaining) := match_off (general_records iana) yeti_only in
    Some (iana_only ++ unmatched, remaining, soa').
Proof.
  revert iana_only yeti_only soa.
  induction iana as [|rr rest IH]; intros iana_only yeti_only soa; simpl.
  - rewrite app_nil_r. reflexivity.
  - unfold general. destruct (Rrtype (Header rr) =? TypeRRSIG)%N eqn:Hsig; simpl.
    + rewrite (RRSIG_not_root_SOA rr Hsig). apply IH.
    + destruct (is_root_SOA rr) eqn:Hroot; simpl.
      * destruct (assert_SOA rr) as [s|]; simpl; [apply IH | reflexivity].
      * fold (match_text rr).
        destruct (remove_match (match_text rr) yeti_only) as [remaining|].
        -- apply IH.
        -- rewrite IH.
           destruct (last_root_SOA rest soa) as [soa'|]; simpl; [|reflexivity].
           destruct (match_off (general_records rest) yeti_only) as [u l].
           rewrite <- app_assoc. reflexivity.
Qed.

Lemma compare_section_view (iana yeti : list RR) :
  compare_section iana yeti =
    yeti_root_soa ← last_root_SOA yeti None;
    iana_root_soa ← last_root_SOA iana None;
    let '(iana_only, yeti_only) :=
      match_off (general_records iana) (general_records yeti) in
    Some (iana_only, yeti_only, iana_root_soa, yeti_root_soa).
Proof.
  unfold compare_section. rewrite yeti_loop_view.
  destruct (last_root_SOA yeti None) as [ysoa|]; simpl; [|reflexivity].
  rewrite iana_loop_view.
  destruct (last_root_SOA iana None) as [isoa|]; simpl; [|reflexivity].
  destruct (match_off (general_records iana) (general_records yeti)) as [u l].
  reflexivity.
Qed.

(** *** Matching is symmetric *)

Lemma match_off_nil_r (l : list RR) : match_off l [] = (l, []).
Proof. induction l as [|x l IH]; simpl; [reflexivity | rewrite IH; reflexivity]. Qed.

Lemma match_off_unmatched (x : RR) (ys l : list RR) :
  remove_match (match_text x) ys = None ->
  match_off ys (x :: l) =
    let '(a, b) := match_off ys l in (a, x :: b).
Proof.
  revert l. induction ys as [|y ys IH]; intros l Hnone; simpl.
  - reflexivity.
  - simpl in Hnone. fold (match_text y) in Hnone.
    destruct (String.eqb_spec (match_text x) (match_text y)) as [E|N];
      [discriminate Hnone|].
    destruct (remove_match (match_text x) ys) eqn:Hys; [discriminate Hnone|].
    fold (match_text x).
    destruct (String.eqb_spec (match_text y) (match_text x)) as [E'|_];
      [congruence|].
    destruct (remove_match (match_text y) l) as [l'|].
    + apply IH. reflexivity.
    + rewrite (IH l eq_refl).
      destruct (match_off ys l) as [a b]. reflexivity.
Qed.

Lemma match_off_matched (x : RR) (ys ys' l : list RR) :
  remove_match (match_text x) ys = Some ys' ->
  match_off ys (x :: l) = match_off ys' l.
Proof.
  revert ys' l. induction ys as [|y ys IH]; intros ys' l Hsome; simpl in *.
  - discriminate Hsome.
  - fold (match_text y) in Hsome. fold (match_text x).
    destruct (String.eqb_spec (match_text x) (match_text y)) as [E|N].
    + injection Hsome as <-. rewrite E, String.eqb_refl. reflexivity.
    + destruct (remove_match (match_text x) ys) as [ys0|] eqn:Hys;
        [|discriminate Hsome].
      injection Hsome as <-.
      destruct (String.eqb_spec (match_text y) (match_text x)) as [E'|_];
        [congruence|].
      simpl.
      destruct (remove_match (match_text y) l) as [l'|].
      * apply IH. reflexivity.
      * rewrite (IH ys0 l eq_refl). reflexivity.
Qed.

Lemma match_off_swap (iana yeti : list RR) :
  match_off yeti iana =
    let '(iana_only, yeti_only) := match_off iana yeti in (yeti_only, iana_only).
Proof.
  revert yeti. induction iana as [|x iana IH]; intros yeti.
  - rewrite match_off_nil_r. reflexivity.
  - simpl. destruct (remove_match (match_text x) yeti) as [yeti'|] eqn:Hx.
    + rewrite (match_off_matched x yeti yeti' iana Hx). apply IH.
    + rewrite (match_off_unmatched x yeti iana Hx), IH.
      destruct (match_off iana yeti) as [a b]. reflexivity.
Qed.

Lemma match_off_self (l : list RR) : match_off l l = ([], []).
Proof.
  induction l as [|x l IH]; simpl; [reflexivity|].
  fold (match_text x). rewrite String.eqb_refl. exact IH.
Qed.

(** Exchanging the two lists exchanges the two results. *)
Lemma compare_section_swap (iana yeti : list RR) :
  compare_section yeti iana =
    '(iana_only, yeti_only, iana_root_soa, yeti_root_soa) ← compare_section iana yeti;
    Some (yeti_only, iana_only, yeti_root_soa, iana_root_soa).
Proof.
  rewrite !compare_section_view.
  destruct (last_root_SOA iana None) as [isoa|],
           (last_root_SOA yeti None) as [ysoa|]; simpl; try reflexivity.
  rewrite match_off_swap.
  destruct (match_off (general_records iana) (general_records yeti)) as [a b].
  reflexivity.
Qed.

End SectionView.

(** ** The keys of [extract_rrset] *)

Section RrsetKeys.

Lemma uint_of_string_zeros (k : nat) (s : string) :
  NilEmpty.uint_of_string (zeros k +:+ s)
  = option_map (Nat.iter k Decimal.D0) (NilEmpty.uint_of_string s).
Proof.
  induction k as [|k IH]; simpl.
  - destruct (NilEmpty.uint_of_string s); reflexivity.
  - rewrite IH. destruct (NilEmpty.uint_of_string s); reflexivity.
Qed.

Lemma of_uint_leading_zeros (k : nat) (d : Decimal.uint) :
  N.of_uint (Nat.iter k Decimal.D0 d) = N.of_uint d.
Proof. induction k as [|k IH]; simpl; [reflexivity | exact IH]. Qed.

Lemma uint_of_decimal (n : N) :
  exists d, NilEmpty.uint_of_string (decimal n) = Some d /\ N.of_uint d = n.
Proof.
  unfold decimal, NilZero.string_of_uint.
  pose proof (DecimalN.Unsigned.of_to n) as Hn.
  destruct (N.to_uint n) as [|d|d|d|d|d|d|d|d|d|d] eqn:E;
    try (eexists; split; [apply NilEmpty.usu | exact Hn]).
  exists (Decimal.D0 Decimal.Nil). split; [reflexivity | exact Hn].
Qed.

(** A type number can be read back from its six-digit form. *)
Lemma uint_of_decimal06 (n : N) :
  exists d, NilEmpty.uint_of_string (decimal06 n) = Some d /\ N.of_uint d = n.
Proof.
  unfold decimal06. destruct (uint_of_decimal n) as [d [Hd Hn]].
  rewrite uint_of_string_zeros, Hd. simpl.
  eexists. split; [reflexivity|]. rewrite of_uint_leading_zeros. exact Hn.
Qed.

Lemma uint_of_string_tail (c : ascii) (s : string) (d : Decimal.uint) :
  NilEmpty.uint_of_string (String c s) = Some d ->
  c <> "_"%char /\ exists d', NilEmpty.uint_of_string s = Some d'.
Proof.
  simpl. destruct (NilEmpty.uint_of_string s) as [d'|]; [|discriminate].
  intros H. split; [|eexists; reflexivity].
  intros ->. discriminate H.
Qed.

(** Digits end at the first underscore. *)
Lemma digits_underscore_inj (s1 s2 t1 t2 : string) (d1 d2 : Decimal.uint) :
  NilEmpty.uint_of_string s1 = Some d1 ->
  NilEmpty.uint_of_string s2 = Some d2 ->
  s1 +:+ "_" +:+ t1 = s2 +:+ "_" +:+ t2 ->
  s1 = s2 /\ t1 = t2.
Proof.
  revert s2 d1 d2.
  induction s1 as [|c s1 IH]; intros [|c2 s2] d1 d2 H1 H2 E; simpl in E.
  - injection E as E. split; [reflexivity | exact E].
  - apply uint_of_string_tail in H2 as [Hc _]. injection E as Ec _. congruence.
  - apply uint_of_string_tail in H1 as [Hc _]. injection E as Ec _. congruence.
  - apply uint_of_string_tail in H1 as [_ [d1' H1]].
    apply uint_of_string_tail in H2 as [_ [d2' H2]].
    injection E as Ec E.
    destruct (IH s2 d1' d2' H1 H2 E) as [-> ->]. subst. split; reflexivity.
Qed.

(** Records filed under one key have the same type and the same owner. *)
Lemma rrset_key_inj (a b : RR) :
  rrset_key a = rrset_key b ->
  Rrtype (Header a) = Rrtype (Header b) /\ Name (Header a) = Name (Header b).
Proof.
  unfold rrset_key. intros E.
  destruct (uint_of_decimal06 (Rrtype (Header a))) as [da [Ha Na]].
  destruct (uint_of_decimal06 (Rrtype (Header b))) as [db [Hb Nb]].
  destruct (digits_underscore_inj _ _ _ _ _ _ Ha Hb E) as [E1 E2].
  split; [|exact E2].
  rewrite E1 in Ha. rewrite Ha in Hb. injection Hb as <-. congruence.
Qed.

End RrsetKeys.

(** ** [extract_rrset] and [compare_additional] as functions of the lists *)

Section AdditionalView.
Context `{codec : Codec} `{gosort : GoSort}.
Hypothesis Hsort : sort_permutes gosort.

Lemma rrset_of_snoc (key : string) (l : list RR) (rr : RR) :
  rrset_of key (l ++ [rr]) =
    rrset_of key l
    ++ (if String.eqb (rrset_key (lower_owner rr)) key then [lower_owner rr] else []).
Proof. unfold rrset_of. rewrite List.map_app, List.filter_app. reflexivity. Qed.

Lemma rrsets_lookup (l : list RR) (key : string) :
  fold_left add_to_rrsets l ∅ !! key = nonempty_rrset (rrset_of key l).
Proof.
  induction l as [|rr l IH] using rev_ind.
  - simpl. apply lookup_empty.
  - rewrite fold_left_app, rrset_of_snoc. simpl.
    unfold add_to_rrsets at 1. cbv zeta.
    set (rr' := lower_owner rr). set (m := fold_left add_to_rrsets l ∅) in *.
    rewrite lookup_insert.
    destruct (String.eqb_spec (rrset_key rr') key) as [E|N].
    + rewrite decide_True by exact E. subst key. rewrite IH.
      destruct (rrset_of (rrset_key rr') l); reflexivity.
    + rewrite decide_False by exact N. rewrite app_nil_r. exact IH.
Qed.

Lemma extract_rrset_lookup (l : list RR) (key : string) :
  extract_rrset l !! key = sort_Sort Less <$> nonempty_rrset (rrset_of key l).
Proof. unfold extract_rrset. rewrite lookup_fmap, rrsets_lookup. reflexivity. Qed.

(** Every RRset of the map has a first record, filed under the RRset's key. *)
Lemma extract_rrset_head (l : list RR) (key : string) (rrset : list RR) :
  extract_rrset l !! key = Some rrset ->
  exists first rest, rrset = first :: rest /\ rrset_key first = key.
Proof.
  rewrite extract_rrset_lookup. unfold nonempty_rrset.
  destruct (rrset_of key l) as [|x g] eqn:Hg; [discriminate|].
  simpl. intros H. injection H as <-.
  pose proof (Hsort Less (x :: g)) as Hperm.
  destruct (sort_Sort Less (x :: g)) as [|first rest] eqn:Hs.
  - apply Permutation_nil in Hperm. discriminate Hperm.
  - exists first, rest. split; [reflexivity|].
    assert (Hin : In first (x :: g))
      by (apply (Permutation_in _ Hperm); left; reflexivity).
    rewrite <- Hg in Hin. unfold rrset_of in Hin.
    apply filter_In in Hin as [_ Hkey]. apply String.eqb_eq, Hkey.
Qed.

Lemma additional_loop_view (yeti_rr_map : gmap string (list RR))
    (entries : list (string * list RR)) (iana_only yeti_only : list RR) :
  Forall (fun e => e.2 <> []) entries ->
  additional_loop yeti_rr_map entries iana_only yeti_only =
    Some (iana_only ++ concat (mismatches yeti_rr_map entries).*1,
          yeti_only ++ concat (mismatches yeti_rr_map entries).*2).
Proof.
  revert iana_only yeti_only.
  induction entries as [|[key rrset] entries IH]; intros io yo Hne; simpl.
  - rewrite !app_nil_r. reflexivity.
  - inversion Hne as [|? ? Hrrset Hrest]; subst. simpl in Hrrset.
    destruct rrset as [|first rest]; [contradiction|].
    unfold mismatches. simpl. fold (mismatches yeti_rr_map entries).
    destruct (Rrtype (Header first) =? TypeOPT)%N; [apply IH, Hrest|].
    destruct (Rrtype (Header first) =? TypeRRSIG)%N; [apply IH, Hrest|].
    destruct (yeti_rr_map !! key) as [yeti_rrset|]; [|apply IH, Hrest].
    destruct (bool_decide (first :: rest = yeti_rrset)); [apply IH, Hrest|].
    rewrite (IH _ _ Hrest). simpl. rewrite <- !app_assoc. reflexivity.
Qed.

Lemma compare_additional_view (order : range_order) (iana yeti : list RR) :
  visits_each_once order ->
  compare_additional order iana yeti =
    let found := mismatches (extract_rrset yeti)
                   (order (map_to_list (extract_rrset iana))) in
    Some (concat found.*1, concat found.*2).
Proof.
  intros Horder. unfold compare_additional.
  rewrite additional_loop_view; [reflexivity|].
  apply Forall_forall. intros [key rrset] Hin. simpl.
  rewrite (Horder _) in Hin.
  apply elem_of_map_to_list in Hin.
  destruct (extract_rrset_head _ _ _ Hin) as [first [rest [-> _]]].
  discriminate.
Qed.

(** *** Independence of the order of the visit, and symmetry *)

Lemma concat_Permutation {A : Type} (l k : list (list A)) :
  Permutation l k -> Permutation (concat l) (concat k).
Proof.
  induction 1 as [|x l k _ IH|x y l|l k j _ IH1 _ IH2]; simpl.
  - constructor.
  - apply Permutation_app_head, IH.
  - rewrite !app_assoc. apply Permutation_app_tail, Permutation_app_comm.
  - exact (Permutation_trans IH1 IH2).
Qed.

Lemma map_to_list_imap {A B : Type} (f : string -> A -> option B)
    (m : gmap string A) :
  Permutation (omap (fun e => f e.1 e.2) (map_to_list m))
              (map_to_list (map_imap f m)).*2.
Proof.
  induction m as [|i x m Hi IH] using map_ind.
  - rewrite map_imap_empty, !map_to_list_empty. constructor.
  - assert (Hi' : map_imap f m !! i = None)
      by (rewrite map_lookup_imap, Hi; reflexivity).
    rewrite (map_to_list_insert m i x Hi). simpl.
    rewrite map_imap_insert. destruct (f i x) as [y|].
    + rewrite (map_to_list_insert _ i y Hi'). simpl.
      apply Permutation_cons; [reflexivity | exact IH].
    + rewrite (delete_id _ _ Hi'). exact IH.
Qed.

Lemma mismatches_visit (order : range_order) (ym im : gmap string (list RR)) :
  visits_each_once order ->
  Permutation (mismatches ym (order (map_to_list im)))
              (map_to_list (map_imap (rrset_mismatch ym) im)).*2.
Proof.
  intros Horder. unfold mismatches.
  rewrite (Horder (map_to_list im)). apply map_to_list_imap.
Qed.

Definition exchange {A : Type} (p : A * A) : A * A := (p.2, p.1).

Lemma rrset_mismatch_swap (iana yeti : list RR) :
  map_imap (rrset_mismatch (extract_rrset iana)) (extract_rrset yeti)
  = exchange <$> map_imap (rrset_mismatch (extract_rrset yeti)) (extract_rrset iana).
Proof.
  apply map_eq. intros key.
  rewrite lookup_fmap, !map_lookup_imap.
  destruct (extract_rrset yeti !! key) as [yrs|] eqn:Hy,
           (extract_rrset iana !! key) as [irs|] eqn:Hi; simpl.
  - destruct (extract_rrset_head _ _ _ Hy) as [fy [ry [-> Ky]]].
    destruct (extract_rrset_head _ _ _ Hi) as [fi [ri [-> Ki]]].
    assert (Htype : Rrtype (Header fy) = Rrtype (Header fi))
      by (apply rrset_key_inj; congruence).
    unfold rrset_mismatch. rewrite Htype, Hy, Hi.
    destruct (Rrtype (Header fi) =? TypeOPT)%N; [reflexivity|].
    destruct (Rrtype (Header fi) =? TypeRRSIG)%N; [reflexivity|].
    destruct (decide (fi :: ri = fy :: ry)) as [E|N].
    + rewrite (bool_decide_eq_true_2 _ E).
      rewrite (bool_decide_eq_true_2 _ (eq_sym E)). reflexivity.
    + rewrite (bool_decide_eq_false_2 _ N).
      rewrite bool_decide_eq_false_2 by congruence. reflexivity.
  - unfold rrset_mismatch. rewrite Hi.
    destruct yrs as [|fy ry]; [reflexivity|].
    destruct (Rrtype (Header fy) =? TypeOPT)%N; [reflexivity|].
    destruct (Rrtype (Header fy) =? TypeRRSIG)%N; reflexivity.
  - unfold rrset_mismatch. rewrite Hy.
    destruct irs as [|fi ri]; [reflexivity|].
    destruct (Rrtype (Header fi) =? TypeOPT)%N; [reflexivity|].
    destruct (Rrtype (Header fi) =? TypeRRSIG)%N; reflexivity.
  - reflexivity.
Qed.

(** Whatever the order of the two visits, exchanging the two lists
    exchanges the two results, as multisets. *)
Lemma compare_additional_swap (order order' : range_order) (iana yeti : list RR) :
  visits_each_once order -> visits_each_once order' ->
  exists iana_only yeti_only iana_only' yeti_only',
    compare_additional order iana yeti = Some (iana_only, yeti_only)
    /\ compare_additional order' yeti iana = Some (yeti_only', iana_only')
    /\ Permutation iana_only' iana_only
    /\ Permutation yeti_only' yeti_only.
Proof.
  intros Ho Ho'.
  rewrite (compare_additional_view order iana yeti Ho).
  rewrite (compare_additional_view order' yeti iana Ho').
  cbv zeta. do 4 eexists. split; [reflexivity|]. split; [reflexivity|].
  pose proof (mismatches_visit order (extract_rrset yeti) (extract_rrset iana) Ho) as P.
  pose proof (mismatches_visit order' (extract_rrset iana) (extract_rrset yeti) Ho') as P'.
  rewrite rrset_mismatch_swap, map_to_list_fmap in P'.
  set (T := map_to_list (map_imap (rrset_mismatch (extract_rrset yeti))
                                  (extract_rrset iana))) in *.
  assert (E1 : ((prod_map id exchange <$> T).*2).*2 = (T.*2).*1).
  { clear. induction T as [|[k [a b]] T IH]; simpl; [reflexivity | f_equal; exact IH]. }
  assert (E2 : ((prod_map id exchange <$> T).*2).*1 = (T.*2).*2).
  { clear. induction T as [|[k [a b]] T IH]; simpl; [reflexivity | f_equal; exact IH]. }
  split; apply concat_Permutation.
  - rewrite P', E1, P. reflexivity.
  - rewrite P', E2, P. reflexivity.
Qed.

End AdditionalView.

(** ** The stand-in sort reorders *)

Lemma insert_sorted_Permutation (less : RR -> RR -> bool) (x : RR) (l : list RR) :
  Permutation (Reference.insert_sorted less x l) (x :: l).
Proof.
  induction l as [|y l IH]; simpl.
  - reflexivity.
  - destruct (less x y); [reflexivity|].
    rewrite IH. apply perm_swap.
Qed.

Lemma insertion_sort_permutes : sort_permutes Reference.insertion.
Proof.
  intros less l. simpl. induction l as [|x l IH]; simpl.
  - reflexivity.
  - rewrite insert_sorted_Permutation, IH. reflexivity.
Qed.

Lemma as_listed_visits_each_once : visits_each_once Reference.as_listed.
Proof. intros entries. reflexivity. Qed.

(** ** Symmetry of the section comparisons *)

Section Symmetry.
Context `{codec : Codec} `{gosort : GoSort}.

(** C8.  With the reference and shadow lists exchanged, the
    Answer/Authority comparison returns its two lists (and the two root
    SOAs) exchanged, and the Additional comparison returns its two lists
    exchanged as multisets, whatever the order in which the two runs
    visit their maps; so the keys of the records reported are the same. *)
Theorem section_comparison_symmetric (order order' : range_order)
    (iana yeti : list RR) :
  sort_permutes gosort ->
  visits_each_once order -> visits_each_once order' ->
  compare_section yeti iana =
    ('(iana_only, yeti_only, iana_root_soa, yeti_root_soa) ← compare_section iana yeti;
     Some (yeti_only, iana_only, yeti_root_soa, iana_root_soa))
  /\ exists iana_only yeti_only iana_only' yeti_only',
       compare_additional order iana yeti = Some (iana_only, yeti_only)
       /\ compare_additional order' yeti iana = Some (yeti_only', iana_only')
       /\ Permutation iana_only' iana_only
       /\ Permutation yeti_only' yeti_only
       /\ forall key,
            (exists rr, In rr (iana_only ++ yeti_only) /\ rrset_key rr = key)
            <-> (exists rr, In rr (yeti_only' ++ iana_only') /\ rrset_key rr = key).
Proof.
  intros Hsort Ho Ho'. split; [apply compare_section_swap|].
  destruct (compare_additional_swap Hsort order order' iana yeti Ho Ho')
    as (io & yo & io' & yo' & H1 & H2 & P1 & P2).
  exists io, yo, io', yo'. repeat split; try assumption.
  - intros [rr [Hin Hkey]]. exists rr. split; [|exact Hkey].
    apply in_app_or in Hin. apply in_or_app.
    destruct Hin as [Hin|Hin]; [right | left];
      eapply Permutation_in; [symmetry; eassumption | exact Hin
                             | symmetry; eassumption | exact Hin].
  - intros [rr [Hin Hkey]]. exists rr. split; [|exact Hkey].
    apply in_app_or in Hin. apply in_or_app.
    destruct Hin as [Hin|Hin]; [right | left];
      eapply Permutation_in; [eassumption | exact Hin
                             | eassumption | exact Hin].
Qed.

End Symmetry.

Lemma section_comparison_symmetric_witness :
  let cs := compare_section (codec := Reference.plain_codec) in
  let ca := compare_additional (codec := Reference.plain_codec)
              (gosort := Reference.insertion) Reference.as_listed in
  cs SectionExample.shadow_answer SectionExample.reference_answer =
    ('(iana_only, yeti_only, iana_root_soa, yeti_root_soa) ←
       cs SectionExample.reference_answer SectionExample.shadow_answer;
     Some (yeti_only, iana_only, yeti_root_soa, iana_root_soa))
  /\ exists iana_only yeti_only iana_only' yeti_only',
       ca SectionExample.reference_extra SectionExample.shadow_extra
         = Some (iana_only, yeti_only)
       /\ ca SectionExample.shadow_extra SectionExample.reference_extra
         = Some (yeti_only', iana_only')
       /\ Permutation iana_only' iana_only
       /\ Permutation yeti_only' yeti_only
       /\ forall key,
            (exists rr, In rr (iana_only ++ yeti_only) /\ rrset_key rr = key)
            <-> (exists rr, In rr (yeti_only' ++ iana_only') /\ rrset_key rr = key).
Proof.
  split.
  - exact (proj1 (section_comparison_symmetric (codec := Reference.plain_codec)
                    (gosort := Reference.insertion)
                    Reference.as_listed Reference.as_listed
                    SectionExample.reference_answer SectionExample.shadow_answer
                    insertion_sort_permutes as_listed_visits_each_once
                    as_listed_visits_each_once)).
  - exact (proj2 (section_comparison_symmetric (codec := Reference.plain_codec)
                    (gosort := Reference.insertion)
                    Reference.as_listed Reference.as_listed
                    SectionExample.reference_extra SectionExample.shadow_extra
                    insertion_sort_permutes as_listed_visits_each_once
                    as_listed_visits_each_once)).
Defined.

(** ** A response compared with itself *)

Section Reflexivity.
Context `{codec : Codec} `{gosort : GoSort}.

Lemma header_lines_same (x : Msg.t) : header_lines x x = EmptyString.
Proof.
  unfold header_lines. rewrite !Bool.eqb_reflx, !N.eqb_refl. reflexivity.
Qed.

Lemma compare_soa_same (soa : option SOA.t) : compare_soa soa soa = EmptyString.
Proof.
  destruct soa as [s|]; [|reflexivity].
  unfold compare_soa, soa_line. rewrite !N.eqb_refl. reflexivity.
Qed.

Lemma last_root_SOA_typed (l : list RR) (soa : option SOA.t) :
  root_SOAs_typed l -> exists soa', last_root_SOA l soa = Some soa'.
Proof.
  unfold root_SOAs_typed. revert soa.
  induction l as [|rr l IH]; intros soa H; simpl.
  - eexists. reflexivity.
  - inversion H as [|? ? Hrr Hl]; subst.
    destruct (is_root_SOA rr) eqn:Hroot; [|apply IH, Hl].
    destruct (Hrr eq_refl) as [s ->]. simpl. apply IH, Hl.
Qed.

Lemma compare_section_same (l : list RR) :
  root_SOAs_typed l ->
  exists soa, compare_section l l = Some ([], [], soa, soa).
Proof.
  intros H. destruct (last_root_SOA_typed l None H) as [soa Hsoa].
  exists soa. rewrite compare_section_view, Hsoa. simpl.
  rewrite match_off_self. reflexivity.
Qed.

Lemma mismatches_same (m : gmap string (list RR))
    (entries : list (string * list RR)) :
  (forall e, e ∈ entries -> m !! e.1 = Some e.2) ->
  mismatches m entries = [].
Proof.
  unfold mismatches. induction entries as [|[key rrset] entries IH]; intros H.
  - reflexivity.
  - assert (Hk : m !! key = Some rrset) by (apply (H (key, rrset)); left).
    assert (Hnone : rrset_mismatch m key rrset = None).
    { unfold rrset_mismatch. rewrite Hk.
      destruct rrset as [|first rest]; [reflexivity|].
      rewrite bool_decide_eq_true_2 by reflexivity.
      destruct (Rrtype (Header first) =? TypeOPT)%N; [reflexivity|].
      destruct (Rrtype (Header first) =? TypeRRSIG)%N; reflexivity. }
    change (match rrset_mismatch m key rrset with
            | Some y => y :: omap (fun e => rrset_mismatch m e.1 e.2) entries
            | None => omap (fun e => rrset_mismatch m e.1 e.2) entries
            end = []).
    rewrite Hnone. apply IH. intros e He. apply H. right. exact He.
Qed.

Lemma compare_additional_same (order : range_order) (l : list RR) :
  sort_permutes gosort -> visits_each_once order ->
  compare_additional order l l = Some ([], []).
Proof.
  intros Hsort Horder.
  rewrite (compare_additional_view Hsort order l l Horder). cbv zeta.
  rewrite mismatches_same; [reflexivity|].
  intros [key rrset] Hin. rewrite (Horder _) in Hin.
  apply elem_of_map_to_list in Hin. exact Hin.
Qed.

Lemma root_SOAs_typed_sorted (less : RR -> RR -> bool) (l : list RR) :
  sort_permutes gosort -> root_SOAs_typed l ->
  root_SOAs_typed (sort_Sort less l).
Proof.
  intros Hsort H. unfold root_SOAs_typed in *.
  rewrite (Hsort less l). exact H.
Qed.

(** C3.  A response that is not on the skip list, compared with a copy of
    itself, gives the empty report. *)
Theorem compare_resp_same (order : range_order) (x : Msg.t) :
  sort_permutes gosort -> visits_each_once order ->
  root_SOAs_typed (Msg.Answer x) -> root_SOAs_typed (Msg.Ns x) ->
  skip_comparison x = Some false ->
  compare_resp order x x = Some EmptyString.
Proof.
  intros Hsort Horder Han Hns Hskip.
  unfold compare_resp. rewrite Hskip. simpl.
  destruct (compare_section_same _ (root_SOAs_typed_sorted Less _ Hsort Han))
    as [soa1 ->]. simpl.
  destruct (compare_section_same _ (root_SOAs_typed_sorted Less _ Hsort Hns))
    as [soa2 ->]. simpl.
  rewrite (compare_additional_same order _ Hsort Horder). simpl.
  unfold section_lines. rewrite header_lines_same, !compare_soa_same.
  reflexivity.
Qed.

End Reflexivity.

Lemma compare_resp_same_witness :
  compare_resp (codec := Reference.plain_codec) (gosort := Reference.insertion)
    Reference.as_listed SectionExample.response SectionExample.response
  = Some EmptyString.
Proof.
  apply (compare_resp_same (codec := Reference.plain_codec)
           (gosort := Reference.insertion) Reference.as_listed
           SectionExample.response insertion_sort_permutes
           as_listed_visits_each_once).
  - unfold root_SOAs_typed. simpl.
    repeat match goal with |- Forall _ _ => constructor end;
      intros H; try discriminate H; eexists; reflexivity.
  - unfold root_SOAs_typed. simpl.
    repeat match goal with |- Forall _ _ => constructor end;
      intros H; try discriminate H; eexists; reflexivity.
  - reflexivity.
Defined.

(** ** [Less] is a strict weak order *)

Section LessOrder.
Context `{codec : Codec}.

Lemma str_lt_asym (a b : string) : str_lt a b = true -> str_lt b a = false.
Proof.
  unfold str_lt. rewrite (String.compare_antisym b a).
  destruct (String.compare a b); simpl; congruence.
Qed.

Lemma str_lt_trans (a b c : string) :
  str_lt a b = true -> str_lt b c = true -> str_lt a c = true.
Proof.
  unfold str_lt. intros Hab Hbc.
  assert (Lab : OrderedTypeEx.String_as_OT.lt a b).
  { apply OrderedTypeEx.String_as_OT.cmp_lt.
    unfold OrderedTypeEx.String_as_OT.cmp.
    destruct (String.compare a b); congruence. }
  assert (Lbc : OrderedTypeEx.String_as_OT.lt b c).
  { apply OrderedTypeEx.String_as_OT.cmp_lt.
    unfold OrderedTypeEx.String_as_OT.cmp.
    destruct (String.compare b c); congruence. }
  pose proof (OrderedTypeEx.String_as_OT.lt_trans _ _ _ Lab Lbc) as Lac.
  apply OrderedTypeEx.String_as_OT.cmp_lt in Lac.
  unfold OrderedTypeEx.String_as_OT.cmp in Lac. rewrite Lac. reflexivity.
Qed.

(** [Less] orders by type, then TTL, then text. *)
Lemma Less_true_iff (a b : RR) :
  Less a b = true <->
    (Rrtype (Header a) < Rrtype (Header b))%N
    \/ (Rrtype (Header a) = Rrtype (Header b)
        /\ ((Ttl (Header a) < Ttl (Header b))%N
            \/ (Ttl (Header a) = Ttl (Header b)
                /\ str_lt (sort_text a) (sort_text b) = true))).
Proof.
  rewrite Less_starts_at_type. unfold sort_text. cbv zeta.
  destruct (N.ltb_spec (Rrtype (Header a)) (Rrtype (Header b))) as [Ht|Ht];
    [split; [left; exact Ht | reflexivity]|].
  destruct (N.ltb_spec (Rrtype (Header b)) (Rrtype (Header a))) as [Ht'|Ht'];
    [split; [discriminate | intros [H|[H _]]; lia]|].
  assert (Et : Rrtype (Header a) = Rrtype (Header b)) by lia.
  rewrite <- Et.
  destruct (N.ltb_spec (Ttl (Header a)) (Ttl (Header b))) as [Hl|Hl];
    [split; [right; split; [reflexivity | left; exact Hl] | reflexivity]|].
  destruct (N.ltb_spec (Ttl (Header b)) (Ttl (Header a))) as [Hl'|Hl'];
    [split; [discriminate | intros [H|[_ [H|[H _]]]]; lia]|].
  split.
  - intros H. right. split; [reflexivity|]. right. split; [lia | exact H].
  - intros [H|[_ [H|[_ H]]]]; [lia | lia | exact H].
Qed.

Lemma Less_asym (a b : RR) : Less a b = true -> Less b a = false.
Proof.
  intros Hab. destruct (Less b a) eqn:Hba; [exfalso | reflexivity].
  apply Less_true_iff in Hab, Hba.
  destruct Hab as [H|[E [H|[E' H]]]], Hba as [K|[F [K|[F' K]]]]; try lia.
  apply str_lt_asym in H. congruence.
Qed.

Lemma Less_trans (a b c : RR) :
  Less a b = true -> Less b c = true -> Less a c = true.
Proof.
  intros Hab Hbc. apply Less_true_iff in Hab, Hbc. apply Less_true_iff.
  destruct Hab as [H|[E [H|[E' H]]]], Hbc as [K|[F [K|[F' K]]]];
    try (left; lia); right; (split; [lia|]); try (left; lia).
  right. split; [lia|]. exact (str_lt_trans _ _ _ H K).
Qed.

(** The stand-in sort sorts. *)
Lemma insert_sorted_sorts (x : RR) (l : list RR) :
  StronglySorted (fun a b => Less b a = false) l ->
  StronglySorted (fun a b => Less b a = false) (Reference.insert_sorted Less x l).
Proof.
  induction l as [|y l IH]; intros Hs; simpl.
  - repeat constructor.
  - apply StronglySorted_inv in Hs as [Hl Hy].
    destruct (Less x y) eqn:Hxy.
    + constructor; [constructor; assumption|].
      constructor; [apply Less_asym, Hxy|].
      apply List.Forall_forall. intros z Hz.
      pose proof (proj1 (List.Forall_forall _ _) Hy z Hz) as Hzy. simpl in Hzy.
      destruct (Less z x) eqn:Hzx; [|reflexivity].
      rewrite (Less_trans _ _ _ Hzx Hxy) in Hzy. discriminate Hzy.
    + constructor; [apply IH, Hl|].
      apply List.Forall_forall. intros z Hz.
      apply (Permutation_in _ (insert_sorted_Permutation Less x l)) in Hz.
      destruct Hz as [<-|Hz]; [exact Hxy|].
      exact (proj1 (List.Forall_forall _ _) Hy z Hz).
Qed.

Lemma insertion_sort_sorts : sort_sorts Reference.insertion.
Proof.
  intros l. simpl. induction l as [|x l IH]; simpl.
  - constructor.
  - apply insert_sorted_sorts, IH.
Qed.

End LessOrder.

(** ** Sorted lists without ties *)

Section SortedUnique.
Context {A : Type} (le : A -> A -> Prop).

(** Two sorted arrangements of the same elements are the same list, when
    elements that are level both ways are equal. *)
Lemma sorted_Permutation_eq (l1 l2 : list A) :
  StronglySorted le l1 -> StronglySorted le l2 -> Permutation l1 l2 ->
  (forall a b, In a l1 -> In b l1 -> le a b -> le b a -> a = b) ->
  l1 = l2.
Proof.
  revert l2. induction l1 as [|a l1 IH]; intros l2 S1 S2 P Hanti.
  - symmetry. apply Permutation_nil, P.
  - destruct l2 as [|b l2];
      [apply Permutation_sym, Permutation_nil in P; discriminate P|].
    apply StronglySorted_inv in S1 as [S1 F1].
    apply StronglySorted_inv in S2 as [S2 F2].
    assert (Hab : a = b).
    { assert (Ha : In a (b :: l2)) by (apply (Permutation_in _ P); left; reflexivity).
      assert (Hb : In b (a :: l1))
        by (apply (Permutation_in _ (Permutation_sym P)); left; reflexivity).
      destruct Ha as [Ha|Ha]; [symmetry; exact Ha|].
      destruct Hb as [Hb|Hb]; [exact Hb|].
      apply Hanti.
      - left; reflexivity.
      - right; exact Hb.
      - exact (proj1 (List.Forall_forall _ _) F1 b Hb).
      - exact (proj1 (List.Forall_forall _ _) F2 a Ha). }
    subst b. f_equal. apply IH; try assumption.
    + exact (Permutation_cons_inv P).
    + intros x y Hx Hy. apply Hanti; right; assumption.
Qed.

Lemma StronglySorted_filter (p : A -> bool) (l : list A) :
  StronglySorted le l -> StronglySorted le (List.filter p l).
Proof.
  induction 1 as [|a l _ IH F]; simpl; [constructor|].
  destruct (p a); [|exact IH].
  constructor; [exact IH|].
  apply List.Forall_forall. intros x Hx. apply filter_In in Hx as [Hx _].
  exact (proj1 (List.Forall_forall _ _) F x Hx).
Qed.

Lemma Permutation_filter (p : A -> bool) (l k : list A) :
  Permutation l k -> Permutation (List.filter p l) (List.filter p k).
Proof.
  induction 1 as [|x l k _ IH|x y l|l k j _ IH1 _ IH2]; simpl.
  - constructor.
  - destruct (p x); [constructor|]; exact IH.
  - destruct (p x), (p y); try reflexivity. apply perm_swap.
  - exact (Permutation_trans IH1 IH2).
Qed.

End SortedUnique.

(** ** Differences that the comparison ignores: Answer and Authority *)

Section IgnoredInSections.
Context `{codec : Codec} `{gosort : GoSort}.
Hypothesis Hperm : sort_permutes gosort.
Hypothesis Hsorted : sort_sorts gosort.

(** Once sorted, the matched records depend on the matched records only. *)
Lemma general_records_sorted (l l' : list RR) :
  general_records l' = general_records l ->
  no_ties (general_records l) ->
  general_records (sort_Sort Less l') = general_records (sort_Sort Less l).
Proof.
  intros Hsame Hties. unfold general_records in *.
  assert (P' : Permutation (List.filter general (sort_Sort Less l'))
                           (List.filter general l))
    by (rewrite <- Hsame; apply Permutation_filter, Hperm).
  assert (P : Permutation (List.filter general (sort_Sort Less l))
                          (List.filter general l))
    by (apply Permutation_filter, Hperm).
  apply (sorted_Permutation_eq (fun a b => Less b a = false)).
  - apply StronglySorted_filter, Hsorted.
  - apply StronglySorted_filter, Hsorted.
  - rewrite P', P. reflexivity.
  - intros a b Ha Hb Hba Hab.
    apply Hties; [exact (Permutation_in _ P' Ha) | exact (Permutation_in _ P' Hb)
                 | exact Hab | exact Hba].
Qed.

Lemma last_root_SOA_root_SOAs (l : list RR) (soa : option SOA.t) :
  last_root_SOA l soa = last_root_SOA (root_SOAs l) soa.
Proof.
  unfold root_SOAs. revert soa. induction l as [|rr l IH]; intros soa; simpl.
  - reflexivity.
  - destruct (is_root_SOA rr) eqn:Hroot; simpl; [rewrite Hroot|apply IH].
    destruct (assert_SOA rr) as [s|]; simpl; [apply IH | reflexivity].
Qed.

Lemma last_root_SOA_tidy (l : list RR) :
  tidy_section l ->
  last_root_SOA (sort_Sort Less l) None = Some (the_root_SOA l).
Proof.
  intros (Htyped & Hone & _).
  rewrite last_root_SOA_root_SOAs. unfold the_root_SOA.
  assert (P : Permutation (root_SOAs l) (root_SOAs (sort_Sort Less l)))
    by (apply Permutation_sym, Permutation_filter, Hperm).
  destruct (root_SOAs l) as [|r [|r2 rest]] eqn:Hroots.
  - apply Permutation_nil in P. rewrite P. reflexivity.
  - apply Permutation_length_1_inv in P. rewrite P.
    assert (Hin : In r (root_SOAs l)) by (rewrite Hroots; left; reflexivity).
    apply filter_In in Hin as [Hin Hroot].
    destruct (proj1 (List.Forall_forall _ _) Htyped r Hin Hroot) as [s ->].
    simpl. rewrite Hroot. reflexivity.
  - simpl in Hone. lia.
Qed.

Lemma root_SOAs_typed_sort (l : list RR) :
  root_SOAs_typed l -> root_SOAs_typed (sort_Sort Less l).
Proof. unfold root_SOAs_typed. rewrite (Hperm Less l). trivial. Qed.

(** A section comparison after sorting, for tidy sections. *)
Lemma compare_section_tidy (iana yeti : list RR) :
  tidy_section iana -> tidy_section yeti ->
  compare_section (sort_Sort Less iana) (sort_Sort Less yeti) =
    let '(iana_only, yeti_only) :=
      match_off (general_records (sort_Sort Less iana))
                (general_records (sort_Sort Less yeti)) in
    Some (iana_only, yeti_only, the_root_SOA iana, the_root_SOA yeti).
Proof.
  intros Hi Hy. rewrite compare_section_view.
  rewrite (last_root_SOA_tidy yeti Hy), (last_root_SOA_tidy iana Hi).
  reflexivity.
Qed.

(** When both sides have a root SOA, only the five numbers count. *)
Lemma compare_soa_numbers (a b a' b' : SOA.t) :
  soa_numbers a' = soa_numbers a -> soa_numbers b' = soa_numbers b ->
  compare_soa (Some a') (Some b') = compare_soa (Some a) (Some b).
Proof.
  unfold soa_numbers, compare_soa. intros Ha Hb.
  injection Ha as -> -> -> -> ->. injection Hb as -> -> -> -> ->. reflexivity.
Qed.

Lemma compare_soa_alike (iana yeti iana' yeti' : option SOA.t) :
  root_SOAs_alike iana yeti iana' yeti' ->
  compare_soa iana' yeti' = compare_soa iana yeti.
Proof.
  intros [[-> ->]|(a & b & a' & b' & -> & -> & -> & -> & Ha & Hb)].
  - reflexivity.
  - apply compare_soa_numbers; assumption.
Qed.

Lemma compare_soa_same_numbers (a b : SOA.t) :
  soa_numbers a = soa_numbers b -> compare_soa (Some a) (Some b) = EmptyString.
Proof.
  unfold soa_numbers, compare_soa, soa_line. intros H.
  injection H as -> -> -> -> ->. rewrite !N.eqb_refl. reflexivity.
Qed.

(** What a section adds to the report is the same for two versions of the
    section that are alike. *)
Lemma section_report_alike (iana yeti iana' yeti' : list RR) :
  tidy_section iana -> tidy_section yeti ->
  tidy_section iana' -> tidy_section yeti' ->
  sections_alike iana yeti iana' yeti' ->
  exists iana_only yeti_only soa_i soa_y soa_i' soa_y',
    compare_section (sort_Sort Less iana) (sort_Sort Less yeti)
      = Some (iana_only, yeti_only, soa_i, soa_y)
    /\ compare_section (sort_Sort Less iana') (sort_Sort Less yeti')
      = Some (iana_only, yeti_only, soa_i', soa_y')
    /\ compare_soa soa_i' soa_y' = compare_soa soa_i soa_y.
Proof.
  intros Ti Ty Ti' Ty' (Gi & Gy & Hsoa).
  rewrite (compare_section_tidy iana yeti Ti Ty).
  rewrite (compare_section_tidy iana' yeti' Ti' Ty').
  rewrite (general_records_sorted iana iana' Gi (proj2 (proj2 Ti))).
  rewrite (general_records_sorted yeti yeti' Gy (proj2 (proj2 Ty))).
  destruct (match_off _ _) as [io yo].
  exists io, yo, (the_root_SOA iana), (the_root_SOA yeti),
         (the_root_SOA iana'), (the_root_SOA yeti').
  split; [reflexivity|]. split; [reflexivity|].
  apply compare_soa_alike, Hsoa.
Qed.

End IgnoredInSections.

(** ** Differences that the comparison ignores: Additional *)

Section IgnoredInAdditional.
Context `{codec : Codec} `{gosort : GoSort}.
Hypothesis Hperm : sort_permutes gosort.
Hypothesis Hsorted : sort_sorts gosort.

Lemma Rrtype_lower_owner (rr : RR) :
  Rrtype (Header (lower_owner rr)) = Rrtype (Header rr).
Proof. destruct rr; reflexivity. Qed.

Lemma regular_lower_owner (rr : RR) : regular (lower_owner rr) = regular rr.
Proof. unfold regular. rewrite Rrtype_lower_owner. reflexivity. Qed.

Lemma rrset_of_regular (key : string) (l : list RR) :
  rrset_of key (regular_records l) = List.filter regular (rrset_of key l).
Proof.
  unfold rrset_of, regular_records. induction l as [|rr l IH]; simpl.
  - reflexivity.
  - destruct (regular rr) eqn:Hreg; simpl;
      destruct (String.eqb (rrset_key (lower_owner rr)) key); simpl;
      rewrite ?regular_lower_owner, ?Hreg, IH; reflexivity.
Qed.

Lemma rrset_of_Permutation (key : string) (l l' : list RR) :
  Permutation l l' -> Permutation (rrset_of key l) (rrset_of key l').
Proof.
  intros P. unfold rrset_of. apply Permutation_filter, Permutation_map, P.
Qed.

Lemma rrset_of_key (key : string) (l : list RR) (rr : RR) :
  In rr (rrset_of key l) -> rrset_key rr = key.
Proof.
  unfold rrset_of. intros H. apply filter_In in H as [_ H].
  apply String.eqb_eq, H.
Qed.

Lemma regular_of_key (a b : RR) :
  rrset_key a = rrset_key b -> regular a = regular b.
Proof.
  intros H. apply rrset_key_inj in H as [H _]. unfold regular. rewrite H. reflexivity.
Qed.

(** Under the key of a regular record, only regular records are filed. *)
Lemma rrset_of_all_regular (key : string) (l : list RR) (first : RR) :
  regular first = true -> rrset_key first = key ->
  rrset_of key l = rrset_of key (regular_records l).
Proof.
  intros Hreg Hkey. rewrite rrset_of_regular. symmetry.
  apply forallb_filter_id, forallb_forall. intros rr Hin.
  rewrite <- Hreg. apply regular_of_key.
  rewrite (rrset_of_key _ _ _ Hin). symmetry. exact Hkey.
Qed.

(** The RRset found under the key of a regular record is the same for two
    versions of an Additional section that are alike. *)
Lemma extract_rrset_alike (l l' : list RR) (key : string) (first : RR) :
  regular_records l' = regular_records l ->
  no_ties (map lower_owner (regular_records l)) ->
  regular first = true -> rrset_key first = key ->
  extract_rrset (sort_Sort Less l') !! key = extract_rrset (sort_Sort Less l) !! key.
Proof.
  intros Hsame Hties Hreg Hkey. rewrite !extract_rrset_lookup.
  set (R0 := rrset_of key (regular_records l)).
  assert (P : Permutation (rrset_of key (sort_Sort Less l)) R0).
  { rewrite (rrset_of_Permutation key _ _ (Hperm Less l)).
    rewrite (rrset_of_all_regular key l first Hreg Hkey). reflexivity. }
  assert (P' : Permutation (rrset_of key (sort_Sort Less l')) R0).
  { rewrite (rrset_of_Permutation key _ _ (Hperm Less l')).
    rewrite (rrset_of_all_regular key l' first Hreg Hkey), Hsame. reflexivity. }
  destruct (rrset_of key (sort_Sort Less l)) as [|x g] eqn:Hg;
    destruct (rrset_of key (sort_Sort Less l')) as [|x' g'] eqn:Hg'.
  - reflexivity.
  - apply Permutation_nil in P. rewrite P in P'.
    apply Permutation_sym, Permutation_nil in P'. discriminate P'.
  - apply Permutation_nil in P'. rewrite P' in P.
    apply Permutation_sym, Permutation_nil in P. discriminate P.
  - simpl. f_equal.
    apply (sorted_Permutation_eq (fun a b => Less b a = false)).
    + apply Hsorted.
    + apply Hsorted.
    + rewrite (Hperm Less (x' :: g')), (Hperm Less (x :: g)), P', P. reflexivity.
    + assert (Hin : forall a, In a (sort_Sort Less (x' :: g')) ->
                              In a (map lower_owner (regular_records l))).
      { intros a Ha. apply (Permutation_in _ (Hperm Less _)) in Ha.
        apply (Permutation_in _ P') in Ha. unfold R0, rrset_of in Ha.
        apply filter_In in Ha as [Ha _]. exact Ha. }
      intros a b Ha Hb Hba Hab. apply Hties; auto.
Qed.

Lemma rrset_mismatch_irregular (m : gmap string (list RR)) (key : string)
    (first : RR) (rest : list RR) :
  regular first = false -> rrset_mismatch m key (first :: rest) = None.
Proof.
  unfold regular, rrset_mismatch. intros H.
  destruct (Rrtype (Header first) =? TypeOPT)%N; [reflexivity|].
  destruct (Rrtype (Header first) =? TypeRRSIG)%N; [reflexivity | discriminate H].
Qed.

(** One direction of the comparison of the two tables of mismatches. *)
Lemma lookup_mismatch_alike (iana yeti iana' yeti' : list RR) (key : string)
    (rrset : list RR) :
  regular_records iana' = regular_records iana ->
  regular_records yeti' = regular_records yeti ->
  no_ties (map lower_owner (regular_records iana)) ->
  no_ties (map lower_owner (regular_records yeti)) ->
  extract_rrset (sort_Sort Less iana) !! key = Some rrset ->
  rrset_mismatch (extract_rrset (sort_Sort Less yeti)) key rrset <> None ->
  extract_rrset (sort_Sort Less iana') !! key = Some rrset
  /\ rrset_mismatch (extract_rrset (sort_Sort Less yeti')) key rrset
     = rrset_mismatch (extract_rrset (sort_Sort Less yeti)) key rrset.
Proof.
  intros Hi Hy Ti Ty Hlook Hsome.
  destruct (extract_rrset_head Hperm _ _ _ Hlook) as (first & rest & -> & Hkey).
  destruct (regular first) eqn:Hreg;
    [|rewrite rrset_mismatch_irregular in Hsome by exact Hreg; contradiction].
  split.
  - rewrite (extract_rrset_alike iana iana' key first Hi Ti Hreg Hkey). exact Hlook.
  - unfold rrset_mismatch.
    rewrite (extract_rrset_alike yeti yeti' key first Hy Ty Hreg Hkey). reflexivity.
Qed.

Lemma mismatch_tables_alike (iana yeti iana' yeti' : list RR) :
  extras_alike iana iana' -> extras_alike yeti yeti' ->
  tidy_extra iana -> tidy_extra yeti ->
  map_imap (rrset_mismatch (extract_rrset (sort_Sort Less yeti')))
           (extract_rrset (sort_Sort Less iana'))
  = map_imap (rrset_mismatch (extract_rrset (sort_Sort Less yeti)))
             (extract_rrset (sort_Sort Less iana)).
Proof.
  unfold extras_alike, tidy_extra. intros Hi Hy Ti Ty.
  assert (Ti' : no_ties (map lower_owner (regular_records iana')))
    by (rewrite Hi; exact Ti).
  assert (Ty' : no_ties (map lower_owner (regular_records yeti')))
    by (rewrite Hy; exact Ty).
  apply map_eq. intros key. rewrite !map_lookup_imap.
  set (im := extract_rrset (sort_Sort Less iana)).
  set (im' := extract_rrset (sort_Sort Less iana')).
  set (ym := extract_rrset (sort_Sort Less yeti)).
  set (ym' := extract_rrset (sort_Sort Less yeti')).
  destruct (im !! key ≫= rrset_mismatch ym key) as [pair|] eqn:Hm.
  - destruct (im !! key) as [rrset|] eqn:Hlook; [|discriminate Hm]. simpl in Hm.
    destruct (lookup_mismatch_alike iana yeti iana' yeti' key rrset
                Hi Hy Ti Ty Hlook) as [Hlook' Hmis]; [fold ym; congruence|].
    fold im' in Hlook'. fold ym' ym in Hmis.
    rewrite Hlook'. simpl. rewrite Hmis. exact Hm.
  - destruct (im' !! key ≫= rrset_mismatch ym' key) as [pair|] eqn:Hm';
      [|reflexivity].
    destruct (im' !! key) as [rrset|] eqn:Hlook'; [|discriminate Hm'].
    simpl in Hm'.
    destruct (lookup_mismatch_alike iana' yeti' iana yeti key rrset
                (eq_sym Hi) (eq_sym Hy) Ti' Ty' Hlook') as [Hlook Hmis];
      [fold ym'; congruence|].
    fold im in Hlook. fold ym ym' in Hmis.
    rewrite Hlook in Hm. simpl in Hm. congruence.
Qed.

(** *** Choosing the order of a visit *)

Lemma omap_cons {A B : Type} (f : A -> option B) (x : A) (l : list A) :
  omap f (x :: l) = match f x with Some y => y :: omap f l | None => omap f l end.
Proof. reflexivity. Qed.

Lemma omap_app_inv {A B : Type} (f : A -> option B) (l : list A) (s1 s2 : list B) :
  omap f l = s1 ++ s2 ->
  exists la lb, l = la ++ lb /\ omap f la = s1 /\ omap f lb = s2.
Proof.
  revert s1. induction l as [|x l IH]; intros s1 H.
  - symmetry in H. apply app_eq_nil in H as [-> ->].
    exists [], []. repeat split.
  - rewrite omap_cons in H. destruct (f x) as [y|] eqn:Hx.
    + destruct s1 as [|y' s1]; simpl in H.
      * exists [], (x :: l). repeat split. rewrite omap_cons, Hx. exact H.
      * injection H as <- H. destruct (IH s1 H) as (la & lb & -> & Ha & Hb).
        exists (x :: la), lb. repeat split; [|exact Hb].
        rewrite omap_cons, Hx, Ha. reflexivity.
    + destruct (IH s1 H) as (la & lb & -> & Ha & Hb).
      exists (x :: la), lb. repeat split; [|exact Hb].
      rewrite omap_cons, Hx. exact Ha.
Qed.

Lemma omap_app {A B : Type} (f : A -> option B) (la lb : list A) :
  omap f (la ++ lb) = omap f la ++ omap f lb.
Proof.
  induction la as [|x la IH]; [reflexivity|].
  simpl app. rewrite !omap_cons, IH. destruct (f x); reflexivity.
Qed.

(** Any arrangement of what a visit yields is what some visit yields. *)
Lemma omap_Permutation_inv {A B : Type} (f : A -> option B) (l : list A)
    (s : list B) :
  Permutation (omap f l) s ->
  exists l', Permutation l' l /\ omap f l' = s.
Proof.
  revert s. induction l as [|x l IH]; intros s P.
  - apply Permutation_nil in P. subst s. exists []. split; reflexivity.
  - rewrite omap_cons in P. destruct (f x) as [y|] eqn:Hx.
    + destruct (Permutation_vs_cons_inv (Permutation_sym P)) as (s1 & s2 & ->).
      apply Permutation_cons_app_inv in P.
      destruct (IH _ P) as (l0 & Pl & Hl).
      destruct (omap_app_inv f l0 s1 s2 Hl) as (la & lb & -> & Ha & Hb).
      exists (la ++ x :: lb). split.
      * rewrite <- Pl. symmetry. apply Permutation_middle.
      * rewrite omap_app, omap_cons, Hx, Ha, Hb. reflexivity.
    + destruct (IH _ P) as (l0 & Pl & Hl).
      exists (x :: l0). split; [constructor; exact Pl|].
      rewrite omap_cons, Hx. exact Hl.
Qed.

(** For two versions of the Additional sections that are alike, whatever one
    visit of the map yields for the first, some visit yields for the second. *)
Lemma compare_additional_alike (order : range_order)
    (iana yeti iana' yeti' : list RR) :
  visits_each_once order ->
  extras_alike iana iana' -> extras_alike yeti yeti' ->
  tidy_extra iana -> tidy_extra yeti ->
  exists order', visits_each_once order'
    /\ compare_additional order' (sort_Sort Less iana') (sort_Sort Less yeti')
       = compare_additional order (sort_Sort Less iana) (sort_Sort Less yeti).
Proof.
  intros Ho Hi Hy Ti Ty.
  set (im := extract_rrset (sort_Sort Less iana)).
  set (im' := extract_rrset (sort_Sort Less iana')).
  set (ym := extract_rrset (sort_Sort Less yeti)).
  set (ym' := extract_rrset (sort_Sort Less yeti')).
  pose proof (mismatches_visit order ym im Ho) as P.
  pose proof (map_to_list_imap (rrset_mismatch ym') im') as P'.
  unfold im', ym' in P'.
  rewrite (mismatch_tables_alike iana yeti iana' yeti' Hi Hy Ti Ty) in P'.
  fold im ym im' ym' in P'. rewrite <- P in P'.
  destruct (omap_Permutation_inv _ _ _ P') as (visit & Pv & Hv).
  exists (fun entries =>
            if decide (entries = map_to_list im') then visit else entries).
  assert (Ho' : visits_each_once
                  (fun entries =>
                     if decide (entries = map_to_list im') then visit else entries)).
  { intros entries. destruct (decide (entries = map_to_list im')) as [->|_];
      [exact Pv | reflexivity]. }
  split; [exact Ho'|].
  rewrite (compare_additional_view Hperm _ _ _ Ho').
  rewrite (compare_additional_view Hperm order _ _ Ho). cbv zeta.
  fold im im' ym ym'. rewrite decide_True by reflexivity.
  unfold mismatches at 1 2. rewrite Hv. reflexivity.
Qed.

End IgnoredInAdditional.

(** ** Differences that the comparison ignores, and those it does not *)

(** C4 (counterexample).  Three differences that the claim calls ignored
    change the report: an OPT record in the Answer section of one side; a
    different MNAME in a root SOA held in the Additional sections; a
    different MNAME in the root SOA of an Authority section whose other
    side has no root SOA (the SOA is then printed whole). *)
Lemma compare_resp_sees_some_OPT_and_MNAME :
  let cmp := compare_resp (codec := Reference.plain_codec)
               (gosort := Reference.insertion) Reference.as_listed in
  cmp IgnoredExample.stray_option IgnoredExample.nothing
    <> cmp IgnoredExample.nothing IgnoredExample.nothing
  /\ cmp (IgnoredExample.soa_in_extra "a.root-servers.net.")
         (IgnoredExample.soa_in_extra "a.root-servers.net.")
     <> cmp (IgnoredExample.soa_in_extra "b.root-servers.net.")
            (IgnoredExample.soa_in_extra "a.root-servers.net.")
  /\ cmp (IgnoredExample.soa_in_ns "a.root-servers.net.") IgnoredExample.nothing
     <> cmp (IgnoredExample.soa_in_ns "b.root-servers.net.") IgnoredExample.nothing.
Proof. vm_compute. repeat split; discriminate. Qed.

Section Ignored.
Context `{codec : Codec} `{gosort : GoSort}.

(** C4 (amended).  Take two responses whose sections are tidy (no two
    distinct records level in the sort order among those compared, at most
    one root SOA in Answer and in Authority).  Replace their sections by
    tidy sections that differ from them by RRSIG records anywhere, by OPT
    records in Additional, and by the MNAME and RNAME of the Answer and
    Authority root SOAs where both sides have one.  Then every report that
    [compare_resp] can give for the first pair it can give for the second.
    And when both sides have a root SOA, it adds no line if their five
    numbers agree. *)
Theorem ignored_differences (order : range_order) (x y : Msg.t)
    (answer ns extra answer_y ns_y extra_y : list RR) :
  sort_permutes gosort -> sort_sorts gosort -> visits_each_once order ->
  tidy x -> tidy y ->
  tidy (with_sections x answer ns extra) ->
  tidy (with_sections y answer_y ns_y extra_y) ->
  sections_alike (Msg.Answer x) (Msg.Answer y) answer answer_y ->
  sections_alike (Msg.Ns x) (Msg.Ns y) ns ns_y ->
  extras_alike (Msg.Extra x) extra ->
  extras_alike (Msg.Extra y) extra_y ->
  (exists order', visits_each_once order'
     /\ compare_resp order' (with_sections x answer ns extra)
                            (with_sections y answer_y ns_y extra_y)
        = compare_resp order x y)
  /\ (forall a b : SOA.t,
        soa_numbers a = soa_numbers b ->
        compare_soa (Some a) (Some b) = EmptyString).
Proof.
  intros Hperm Hsorted Ho (Tan & Tns & Tex) (Tan_y & Tns_y & Tex_y)
         (Tan' & Tns' & _) (Tan_y' & Tns_y' & _) Han Hns Hex Hex_y.
  split; [|exact compare_soa_same_numbers].
  destruct (compare_additional_alike Hperm Hsorted order _ _ _ _
              Ho Hex Hex_y Tex Tex_y) as (order' & Ho' & Hadd).
  exists order'. split; [exact Ho'|].
  unfold compare_resp.
  change (skip_comparison (with_sections x answer ns extra))
    with (skip_comparison x).
  destruct (skip_comparison x) as [[|]|]; simpl; try reflexivity.
  change (header_lines (with_sections x answer ns extra)
                       (with_sections y answer_y ns_y extra_y))
    with (header_lines x y).
  destruct (section_report_alike Hperm Hsorted _ _ _ _ Tan Tan_y Tan' Tan_y' Han)
    as (io1 & yo1 & si1 & sy1 & si1' & sy1' & E1 & E1' & S1).
  destruct (section_report_alike Hperm Hsorted _ _ _ _ Tns Tns_y Tns' Tns_y' Hns)
    as (io2 & yo2 & si2 & sy2 & si2' & sy2' & E2 & E2' & S2).
  simpl in E1', E2'. rewrite E1, E1'. simpl. rewrite E2, E2'. simpl.
  rewrite Hadd, S1, S2. reflexivity.
Qed.

End Ignored.

Ltac listed_no_ties :=
  intros a b Ha Hb Hab Hba; simpl in Ha, Hb;
  repeat match goal with
         | H : _ \/ _ |- _ => destruct H as [<-|H]
         | H : False |- _ => contradiction H
         end;
  try reflexivity; vm_compute in Hab, Hba; discriminate.

Ltac listed_tidy_section :=
  split; [|split];
  [ unfold root_SOAs_typed; simpl;
    repeat match goal with |- Forall _ _ => constructor end;
    intros H; try discriminate H; eexists; reflexivity
  | simpl; lia
  | listed_no_ties ].

Ltac listed_tidy :=
  split; [listed_tidy_section | split; [listed_tidy_section | listed_no_ties]].

Lemma ignored_differences_witness :
  exists order', visits_each_once order'
    /\ compare_resp (codec := Reference.plain_codec) (gosort := Reference.insertion)
         order'
         (with_sections IgnoredExample.reference IgnoredExample.reference_answer'
            IgnoredExample.reference_ns' IgnoredExample.reference_extra')
         (with_sections IgnoredExample.shadow IgnoredExample.shadow_answer'
            IgnoredExample.shadow_ns' IgnoredExample.shadow_extra')
       = compare_resp (codec := Reference.plain_codec)
           (gosort := Reference.insertion) Reference.as_listed
           IgnoredExample.reference IgnoredExample.shadow.
Proof.
  apply (ignored_differences (codec := Reference.plain_codec)
           (gosort := Reference.insertion) Reference.as_listed
           IgnoredExample.reference IgnoredExample.shadow
           IgnoredExample.reference_answer' IgnoredExample.reference_ns'
           IgnoredExample.reference_extra' IgnoredExample.shadow_answer'
           IgnoredExample.shadow_ns' IgnoredExample.shadow_extra'
           insertion_sort_permutes insertion_sort_sorts
           as_listed_visits_each_once).
  - listed_tidy.
  - listed_tidy.
  - listed_tidy.
  - listed_tidy.
  - split; [reflexivity | split; [reflexivity | left; split; reflexivity]].
  - split; [reflexivity | split; [reflexivity|]].
    right. do 4 eexists. repeat split; reflexivity.
  - reflexivity.
  - reflexivity.
Defined.

(** * Further properties of the code *)

(** ** [PadRight] *)

Section PadRightFacts.

Lemma str_take_all (s : string) : str_take (String.length s) s = s.
Proof. induction s as [|c s IH]; simpl; [reflexivity|]. now rewrite IH. Qed.

Lemma str_take_append (n : nat) (a b : string) :
  n <= String.length a -> str_take n (a +:+ b) = str_take n a.
Proof.
  revert n. induction a as [|c a IH]; intros n Hn.
  - simpl in Hn. assert (n = 0) as -> by lia. simpl. destruct b; reflexivity.
  - destruct n as [|n]; simpl; [reflexivity|].
    rewrite IH by (simpl in Hn; lia). reflexivity.
Qed.

Lemma str_take_length (n : nat) (s : string) :
  n <= String.length s -> String.length (str_take n s) = n.
Proof.
  revert n. induction s as [|c s IH]; intros [|n] Hn; simpl in *;
    try reflexivity; try lia.
  rewrite IH by lia. reflexivity.
Qed.

Lemma str_take_take (n m : nat) (s : string) :
  n <= m -> str_take n (str_take m s) = str_take n s.
Proof.
  revert n m. induction s as [|c s IH]; intros [|n] [|m] Hnm; simpl;
    try reflexivity; try lia.
  rewrite IH by lia. reflexivity.
Qed.

Lemma copies_snoc (k : nat) (pad : string) :
  copies (S k) pad = copies k pad +:+ pad.
Proof.
  induction k as [|k IH].
  - simpl. now rewrite append_empty_r.
  - change (copies (S (S k)) pad) with (pad +:+ copies (S k) pad).
    rewrite IH at 1. simpl. now rewrite append_assoc.
Qed.

(** The loop ends as soon as enough copies of a non-empty [pad] have been
    added. *)
Lemma PadRight_loop_fills (pad : string) (length : Z) (fuel : nat) (s : string) :
  pad <> EmptyString ->
  (length - Z.of_nat (String.length s) <= Z.of_nat fuel)%Z ->
  exists k,
    PadRight_loop fuel s length pad = Some (s +:+ copies k pad)
    /\ (length <= Z.of_nat (String.length (s +:+ copies k pad)))%Z.
Proof.
  intros Hpad. revert s.
  induction fuel as [|fuel IH]; intros s Hfuel; simpl.
  - exists 0. simpl. rewrite append_empty_r.
    destruct (Z.ltb_spec (Z.of_nat (String.length s)) length); [lia|].
    split; [reflexivity | lia].
  - destruct (Z.ltb_spec (Z.of_nat (String.length s)) length) as [Hlt|Hge].
    + destruct (IH (s +:+ pad)) as [k [Hk Hlen]].
      { rewrite length_append.
        assert (0 < String.length pad) by (destruct pad; simpl; [congruence | lia]).
        lia. }
      exists (S k). rewrite Hk.
      change (copies (S k) pad) with (pad +:+ copies k pad).
      rewrite <- append_assoc. split; [reflexivity | exact Hlen].
    + exists 0. simpl. rewrite append_empty_r. split; [reflexivity | lia].
Qed.

(** X1.  Given a non-empty [pad] (and turns enough for the loop),
    [PadRight] returns; the result is [s] itself when [s] already has
    [length] bytes or more, and otherwise has exactly [length] bytes: [s],
    followed by copies of [pad], cut at [length]. *)
Theorem PadRight_pads (fuel : nat) (s : string) (length : Z) (pad : string) :
  pad <> EmptyString ->
  (length <= Z.of_nat fuel)%Z ->
  exists r,
    PadRight fuel s length pad = Some r
    /\ Z.of_nat (String.length r) = Z.max length (Z.of_nat (String.length s))
    /\ str_take (String.length s) r = s
    /\ exists k, r = str_take (String.length r) (s +:+ copies k pad).
Proof.
  intros Hpad Hfuel. unfold PadRight.
  destruct (Z.leb_spec length (Z.of_nat (String.length s))) as [Hle|Hgt].
  - exists s. split; [reflexivity|]. split; [lia|].
    split; [apply str_take_all|].
    exists 0. simpl. rewrite append_empty_r. symmetry. apply str_take_all.
  - destruct (PadRight_loop_fills pad length fuel s Hpad) as [k [Hk Hlen]]; [lia|].
    rewrite Hk. simpl.
    exists (str_take (Z.to_nat length) (s +:+ copies k pad)).
    assert (Hn : String.length (str_take (Z.to_nat length) (s +:+ copies k pad))
                 = Z.to_nat length) by (apply str_take_length; lia).
    split; [reflexivity|]. split; [rewrite Hn; lia|]. split.
    + rewrite str_take_take by lia.
      rewrite str_take_append by lia. apply str_take_all.
    + exists k. rewrite Hn. reflexivity.
Qed.

(** X2.  With the empty [pad] and a [length] that [s] falls short of, the
    loop of [PadRight] adds nothing at each turn and never ends: no
    number of turns makes the function return. *)
Theorem PadRight_empty_pad_never_returns (fuel : nat) (s : string) (length : Z) :
  (Z.of_nat (String.length s) < length)%Z ->
  PadRight fuel s length EmptyString = None.
Proof.
  intros Hlt. unfold PadRight.
  destruct (Z.leb_spec length (Z.of_nat (String.length s))); [lia|].
  assert (Hloop : PadRight_loop fuel s length EmptyString = None).
  { induction fuel as [|fuel IH]; simpl;
      destruct (Z.ltb_spec (Z.of_nat (String.length s)) length); try lia;
      [reflexivity|].
    rewrite append_empty_r. exact IH. }
  rewrite Hloop. reflexivity.
Qed.

End PadRightFacts.

Lemma PadRight_pads_witness :
  exists r,
    PadRight 78 "===[ ymmv ]" 16 "=-" = Some r
    /\ Z.of_nat (String.length r) = Z.max 16 (Z.of_nat (String.length "===[ ymmv ]"))
    /\ str_take (String.length "===[ ymmv ]") r = "===[ ymmv ]"
    /\ exists k, r = str_take (String.length r) ("===[ ymmv ]" +:+ copies k "=-").
Proof.
  apply (PadRight_pads 78 "===[ ymmv ]" 16 "=-"); [discriminate | lia].
Defined.

Lemma PadRight_empty_pad_never_returns_witness :
  PadRight 1000 "abc" 5 EmptyString = None.
Proof.
  apply (PadRight_empty_pad_never_returns 1000 "abc" 5). simpl. lia.
Defined.

(** ** [rr_sort.Len] and [rr_sort.Swap] *)

Section SwapFacts.

Lemma delete_insert_same {A : Type} (l : list A) (i : nat) (x : A) :
  delete i (<[i := x]> l) = delete i l.
Proof.
  revert i. induction l as [|y l IH]; intros [|i]; simpl; try reflexivity.
  now rewrite IH.
Qed.

Lemma index_Some {A : Type} (a : list A) (i : Z) (x : A) :
  index a i = Some x <-> (0 <= i)%Z /\ a !! Z.to_nat i = Some x.
Proof.
  unfold index. destruct (Z.ltb_spec i 0); split.
  - discriminate.
  - intros [? _]. lia.
  - intros H'. split; [lia | exact H'].
  - intros [_ H']. exact H'.
Qed.

Lemma index_None {A : Type} (a : list A) (i : Z) :
  index a i = None <-> ~ (0 <= i < Z.of_nat (List.length a))%Z.
Proof.
  unfold index. destruct (Z.ltb_spec i 0) as [Hneg|Hpos].
  - split; [intros _; lia | reflexivity].
  - rewrite lookup_ge_None. split; intros; lia.
Qed.

(** Exchanging two elements of a list in place. *)
Lemma exchange_in_place {A : Type} (a : list A) (i j : nat) (x y : A) :
  a !! i = Some x -> a !! j = Some y ->
  let a' := <[j := x]> (<[i := y]> a) in
  Permutation a a'
  /\ a' !! i = Some y /\ a' !! j = Some x
  /\ (forall k, k <> i -> k <> j -> a' !! k = a !! k)
  /\ <[j := y]> (<[i := x]> a') = a.
Proof.
  intros Hi Hj a'.
  assert (Hli : i < List.length a) by (apply lookup_lt_is_Some; eauto).
  assert (Hlj : j < List.length a) by (apply lookup_lt_is_Some; eauto).
  assert (Hbj : <[i := y]> a !! j = Some y).
  { destruct (decide (i = j)) as [->|Hne].
    - apply list_lookup_insert_Some. left. auto.
    - rewrite list_lookup_insert_ne by exact Hne. exact Hj. }
  assert (Hbi : <[i := y]> a !! i = Some y).
  { apply list_lookup_insert_Some. left. auto. }
  assert (Haj : a' !! j = Some x).
  { apply list_lookup_insert_Some. left.
    rewrite length_insert. auto. }
  assert (Hai : a' !! i = Some y).
  { unfold a'. destruct (decide (i = j)) as [->|Hne].
    - rewrite list_insert_insert_eq.
      rewrite Hi in Hj. injection Hj as ->.
      apply list_lookup_insert_Some. left. auto.
    - rewrite list_lookup_insert_ne by congruence. exact Hbi. }
  split; [|split; [exact Hai | split; [exact Haj | split]]].
  - rewrite (delete_Permutation a i x Hi).
    rewrite (delete_Permutation a' j x Haj).
    apply Permutation_cons; [reflexivity|].
    unfold a'. rewrite delete_insert_same.
    apply (Permutation_cons_inv (a := y)).
    rewrite <- (delete_Permutation _ j y Hbj).
    rewrite (delete_Permutation _ i y Hbi).
    rewrite delete_insert_same. reflexivity.
  - intros k Hki Hkj. unfold a'.
    rewrite !list_lookup_insert_ne by congruence. reflexivity.
  - apply list_eq. intros k.
    destruct (decide (k = j)) as [->|Hkj].
    + rewrite Hj. apply list_lookup_insert_Some. left.
      rewrite length_insert. unfold a'. rewrite !length_insert. auto.
    + rewrite list_lookup_insert_ne by congruence.
      destruct (decide (k = i)) as [->|Hki].
      * rewrite Hi. apply list_lookup_insert_Some. left.
        unfold a'. rewrite !length_insert. auto.
      * rewrite list_lookup_insert_ne by congruence.
        unfold a'. rewrite !list_lookup_insert_ne by congruence. reflexivity.
Qed.

(** X3.  [Swap] panics exactly when one of its two indices lies outside
    the slice.  Otherwise it exchanges the records at [i] and [j] and
    touches nothing else: the slice keeps its length and holds the same
    records as before (it is a permutation), and the same [Swap] once
    more restores it. *)
Theorem Swap_exchanges (a : list RR) (i j : Z) :
  (Swap a i j = None <-> ~ ((0 <= i < Len a)%Z /\ (0 <= j < Len a)%Z))
  /\ forall a',
       Swap a i j = Some a' ->
       Permutation a a'
       /\ Len a' = Len a
       /\ index a' i = index a j
       /\ index a' j = index a i
       /\ (forall k, k <> i -> k <> j -> index a' k = index a k)
       /\ Swap a' i j = Some a.
Proof.
  unfold Swap, Len. split.
  - destruct (index a j) as [y|] eqn:Hj; simpl.
    + destruct (index a i) as [x|] eqn:Hi; simpl.
      * split; [discriminate|]. intros Hn. exfalso. apply Hn.
        assert (Hi' : index a i <> None) by congruence.
        assert (Hj' : index a j <> None) by congruence.
        rewrite index_None in Hi', Hj'. lia.
      * split; [|reflexivity]. intros _. apply index_None in Hi. lia.
    + split; [|reflexivity]. intros _. apply index_None in Hj. lia.
  - intros a' H.
    destruct (index a j) as [y|] eqn:Hj; simpl in H; [|discriminate].
    destruct (index a i) as [x|] eqn:Hi; simpl in H; [|discriminate].
    injection H as <-.
    apply index_Some in Hi as [Hi0 Hi], Hj as [Hj0 Hj].
    destruct (exchange_in_place a _ _ x y Hi Hj) as (HP & Hai & Haj & Hk & Hback).
    split; [exact HP|]. split; [rewrite !length_insert; reflexivity|].
    split; [|split; [|split]].
    + apply index_Some; auto.
    + apply index_Some; auto.
    + intros k Hki Hkj. unfold index.
      destruct (Z.ltb_spec k 0); [reflexivity|].
      apply Hk; lia.
    + assert (Hj' : index (<[Z.to_nat j := x]> (<[Z.to_nat i := y]> a)) j = Some x)
        by (apply index_Some; auto).
      assert (Hi' : index (<[Z.to_nat j := x]> (<[Z.to_nat i := y]> a)) i = Some y)
        by (apply index_Some; auto).
      rewrite Hj', Hi'. simpl. f_equal. exact Hback.
Qed.

End SwapFacts.

(** ** [rr_sort.Less] is an ordering that [sort.Sort] can work with *)

Section LessWeakOrder.
Context `{codec : Codec}.

Lemma str_lt_total (a b : string) :
  str_lt a b = false -> str_lt b a = false -> a = b.
Proof.
  unfold str_lt. intros Hab Hba.
  destruct (String.compare a b) eqn:Hc; try discriminate.
  - apply OrderedTypeEx.String_as_OT.cmp_eq. exact Hc.
  - rewrite String.compare_antisym in Hc.
    destruct (String.compare b a); simpl in Hc; discriminate.
Qed.

Lemma level_iff (a b : RR) :
  level a b <->
    Rrtype (Header a) = Rrtype (Header b)
    /\ Ttl (Header a) = Ttl (Header b)
    /\ sort_text a = sort_text b.
Proof.
  unfold level. split.
  - intros [Hab Hba].
    assert (Hab' : ~ Less a b = true) by congruence.
    assert (Hba' : ~ Less b a = true) by congruence.
    rewrite Less_true_iff in Hab', Hba'.
    assert (Ht : Rrtype (Header a) = Rrtype (Header b)) by lia.
    assert (Hl : Ttl (Header a) = Ttl (Header b)) by lia.
    split; [exact Ht|]. split; [exact Hl|].
    apply str_lt_total.
    + destruct (str_lt (sort_text a) (sort_text b)) eqn:E; [|reflexivity].
      exfalso. apply Hab'. right. auto.
    + destruct (str_lt (sort_text b) (sort_text a)) eqn:E; [|reflexivity].
      exfalso. apply Hba'. right. split; [congruence|]. right. auto.
  - intros (Ht & Hl & Hs).
    split.
    + destruct (Less a b) eqn:E; [|reflexivity].
      apply Less_true_iff in E. rewrite Hs, str_lt_irrefl in E. lia.
    + destruct (Less b a) eqn:E; [|reflexivity].
      apply Less_true_iff in E. rewrite Hs, str_lt_irrefl in E. lia.
Qed.

(** X4.  [Less] is a strict weak ordering, as [sort.Sort] expects of a
    [Less] method: no record comes before itself, [Less] is asymmetric
    and transitive, and being level is transitive.  Two records are level
    exactly when they agree in type, in TTL and in the text compared
    last (the owner name counts only as a part of that text). *)
Theorem Less_strict_weak_order :
  (forall a, Less a a = false)
  /\ (forall a b, Less a b = true -> Less b a = false)
  /\ (forall a b c, Less a b = true -> Less b c = true -> Less a c = true)
  /\ (forall a b c, level a b -> level b c -> level a c)
  /\ (forall a b,
        level a b <->
          Rrtype (Header a) = Rrtype (Header b)
          /\ Ttl (Header a) = Ttl (Header b)
          /\ sort_text a = sort_text b).
Proof.
  split; [|split; [|split; [|split]]].
  - intros a. destruct (Less a a) eqn:E; [|reflexivity].
    pose proof (Less_asym a a E). congruence.
  - exact Less_asym.
  - exact Less_trans.
  - intros a b c Hab Hbc. rewrite level_iff in *.
    destruct Hab as (? & ? & ?), Hbc as (? & ? & ?).
    repeat split; congruence.
  - exact level_iff.
Qed.

End LessWeakOrder.

(** ** What [compare_section] leaves over *)

Section SectionLeftovers.
Context `{codec : Codec}.

Lemma remove_match_None (t : string) (l : list RR) :
  remove_match t l = None <-> List.Forall (fun z => match_text z <> t) l.
Proof.
  induction l as [|y l IH]; simpl.
  - split; [constructor | reflexivity].
  - fold (match_text y).
    destruct (String.eqb_spec t (match_text y)) as [E|N].
    + split; [discriminate|]. intros H. inversion H; subst. congruence.
    + destruct (remove_match t l) as [l'|].
      * split; [discriminate|]. intros H. inversion H; subst.
        apply IH in H3. discriminate.
      * split; [|reflexivity]. intros _. constructor; [congruence|].
        apply IH. reflexivity.
Qed.

Lemma remove_match_Some (t : string) (l l' : list RR) :
  remove_match t l = Some l' ->
  exists l1 y l2,
    l = l1 ++ y :: l2 /\ l' = l1 ++ l2 /\ match_text y = t
    /\ List.Forall (fun z => match_text z <> t) l1.
Proof.
  revert l'. induction l as [|y l IH]; intros l' H; simpl in H.
  - discriminate.
  - fold (match_text y) in H.
    destruct (String.eqb_spec t (match_text y)) as [E|N].
    + injection H as <-. exists [], y, l. repeat split; auto.
    + destruct (remove_match t l) as [r|] eqn:Hr; [|discriminate].
      injection H as <-.
      destruct (IH r eq_refl) as (l1 & z & l2 & -> & -> & Hz & Hl1).
      exists (y :: l1), z, l2.
      split; [reflexivity|]. split; [reflexivity|]. split; [exact Hz|].
      constructor; [congruence | exact Hl1].
Qed.

(** What [match_off] leaves on both sides. *)
Lemma match_off_leftovers (iana yeti iana_only yeti_only : list RR) :
  match_off iana yeti = (iana_only, yeti_only) ->
  sublist iana_only iana
  /\ sublist yeti_only yeti
  /\ (forall a b, In a iana_only -> In b yeti_only -> match_text a <> match_text b)
  /\ Permutation (map match_text iana ++ map match_text yeti_only)
                 (map match_text yeti ++ map match_text iana_only).
Proof.
  revert yeti iana_only yeti_only.
  induction iana as [|x iana IH]; intros yeti io yo H; simpl in H.
  - injection H as <- <-. simpl. rewrite app_nil_r.
    split; [constructor|]. split; [reflexivity|]. split; [|reflexivity].
    intros a b [].
  - destruct (remove_match (match_text x) yeti) as [yeti'|] eqn:Hr.
    + apply remove_match_Some in Hr as (l1 & y & l2 & -> & -> & Hy & _).
      destruct (IH _ _ _ H) as (Hs1 & Hs2 & Hx & HP).
      split; [apply sublist_cons, Hs1|]. split.
      { etransitivity; [exact Hs2|].
        apply sublist_app; [reflexivity | apply sublist_cons; reflexivity]. }
      split; [exact Hx|].
      simpl. rewrite List.map_app in *. simpl. rewrite Hy.
      rewrite <- app_assoc. simpl.
      rewrite <- Permutation_middle. apply Permutation_cons; [reflexivity|].
      rewrite HP, <- app_assoc. reflexivity.
    + destruct (match_off iana yeti) as [io' yo'] eqn:Hm.
      injection H as <- <-.
      destruct (IH _ _ _ Hm) as (Hs1 & Hs2 & Hx & HP).
      split; [apply sublist_skip, Hs1|]. split; [exact Hs2|]. split.
      * intros a b [<-|Ha] Hb.
        -- apply remove_match_None in Hr.
           rewrite List.Forall_forall in Hr.
           intros E. apply (Hr b); [|congruence].
           apply list_elem_of_In. eapply elem_of_sublist; [|exact Hs2].
           apply list_elem_of_In. exact Hb.
        -- apply Hx; assumption.
      * simpl. rewrite <- Permutation_middle.
        apply Permutation_cons; [reflexivity | exact HP].
Qed.

(** X5.  When [compare_section] returns, each of its two lists is made of
    records of the side it is named after, neither signatures nor root
    SOAs, in the order they had; no record left on the IANA side has the
    text (letter case apart) of a record left on the Yeti side; and the
    records taken off the two sides pair up: on each side, the texts of
    what was compared are those of what is left plus those matched. *)
Theorem compare_section_leftovers (iana yeti iana_only yeti_only : list RR)
    (iana_root_soa yeti_root_soa : option SOA.t) :
  compare_section iana yeti
    = Some (iana_only, yeti_only, iana_root_soa, yeti_root_soa) ->
  sublist iana_only (general_records iana)
  /\ sublist yeti_only (general_records yeti)
  /\ (forall a b, In a iana_only -> In b yeti_only ->
        match_text a <> match_text b)
  /\ Permutation
       (map match_text (general_records iana) ++ map match_text yeti_only)
       (map match_text (general_records yeti) ++ map match_text iana_only).
Proof.
  rewrite compare_section_view. intros H.
  destruct (last_root_SOA yeti None) as [sy|]; [|discriminate H].
  destruct (last_root_SOA iana None) as [si|]; [|discriminate H].
  simpl in H.
  destruct (match_off (general_records iana) (general_records yeti))
    as [io yo] eqn:Hm.
  injection H as <- <- _ _.
  exact (match_off_leftovers _ _ _ _ Hm).
Qed.

(** X6.  When [compare_section] returns, it reports nothing on either
    side exactly when the two sections, signatures and root SOAs set
    aside, hold the same record texts (letter case apart) the same number
    of times. *)
Theorem compare_section_agrees (iana yeti iana_only yeti_only : list RR)
    (iana_root_soa yeti_root_soa : option SOA.t) :
  compare_section iana yeti
    = Some (iana_only, yeti_only, iana_root_soa, yeti_root_soa) ->
  (iana_only = [] /\ yeti_only = []) <->
  Permutation (map match_text (general_records iana))
              (map match_text (general_records yeti)).
Proof.
  rewrite compare_section_view. intros H.
  destruct (last_root_SOA yeti None) as [sy|]; [|discriminate H].
  destruct (last_root_SOA iana None) as [si|]; [|discriminate H].
  simpl in H.
  destruct (match_off (general_records iana) (general_records yeti))
    as [io yo] eqn:Hm.
  injection H as <- <- _ _.
  destruct (match_off_leftovers _ _ _ _ Hm) as (_ & _ & Hx & HP).
  split.
  - intros [-> ->]. simpl in HP. rewrite !app_nil_r in HP. exact HP.
  - intros Hsame. rewrite <- Hsame in HP.
    apply Permutation_app_inv_l in HP.
    destruct io as [|a io].
    + symmetry in HP. apply Permutation_nil in HP.
      destruct yo; [auto | discriminate HP].
    + exfalso.
      assert (Hin : In (match_text a) (map match_text yo)).
      { eapply Permutation_in; [symmetry; exact HP | left; reflexivity]. }
      apply in_map_iff in Hin as (b & Hb & Hbin).
      apply (Hx a b); [left; reflexivity | exact Hbin | congruence].
Qed.

Lemma last_root_SOA_Some (l : list RR) (soa : option SOA.t) (r : option SOA.t) :
  last_root_SOA l soa = Some r ->
  root_SOAs_typed l
  /\ RR_SOA <$> r = match last (root_SOAs l) with
                    | Some rr => Some rr
                    | None => RR_SOA <$> soa
                    end.
Proof.
  revert soa. induction l as [|rr l IH]; intros soa H; simpl in H.
  - injection H as <-. split; [constructor | reflexivity].
  - unfold root_SOAs in *. simpl.
    destruct (is_root_SOA rr) eqn:Hroot.
    + destruct rr as [s|h c]; simpl in H; [|discriminate H].
      destruct (IH _ H) as [Ht Hl]. split.
      * constructor; [intros _; eauto | exact Ht].
      * rewrite Hl. rewrite last_cons.
        destruct (last (List.filter is_root_SOA l)); reflexivity.
    + destruct (IH _ H) as [Ht Hl]. split.
      * constructor; [congruence | exact Ht].
      * exact Hl.
Qed.

(** X7.  [compare_section] panics exactly when one of the two lists holds
    a record of type SOA owned by the root that is not a [dns.SOA] struct
    (the type assertion fails).  Otherwise the root SOA that it returns
    for a side is the last root SOA of that side's list, and nil when the
    list has none. *)
Theorem compare_section_root_SOA (iana yeti : list RR) :
  (compare_section iana yeti = None
     <-> ~ (root_SOAs_typed iana /\ root_SOAs_typed yeti))
  /\ forall iana_only yeti_only iana_root_soa yeti_root_soa,
       compare_section iana yeti
         = Some (iana_only, yeti_only, iana_root_soa, yeti_root_soa) ->
       RR_SOA <$> iana_root_soa = last (root_SOAs iana)
       /\ RR_SOA <$> yeti_root_soa = last (root_SOAs yeti).
Proof.
  rewrite compare_section_view. split.
  - split.
    + intros H [Hi Hy].
      destruct (last_root_SOA_typed yeti None Hy) as [sy Hsy].
      destruct (last_root_SOA_typed iana None Hi) as [si Hsi].
      rewrite Hsy, Hsi in H. simpl in H.
      destruct (match_off _ _). discriminate H.
    + intros Hn.
      destruct (last_root_SOA yeti None) as [sy|] eqn:Hsy; [|reflexivity].
      destruct (last_root_SOA iana None) as [si|] eqn:Hsi; [|reflexivity].
      exfalso. apply Hn. split.
      * apply (last_root_SOA_Some _ _ _ Hsi).
      * apply (last_root_SOA_Some _ _ _ Hsy).
  - intros io yo si sy H.
    destruct (last_root_SOA yeti None) as [sy'|] eqn:Hsy; [|discriminate H].
    destruct (last_root_SOA iana None) as [si'|] eqn:Hsi; [|discriminate H].
    simpl in H. destruct (match_off _ _). injection H as _ _ <- <-.
    destruct (last_root_SOA_Some _ _ _ Hsi) as [_ Hi].
    destruct (last_root_SOA_Some _ _ _ Hsy) as [_ Hy].
    rewrite Hi, Hy.
    split; [destruct (last (root_SOAs iana)) | destruct (last (root_SOAs yeti))];
      reflexivity.
Qed.

End SectionLeftovers.

Lemma compare_section_leftovers_witness :
  let iana_only := [SectionExample.host "www.example." 300 "192.0.2.1"] in
  let yeti_only := [SectionExample.host "www.example." 300 "192.0.2.3"] in
  let text := match_text (codec := Reference.plain_codec) in
  sublist iana_only (general_records SectionExample.reference_answer)
  /\ sublist yeti_only (general_records SectionExample.shadow_answer)
  /\ (forall a b, In a iana_only -> In b yeti_only -> text a <> text b)
  /\ Permutation
       (map text (general_records SectionExample.reference_answer)
          ++ map text yeti_only)
       (map text (general_records SectionExample.shadow_answer)
          ++ map text iana_only).
Proof.
  apply (compare_section_leftovers (codec := Reference.plain_codec)
           SectionExample.reference_answer SectionExample.shadow_answer
           _ _ None None).
  reflexivity.
Defined.

Lemma compare_section_agrees_witness :
  (@nil RR = [] /\ @nil RR = []) <->
  Permutation
    (map (match_text (codec := Reference.plain_codec))
       (general_records SectionExample.reference_answer))
    (map (match_text (codec := Reference.plain_codec))
       (general_records (rev SectionExample.reference_answer))).
Proof.
  apply (compare_section_agrees (codec := Reference.plain_codec)
           SectionExample.reference_answer
           (rev SectionExample.reference_answer) [] [] None None).
  reflexivity.
Defined.

(** ** When [compare_soa] has nothing to say *)

Section SoaSilence.
Context `{codec : Codec}.

Lemma append_empty_inv (a b : string) :
  a +:+ b = EmptyString -> a = EmptyString /\ b = EmptyString.
Proof. destruct a; simpl; [auto | discriminate]. Qed.

Lemma soa_line_empty (what : string) (x y : N) :
  soa_line what x y = EmptyString <-> x = y.
Proof.
  unfold soa_line. destruct (N.eqb_spec x y) as [E|E].
  - split; auto.
  - split; [discriminate | contradiction].
Qed.

(** X8.  [compare_soa] returns the empty text exactly when neither side
    has a root SOA, or both have one and the two agree in serial,
    refresh, retry, expiry and negative TTL. *)
Theorem compare_soa_silent (iana_soa yeti_soa : option SOA.t) :
  compare_soa iana_soa yeti_soa = EmptyString <->
    (iana_soa = None /\ yeti_soa = None)
    \/ (exists a b, iana_soa = Some a /\ yeti_soa = Some b
                    /\ soa_numbers a = soa_numbers b).
Proof.
  split.
  - destruct iana_soa as [a|], yeti_soa as [b|]; simpl; intros H;
      try discriminate H; [|left; auto].
    right. exists a, b. split; [reflexivity|]. split; [reflexivity|].
    apply append_empty_inv in H as [H1 H].
    apply append_empty_inv in H as [H2 H].
    apply append_empty_inv in H as [H3 H].
    apply append_empty_inv in H as [H4 H5].
    apply soa_line_empty in H1, H2, H3, H4, H5.
    unfold soa_numbers. congruence.
  - intros [[-> ->] | (a & b & -> & -> & Hn)]; [reflexivity|].
    apply compare_soa_same_numbers, Hn.
Qed.

End SoaSilence.

(** ** The RRsets of [extract_rrset] and what [compare_additional] reports *)

Section AdditionalReports.
Context `{codec : Codec} `{gosort : GoSort}.
Hypothesis Hsort : sort_permutes gosort.

Lemma extract_rrset_entry (l : list RR) (key : string) (rrset : list RR) :
  extract_rrset l !! key = Some rrset ->
  rrset <> [] /\ Permutation rrset (rrset_of key l).
Proof.
  rewrite extract_rrset_lookup. unfold nonempty_rrset.
  destruct (rrset_of key l) as [|first rest] eqn:Hof; simpl; [discriminate|].
  intros H. injection H as <-. split.
  - intros Hnil.
    pose proof (Hsort Less (first :: rest)) as HP.
    rewrite Hnil in HP. apply Permutation_nil in HP. discriminate HP.
  - apply Hsort.
Qed.

Lemma rrset_of_In (key : string) (l : list RR) (rr : RR) :
  In rr (rrset_of key l) <->
    rrset_key rr = key /\ exists r0, In r0 l /\ rr = lower_owner r0.
Proof.
  unfold rrset_of. rewrite filter_In, in_map_iff, String.eqb_eq.
  split.
  - intros [(r0 & <- & Hin) Hk]. eauto.
  - intros [Hk (r0 & Hin & ->)]. eauto.
Qed.

Lemma extract_rrset_member (l : list RR) (key : string) (rrset : list RR)
    (rr : RR) :
  extract_rrset l !! key = Some rrset -> In rr rrset ->
  rrset_key rr = key /\ exists r0, In r0 l /\ rr = lower_owner r0.
Proof.
  intros Hl Hin. apply extract_rrset_entry in Hl as [_ HP].
  apply rrset_of_In. eapply Permutation_in; [exact HP | exact Hin].
Qed.

(** X9.  [extract_rrset] files every record, its owner name lowercased,
    under the key made of its type and lowercased owner name, and nothing
    else: the RRset under a key holds exactly the records of that key, as
    many times as they occur, and is never empty.  Two records share an
    RRset exactly when they have the same type and the same owner name,
    letter case apart. *)
Theorem extract_rrset_groups (l : list RR) :
  (forall key rrset,
     extract_rrset l !! key = Some rrset ->
     rrset <> [] /\ Permutation rrset (rrset_of key l))
  /\ (forall key, extract_rrset l !! key = None <-> rrset_of key l = [])
  /\ (forall rr, In rr l ->
        exists rrset,
          extract_rrset l !! rrset_key (lower_owner rr) = Some rrset
          /\ In (lower_owner rr) rrset)
  /\ (forall a b,
        rrset_key (lower_owner a) = rrset_key (lower_owner b) <->
          Rrtype (Header a) = Rrtype (Header b)
          /\ ToLower (Name (Header a)) = ToLower (Name (Header b))).
Proof.
  split; [exact (extract_rrset_entry l)|]. split; [|split].
  - intros key. rewrite extract_rrset_lookup. unfold nonempty_rrset.
    destruct (rrset_of key l); simpl; split; (reflexivity || discriminate).
  - intros rr Hin.
    assert (Hof : In (lower_owner rr) (rrset_of (rrset_key (lower_owner rr)) l))
      by (apply rrset_of_In; eauto).
    destruct (extract_rrset l !! rrset_key (lower_owner rr)) as [rrset|] eqn:Hl.
    + exists rrset. split; [reflexivity|].
      apply extract_rrset_entry in Hl as [_ HP].
      eapply Permutation_in; [symmetry; exact HP | exact Hof].
    + rewrite extract_rrset_lookup in Hl. unfold nonempty_rrset in Hl.
      destruct (rrset_of _ l); [destruct Hof | discriminate Hl].
  - intros a b. split.
    + intros H. apply rrset_key_inj in H as [Ht Hn].
      rewrite !Rrtype_lower_owner in Ht.
      destruct a, b; simpl in *; auto.
    + intros [Ht Hn]. unfold rrset_key.
      rewrite !Rrtype_lower_owner, Ht.
      destruct a, b; simpl in *; rewrite Hn; reflexivity.
Qed.

Lemma rrset_mismatch_Some (ym : gmap string (list RR)) (key : string)
    (ri : list RR) (pair : list RR * list RR) :
  rrset_mismatch ym key ri = Some pair <->
    exists first rest ry,
      ri = first :: rest /\ regular first = true
      /\ ym !! key = Some ry /\ ri <> ry /\ pair = (ri, ry).
Proof.
  unfold rrset_mismatch, regular. split.
  - destruct ri as [|first rest]; [discriminate|].
    destruct (Rrtype (Header first) =? TypeOPT)%N eqn:E1; [discriminate|].
    destruct (Rrtype (Header first) =? TypeRRSIG)%N eqn:E2; [discriminate|].
    destruct (ym !! key) as [ry|]; [|discriminate].
    destruct (bool_decide_reflect (first :: rest = ry)); [discriminate|].
    intros H. injection H as <-. exists first, rest, ry.
    rewrite E1, E2. repeat split; auto.
  - intros (first & rest & ry & -> & Hreg & -> & Hne & ->).
    apply andb_true_iff in Hreg as [H1 H2].
    apply negb_true_iff in H1, H2. rewrite H1, H2.
    rewrite bool_decide_eq_false_2 by exact Hne. reflexivity.
Qed.

Lemma mismatches_elem (order : range_order) (ym im : gmap string (list RR))
    (pair : list RR * list RR) :
  visits_each_once order ->
  pair ∈ mismatches ym (order (map_to_list im)) <->
    exists key ri, im !! key = Some ri /\ rrset_mismatch ym key ri = Some pair.
Proof.
  intros Ho. unfold mismatches. rewrite list_elem_of_omap. split.
  - intros ([key ri] & Hin & Hf). rewrite (Ho _) in Hin.
    apply elem_of_map_to_list in Hin. eauto.
  - intros (key & ri & Hl & Hf). exists (key, ri). split; [|exact Hf].
    rewrite (Ho _). apply elem_of_map_to_list. exact Hl.
Qed.

Lemma reported_In (found : list (list RR * list RR)) (rr : RR) :
  (In rr (concat found.*1) <-> exists pair, pair ∈ found /\ In rr pair.1)
  /\ (In rr (concat found.*2) <-> exists pair, pair ∈ found /\ In rr pair.2).
Proof.
  split; rewrite in_concat; split.
  - intros (l & Hl & Hin). apply list_elem_of_In in Hl.
    apply list_elem_of_fmap in Hl as (pair & -> & Hp). eauto.
  - intros (pair & Hp & Hin). exists pair.1. split; [|exact Hin].
    apply list_elem_of_In, list_elem_of_fmap. eauto.
  - intros (l & Hl & Hin). apply list_elem_of_In in Hl.
    apply list_elem_of_fmap in Hl as (pair & -> & Hp). eauto.
  - intros (pair & Hp & Hin). exists pair.2. split; [|exact Hin].
    apply list_elem_of_In, list_elem_of_fmap. eauto.
Qed.

Lemma regular_member (l : list RR) (key : string) (first : RR)
    (rest : list RR) (rr : RR) :
  extract_rrset l !! key = Some (first :: rest) ->
  regular first = true -> In rr (first :: rest) -> regular rr = true.
Proof.
  intros Hl Hreg Hin.
  destruct (extract_rrset_member _ _ _ first Hl (or_introl eq_refl)) as [Hk1 _].
  destruct (extract_rrset_member _ _ _ rr Hl Hin) as [Hk2 _].
  rewrite (regular_of_key rr first) by congruence. exact Hreg.
Qed.

(** X10.  [compare_additional] never panics (every RRset has a first
    record).  Each record that it reports is a record of the section of
    its side, with the owner name lowercased; it is neither an OPT record
    nor a signature; and its RRset exists on the other side too and is
    reported there as well: an RRset that only one side has is never
    reported. *)
Theorem compare_additional_reports (order : range_order) (iana yeti : list RR) :
  visits_each_once order ->
  exists iana_only yeti_only,
    compare_additional order iana yeti = Some (iana_only, yeti_only)
    /\ (forall rr, In rr iana_only ->
          regular rr = true
          /\ (exists r0, In r0 iana /\ rr = lower_owner r0)
          /\ exists rr', In rr' yeti_only /\ rrset_key rr' = rrset_key rr)
    /\ (forall rr', In rr' yeti_only ->
          regular rr' = true
          /\ (exists r0, In r0 yeti /\ rr' = lower_owner r0)
          /\ exists rr, In rr iana_only /\ rrset_key rr = rrset_key rr').
Proof.
  intros Ho. rewrite (compare_additional_view Hsort) by exact Ho. cbv zeta.
  set (found := mismatches (extract_rrset yeti)
                  (order (map_to_list (extract_rrset iana)))).
  exists (concat found.*1), (concat found.*2).
  split; [reflexivity|].
  assert (Hfound : forall pair, pair ∈ found ->
            exists key first rest first' rest',
              pair = (first :: rest, first' :: rest')
              /\ extract_rrset iana !! key = Some (first :: rest)
              /\ extract_rrset yeti !! key = Some (first' :: rest')
              /\ regular first = true).
  { intros pair Hp. apply mismatches_elem in Hp as (key & ri & Hi & Hm);
      [|exact Ho].
    apply rrset_mismatch_Some in Hm
      as (first & rest & ry & -> & Hreg & Hy & _ & ->).
    destruct (extract_rrset_entry _ _ _ Hy) as [Hne _].
    destruct ry as [|first' rest']; [congruence|].
    exists key, first, rest, first', rest'. auto. }
  split.
  - intros rr Hin. apply (proj1 (reported_In found rr)) in Hin
      as (pair & Hp & Hin).
    destruct (Hfound pair Hp)
      as (key & first & rest & first' & rest' & -> & Hi & Hy & Hreg).
    simpl in Hin.
    destruct (extract_rrset_member _ _ _ rr Hi Hin) as [Hk Hfrom].
    split; [exact (regular_member _ _ _ _ _ Hi Hreg Hin)|].
    split; [exact Hfrom|].
    exists first'. split.
    + apply (proj2 (reported_In found first')). eexists. split; [exact Hp|].
      left. reflexivity.
    + destruct (extract_rrset_member _ _ _ first' Hy (or_introl eq_refl))
        as [Hk' _]. congruence.
  - intros rr' Hin. apply (proj2 (reported_In found rr')) in Hin
      as (pair & Hp & Hin).
    destruct (Hfound pair Hp)
      as (key & first & rest & first' & rest' & -> & Hi & Hy & Hreg).
    simpl in Hin.
    destruct (extract_rrset_member _ _ _ rr' Hy Hin) as [Hk Hfrom].
    destruct (extract_rrset_member _ _ _ first Hi (or_introl eq_refl))
      as [Hk1 _].
    split; [|split; [exact Hfrom|]].
    + rewrite (regular_of_key rr' first) by congruence. exact Hreg.
    + exists first. split; [|congruence].
      apply (proj1 (reported_In found first)). eexists. split; [exact Hp|].
      left. reflexivity.
Qed.

(** X11.  [compare_additional] reports nothing on either side exactly
    when every RRset that both sides have, OPT records and signatures
    apart, is the same on both sides once sorted: record for record,
    owner names lowercased. *)
Theorem compare_additional_silent (order : range_order) (iana yeti : list RR) :
  visits_each_once order ->
  compare_additional order iana yeti = Some ([], []) <->
    forall key iana_rrset yeti_rrset,
      extract_rrset iana !! key = Some iana_rrset ->
      extract_rrset yeti !! key = Some yeti_rrset ->
      List.Forall (fun rr => regular rr = true) iana_rrset ->
      iana_rrset = yeti_rrset.
Proof.
  intros Ho. rewrite (compare_additional_view Hsort) by exact Ho. cbv zeta.
  set (found := mismatches (extract_rrset yeti)
                  (order (map_to_list (extract_rrset iana)))).
  assert (Hnone : found = [] <->
            forall key ri, extract_rrset iana !! key = Some ri ->
              rrset_mismatch (extract_rrset yeti) key ri = None).
  { split.
    - intros Hnil key ri Hi.
      destruct (rrset_mismatch (extract_rrset yeti) key ri) as [pair|] eqn:Hm;
        [|reflexivity].
      assert (Hp : pair ∈ found) by (apply mismatches_elem; eauto).
      rewrite Hnil in Hp. inversion Hp.
    - intros Hall. destruct found as [|pair rest] eqn:Hf; [reflexivity|].
      assert (Hp : pair ∈ found) by (rewrite Hf; left).
      apply mismatches_elem in Hp as (key & ri & Hi & Hm); [|exact Ho].
      rewrite (Hall key ri Hi) in Hm. discriminate Hm. }
  split.
  - intros H. injection H as H1 _.
    assert (Hnil : found = []).
    { destruct found as [|pair rest] eqn:Hf; [reflexivity|]. exfalso.
      assert (Hp : pair ∈ found) by (rewrite Hf; left).
      apply mismatches_elem in Hp as (key & ri & Hi & Hm); [|exact Ho].
      apply rrset_mismatch_Some in Hm
        as (first & rest' & ry & -> & _ & _ & _ & ->).
      discriminate H1. }
    intros key ri ry Hi Hy Hreg.
    pose proof (proj1 Hnone Hnil key ri Hi) as Hm.
    destruct (decide (ri = ry)) as [E|N]; [exact E|]. exfalso.
    destruct (extract_rrset_entry _ _ _ Hi) as [Hne _].
    destruct ri as [|first rest]; [congruence|].
    inversion Hreg; subst.
    assert (Hsome : rrset_mismatch (extract_rrset yeti) key (first :: rest)
                    = Some (first :: rest, ry))
      by (apply rrset_mismatch_Some; eauto 10).
    congruence.
  - intros Hall.
    assert (Hnil : found = []).
    { apply Hnone. intros key ri Hi.
      destruct (rrset_mismatch (extract_rrset yeti) key ri) as [pair|] eqn:Hm;
        [|reflexivity].
      apply rrset_mismatch_Some in Hm
        as (first & rest & ry & -> & Hreg & Hy & Hne & ->).
      exfalso. apply Hne. apply (Hall key); [exact Hi | exact Hy|].
      apply List.Forall_forall. intros rr Hin.
      exact (regular_member _ _ _ _ _ Hi Hreg Hin). }
    rewrite Hnil. reflexivity.
Qed.

End AdditionalReports.

Lemma extract_rrset_groups_witness :
  let rrsets := extract_rrset (codec := Reference.plain_codec)
                  (gosort := Reference.insertion) SectionExample.shadow_extra in
  (forall key rrset,
     rrsets !! key = Some rrset ->
     rrset <> [] /\ Permutation rrset (rrset_of key SectionExample.shadow_extra))
  /\ (forall key,
        rrsets !! key = None <-> rrset_of key SectionExample.shadow_extra = [])
  /\ (forall rr, In rr SectionExample.shadow_extra ->
        exists rrset,
          rrsets !! rrset_key (lower_owner rr) = Some rrset
          /\ In (lower_owner rr) rrset)
  /\ (forall a b,
        rrset_key (lower_owner a) = rrset_key (lower_owner b) <->
          Rrtype (Header a) = Rrtype (Header b)
          /\ ToLower (Name (Header a)) = ToLower (Name (Header b))).
Proof.
  exact (extract_rrset_groups (codec := Reference.plain_codec)
           insertion_sort_permutes SectionExample.shadow_extra).
Defined.

Lemma compare_additional_reports_witness :
  exists iana_only yeti_only,
    compare_additional (codec := Reference.plain_codec)
      (gosort := Reference.insertion) Reference.as_listed
      SectionExample.reference_extra SectionExample.shadow_extra
    = Some (iana_only, yeti_only)
    /\ (forall rr, In rr iana_only ->
          regular rr = true
          /\ (exists r0, In r0 SectionExample.reference_extra
                         /\ rr = lower_owner r0)
          /\ exists rr', In rr' yeti_only /\ rrset_key rr' = rrset_key rr)
    /\ (forall rr', In rr' yeti_only ->
          regular rr' = true
          /\ (exists r0, In r0 SectionExample.shadow_extra
                         /\ rr' = lower_owner r0)
          /\ exists rr, In rr iana_only /\ rrset_key rr = rrset_key rr').
Proof.
  exact (compare_additional_reports (codec := Reference.plain_codec)
           insertion_sort_permutes Reference.as_listed
           SectionExample.reference_extra SectionExample.shadow_extra
           as_listed_visits_each_once).
Defined.

Lemma compare_additional_silent_witness :
  let extract := extract_rrset (codec := Reference.plain_codec)
                   (gosort := Reference.insertion) in
  compare_additional (codec := Reference.plain_codec)
    (gosort := Reference.insertion) Reference.as_listed
    SectionExample.reference_extra (rev SectionExample.reference_extra)
  = Some ([], []) <->
    forall key iana_rrset yeti_rrset,
      extract SectionExample.reference_extra !! key = Some iana_rrset ->
      extract (rev SectionExample.reference_extra) !! key = Some yeti_rrset ->
      List.Forall (fun rr => regular rr = true) iana_rrset ->
      iana_rrset = yeti_rrset.
Proof.
  exact (compare_additional_silent (codec := Reference.plain_codec)
           insertion_sort_permutes Reference.as_listed
           SectionExample.reference_extra (rev SectionExample.reference_extra)
           as_listed_visits_each_once).
Defined.

(** ** When [compare_resp] reports nothing *)

Section RespSilence.
Context `{codec : Codec} `{gosort : GoSort}.

Lemma line_not_empty (a : string) : a +:+ nl <> EmptyString.
Proof. intros H. apply append_empty_inv in H as [_ H]. discriminate H. Qed.

Lemma rr_lines_empty (rrs : list RR) (acc : string) :
  rr_lines rrs acc = EmptyString -> acc = EmptyString.
Proof.
  rewrite rr_lines_append. intros H. apply append_empty_inv in H. tauto.
Qed.

Lemma section_lines_empty (t1 t2 : string) (io yo : list RR) (result : string) :
  section_lines t1 t2 io yo result = EmptyString <->
    result = EmptyString /\ io = [] /\ yo = [].
Proof.
  unfold section_lines. split.
  - destruct yo as [|y yo].
    + destruct io as [|x io]; [auto|].
      intros H. apply rr_lines_empty in H.
      rewrite <- append_assoc in H. apply line_not_empty in H. destruct H.
    + intros H. apply rr_lines_empty in H.
      rewrite <- append_assoc in H. apply line_not_empty in H. destruct H.
  - intros (-> & -> & ->). reflexivity.
Qed.

Lemma header_lines_empty (iana yeti : Msg.t) :
  header_lines iana yeti = EmptyString <->
    Msg.Response iana = Msg.Response yeti
    /\ Msg.Opcode iana = Msg.Opcode yeti
    /\ Msg.Authoritative iana = Msg.Authoritative yeti
    /\ Msg.RecursionDesired iana = Msg.RecursionDesired yeti
    /\ Msg.RecursionAvailable iana = Msg.RecursionAvailable yeti
    /\ Msg.AuthenticatedData iana = Msg.AuthenticatedData yeti
    /\ Msg.Rcode iana = Msg.Rcode yeti.
Proof.
  unfold header_lines. split.
  - intros H.
    repeat match type of H with
           | _ +:+ _ = EmptyString =>
               let H1 := fresh "H" in
               apply append_empty_inv in H as [H1 H]
           end.
    repeat match goal with
           | H' : (if Bool.eqb ?a ?b then _ else _) = EmptyString |- _ =>
               destruct (Bool.eqb_spec a b); [clear H'|discriminate H']
           | H' : (if (?a =? ?b)%N then _ else _) = EmptyString |- _ =>
               destruct (N.eqb_spec a b); [clear H'|discriminate H']
           end.
    auto 10.
  - intros (-> & -> & -> & -> & -> & -> & ->).
    rewrite !Bool.eqb_reflx, !N.eqb_refl. reflexivity.
Qed.

(** X12.  [compare_resp] returns the empty report exactly when the
    question is off the skip list, the two messages agree in the
    response, authoritative, recursion-desired, recursion-available and
    authenticated-data flags, in opcode and in RCODE, the comparison of
    the sorted Answer sections and that of the sorted Authority sections
    leave no record on either side and root SOAs about which [compare_soa]
    is silent, and the comparison of the sorted Additional sections leaves
    no record either.  (The identifier, the TC and CD bits and the
    question of the Yeti message play no part.) *)
Theorem compare_resp_silent (order : range_order) (iana yeti : Msg.t) :
  compare_resp order iana yeti = Some EmptyString <->
    skip_comparison iana = Some false
    /\ (Msg.Response iana = Msg.Response yeti
        /\ Msg.Opcode iana = Msg.Opcode yeti
        /\ Msg.Authoritative iana = Msg.Authoritative yeti
        /\ Msg.RecursionDesired iana = Msg.RecursionDesired yeti
        /\ Msg.RecursionAvailable iana = Msg.RecursionAvailable yeti
        /\ Msg.AuthenticatedData iana = Msg.AuthenticatedData yeti
        /\ Msg.Rcode iana = Msg.Rcode yeti)
    /\ (exists iana_root_soa yeti_root_soa,
          compare_section (sort_Sort Less (Msg.Answer iana))
                          (sort_Sort Less (Msg.Answer yeti))
            = Some ([], [], iana_root_soa, yeti_root_soa)
          /\ compare_soa iana_root_soa yeti_root_soa = EmptyString)
    /\ (exists iana_root_soa yeti_root_soa,
          compare_section (sort_Sort Less (Msg.Ns iana))
                          (sort_Sort Less (Msg.Ns yeti))
            = Some ([], [], iana_root_soa, yeti_root_soa)
          /\ compare_soa iana_root_soa yeti_root_soa = EmptyString)
    /\ compare_additional order (sort_Sort Less (Msg.Extra iana))
                                (sort_Sort Less (Msg.Extra yeti))
       = Some ([], []).
Proof.
  rewrite <- header_lines_empty. unfold compare_resp. split.
  - destruct (skip_comparison iana) as [[|]|]; simpl;
      [discriminate | | discriminate].
    destruct (compare_section (sort_Sort Less (Msg.Answer iana)) _)
      as [[[[io1 yo1] is1] ys1]|]; simpl; [|discriminate].
    destruct (compare_section (sort_Sort Less (Msg.Ns iana)) _)
      as [[[[io2 yo2] is2] ys2]|]; simpl; [|discriminate].
    destruct (compare_additional _ _ _) as [[io3 yo3]|]; simpl; [|discriminate].
    intros H. injection H as H.
    apply section_lines_empty in H as (H & -> & ->).
    apply append_empty_inv in H as [H Hsoa2].
    apply section_lines_empty in H as (H & -> & ->).
    apply append_empty_inv in H as [H Hsoa1].
    apply section_lines_empty in H as (H & -> & ->).
    split; [reflexivity|]. split; [exact H|].
    split; [exists is1, ys1; split; [reflexivity | exact Hsoa1]|].
    split; [exists is2, ys2; split; [reflexivity | exact Hsoa2]|].
    reflexivity.
  - intros (-> & Hh & (is1 & ys1 & -> & Hs1) & (is2 & ys2 & -> & Hs2) & ->).
    simpl. rewrite Hh, Hs1, Hs2. reflexivity.
Qed.

End RespSilence.

(** ** More on the obfuscator *)

Section ObfuscatorMore.

Lemma is_dot_lower_byte (c : ascii) : is_dot (lower_byte c) = is_dot c.
Proof. destruct c as [[] [] [] [] [] [] [] []]; reflexivity. Qed.

Lemma lower_byte_idem (c : ascii) : lower_byte (lower_byte c) = lower_byte c.
Proof. destruct c as [[] [] [] [] [] [] [] []]; reflexivity. Qed.

Lemma ToLower_idem (s : string) : ToLower (ToLower s) = ToLower s.
Proof.
  induction s as [|c s IH]; simpl; [reflexivity|].
  now rewrite lower_byte_idem, IH.
Qed.

Lemma fields_from_ToLower (cur s : string) :
  fields_from (ToLower cur) (ToLower s) = map ToLower (fields_from cur s).
Proof.
  revert cur. induction s as [|c s IH]; intros cur; simpl.
  - destruct cur; reflexivity.
  - rewrite is_dot_lower_byte. destruct (is_dot c).
    + destruct cur; simpl; rewrite <- (IH EmptyString); reflexivity.
    + rewrite <- IH, ToLower_append. reflexivity.
Qed.

Lemma FieldsFunc_dot_ToLower (s : string) :
  FieldsFunc_dot (ToLower s) = map ToLower (FieldsFunc_dot s).
Proof. exact (fields_from_ToLower EmptyString s). Qed.

Lemma ToLower_Join (l : list string) :
  ToLower (Join l ".") = Join (map ToLower l) ".".
Proof.
  induction l as [|a [|b rest] IH]; try reflexivity.
  rewrite Join_cons2, !ToLower_append, IH. reflexivity.
Qed.

Lemma ToLower_Join_lower (l : list string) :
  ToLower (Join (map ToLower l) ".") = ToLower (Join l ".").
Proof.
  rewrite !ToLower_Join, map_map. f_equal.
  apply map_ext. intros a. apply ToLower_idem.
Qed.

Lemma last_slice_map (f : string -> string) (l : list string) :
  last_slice (map f l) = map f (last_slice l).
Proof. unfold last_slice. rewrite length_map. apply skipn_map. Qed.

Lemma obfuscate_query_ToLower (rand_bytes : list Z) (secret : option (list Z))
    (qname : string) :
  obfuscate_query rand_bytes secret (ToLower qname)
  = obfuscate_query rand_bytes secret qname.
Proof.
  unfold obfuscate_query.
  rewrite FieldsFunc_dot_ToLower, length_map, last_slice_map.
  rewrite !ToLower_Join_lower. reflexivity.
Qed.

(** X13.  The obfuscator is blind to letter case: two spellings of a
    name that differ only in the case of letters are given the same
    obfuscated name, and leave the secret in the same state. *)
Theorem obfuscate_query_case_blind (rand_bytes : list Z)
    (secret : option (list Z)) (qname1 qname2 : string) :
  ToLower qname1 = ToLower qname2 ->
  obfuscate_query rand_bytes secret qname1
  = obfuscate_query rand_bytes secret qname2.
Proof.
  intros H.
  rewrite <- (obfuscate_query_ToLower _ _ qname1), H.
  apply obfuscate_query_ToLower.
Qed.

(** *** The labels of an obfuscated name *)

Lemma dot_free_append (a b : string) :
  dot_free (a +:+ b) <-> dot_free a /\ dot_free b.
Proof.
  unfold dot_free. induction a as [|c a IH]; simpl.
  - tauto.
  - rewrite !andb_true_iff, IH. tauto.
Qed.

Lemma append_not_empty_r (a b : string) :
  b <> EmptyString -> a +:+ b <> EmptyString.
Proof. intros Hb H. apply append_empty_inv in H. tauto. Qed.

Lemma fields_from_labels (cur s : string) :
  dot_free cur -> List.Forall is_label (fields_from cur s).
Proof.
  revert cur. induction s as [|c s IH]; intros cur Hcur; simpl.
  - destruct cur; [constructor|].
    constructor; [split; [discriminate | exact Hcur] | constructor].
  - destruct (is_dot c) eqn:Hc.
    + destruct cur.
      * apply IH. reflexivity.
      * constructor; [split; [discriminate | exact Hcur]|].
        apply IH. reflexivity.
    + apply IH. apply dot_free_append. split; [exact Hcur|].
      unfold dot_free. simpl. rewrite Hc. reflexivity.
Qed.

Lemma FieldsFunc_dot_labels (s : string) :
  List.Forall is_label (FieldsFunc_dot s).
Proof. apply fields_from_labels. reflexivity. Qed.

Lemma is_label_ToLower (l : string) : is_label l -> is_label (ToLower l).
Proof.
  intros [Hne Hfree]. split.
  - destruct l; [contradiction | discriminate].
  - clear Hne. unfold dot_free in *.
    induction l as [|c l IH]; simpl in *; [reflexivity|].
    apply andb_true_iff in Hfree as [Hc Hl].
    rewrite is_dot_lower_byte, Hc, (IH Hl). reflexivity.
Qed.

Lemma digit_not_dot (n : Z) : is_dot (Hex.digit n) = false.
Proof.
  unfold Hex.digit. generalize (Z.to_nat n) as k. intros k.
  do 17 (destruct k as [|k]; [reflexivity|]).
  destruct k; reflexivity.
Qed.

Lemma Encode_dot_free (bytes : list Z) : dot_free (Hex.Encode bytes).
Proof.
  unfold dot_free. induction bytes as [|b bytes IH]; simpl; [reflexivity|].
  rewrite !digit_not_dot. exact IH.
Qed.

Lemma round_length (st : list Z) (kw : Z * Z) :
  List.length (Sha256.round st kw) = List.length st.
Proof.
  unfold Sha256.round.
  do 9 (destruct st as [|? st]; [reflexivity|]). reflexivity.
Qed.

Lemma block_length (st chunk : list Z) :
  List.length (Sha256.block st chunk) = List.length st.
Proof.
  unfold Sha256.block. rewrite length_map, length_combine.
  assert (H : forall l s, List.length (fold_left Sha256.round l s) = List.length s).
  { induction l as [|kw l IH]; intros s; simpl; [reflexivity|].
    rewrite IH. apply round_length. }
  rewrite H. lia.
Qed.

Lemma blocks_length (n : nat) (st bytes : list Z) :
  List.length (Sha256.blocks n st bytes) = List.length st.
Proof.
  revert st bytes. induction n as [|n IH]; intros st bytes; simpl;
    [reflexivity|].
  rewrite IH. apply block_length.
Qed.

Lemma Sum256_length (msg : list Z) : List.length (Sha256.Sum256 msg) = 32.
Proof.
  unfold Sha256.Sum256.
  pose proof (blocks_length (List.length (Sha256.pad msg) / 64)
                Sha256.init_state (Sha256.pad msg)) as H.
  change (List.length Sha256.init_state) with 8 in H.
  destruct (Sha256.blocks _ _ _) as [|a [|b [|c [|d [|e [|f [|g [|h [|]]]]]]]]];
    try discriminate H.
  reflexivity.
Qed.

Lemma hash_label (msg : list Z) :
  is_label (Hex.Encode (firstn 8 (Sha256.Sum256 msg))).
Proof.
  split; [|apply Encode_dot_free].
  pose proof (Sum256_length msg) as H.
  destruct (Sha256.Sum256 msg); [discriminate H | discriminate].
Qed.

(** X14.  Whatever string comes in, the obfuscated name is a name in
    absolute form whose labels are: the lowercased labels of the input
    when there are fewer than two; and otherwise exactly three, [ymmv],
    the sixteen hexadecimal digits, and the lowercased last label of the
    input.  (So a name that is put through the obfuscator again is
    hashed again.) *)
Theorem obfuscated_name_labels (rand_bytes secret : list Z) (qname : string) :
  let labels := FieldsFunc_dot qname in
  let out := fst (obfuscate_query rand_bytes (Some secret) qname) in
  FieldsFunc_dot out =
    (if (List.length labels <? 2)%nat then map ToLower labels
     else ["ymmv";
           Hex.Encode (firstn 8 (Sha256.Sum256
             (secret ++ bytes_of_string (ToLower (Join labels ".")))));
           ToLower (List.last labels EmptyString)])
  /\ out = Join (FieldsFunc_dot out) "." +:+ "."
  /\ String.length
       (Hex.Encode (firstn 8 (Sha256.Sum256
          (secret ++ bytes_of_string (ToLower (Join labels "."))))))
     = 16.
Proof.
  intros labels out.
  pose proof (FieldsFunc_dot_labels qname) as Hlabels. fold labels in Hlabels.
  assert (Hlow : List.Forall is_label (map ToLower labels)).
  { apply List.Forall_forall. intros l Hl.
    apply in_map_iff in Hl as (l0 & <- & Hl0). apply is_label_ToLower.
    rewrite List.Forall_forall in Hlabels. auto. }
  assert (Hlen16 : forall msg,
            String.length (Hex.Encode (firstn 8 (Sha256.Sum256 msg))) = 16).
  { intros msg. pose proof (Sum256_length msg) as H.
    destruct (Sha256.Sum256 msg) as [|a [|b [|c [|d [|e [|f [|g [|h rest]]]]]]]];
      try discriminate H.
    reflexivity. }
  assert (Hout : out =
            Join (if (List.length labels <? 2)%nat then map ToLower labels
                  else ["ymmv";
                        Hex.Encode (firstn 8 (Sha256.Sum256
                          (secret ++ bytes_of_string (ToLower (Join labels ".")))));
                        ToLower (List.last labels EmptyString)]) "."
            +:+ ".").
  { unfold out. rewrite obfuscate_query_fields. fold labels.
    destruct (List.length labels <? 2)%nat.
    - rewrite ToLower_Join. reflexivity.
    - cbn [Join]. rewrite !append_assoc. reflexivity. }
  assert (Hfields : FieldsFunc_dot out =
            (if (List.length labels <? 2)%nat then map ToLower labels
             else ["ymmv";
                   Hex.Encode (firstn 8 (Sha256.Sum256
                     (secret ++ bytes_of_string (ToLower (Join labels ".")))));
                   ToLower (List.last labels EmptyString)])).
  { rewrite Hout. apply FieldsFunc_dot_Join.
    destruct (Nat.ltb_spec (List.length labels) 2) as [Hlt|Hge]; [exact Hlow|].
    constructor; [split; [discriminate | reflexivity]|].
    constructor; [apply hash_label|].
    constructor; [|constructor].
    rewrite List.Forall_forall in Hlow. apply Hlow.
    apply in_map. destruct labels as [|l0 rest]; [simpl in Hge; lia|].
    destruct (@exists_last _ (l0 :: rest)) as (front & final & E);
      [discriminate|].
    rewrite E, last_last. apply in_or_app. right. left. reflexivity. }
  split; [exact Hfields|]. split; [|apply Hlen16].
  rewrite Hfields. exact Hout.
Qed.

End ObfuscatorMore.

Lemma obfuscate_query_case_blind_witness :
  obfuscate_query [] (Some [0;1;2;3;4;5;6;7]%Z) "Foo.Bar.EXAMPLE.net."
  = obfuscate_query [] (Some [0;1;2;3;4;5;6;7]%Z) "foo.bar.Example.NET.".
Proof.
  apply (obfuscate_query_case_blind [] (Some [0;1;2;3;4;5;6;7]%Z)
           "Foo.Bar.EXAMPLE.net." "foo.bar.Example.NET.").
  reflexivity.
Defined.

(** ** What [DnsQuery] returns and sends *)

Section DnsQueryMore.

Lemma exchanges_app (w w' : Wire) (ex : list (transport * string * Msg.t)) :
  sent w' = sent w ++ ex -> exchanges w w' = ex.
Proof.
  intros H. unfold exchanges. rewrite H.
  rewrite skipn_app, Nat.sub_diag, skipn_all. reflexivity.
Qed.

(** What a call adds to the wire, and what it leaves in [query]. *)
Lemma DnsQuery_sent (world : Network) (w : Wire) (server : string)
    (query : Msg.t) :
  exists ex,
    sent (DnsQuery world w server query).1.2 = sent w ++ ex
    /\ List.length ex <= 2
    /\ List.Forall
         (fun x => x.1.2 = server /\ x.2 = (DnsQuery world w server query).2) ex
    /\ Msg.Question (DnsQuery world w server query).2 = Msg.Question query.
Proof.
  unfold DnsQuery, RandUint16.
  destruct (rand_Int world (calls w)) as [id|e]; simpl.
  - destruct (reply_err (Exchange world _ UDP server _)) as [[|text]|]; simpl;
      try (destruct (reply (Exchange world _ UDP server _)) as [r|]; simpl;
           [destruct ((Msg.Rcode r =? RcodeSuccess)%N && negb (Msg.Truncated r));
            simpl;
            [|destruct (reply_err (Exchange world _ TCP server _)); simpl]|]);
      first
        [ exists [(UDP, server, set_Id (id mod 65536) query)];
          split; [reflexivity|]; split; [simpl; lia|];
          split; [repeat constructor | reflexivity]
        | exists [(UDP, server, set_Id (id mod 65536) query);
                  (TCP, server, set_Id (id mod 65536) query)];
          split; [rewrite <- app_assoc; reflexivity|]; split; [simpl; lia|];
          split; [repeat constructor | reflexivity] ].
  - exists []. rewrite app_nil_r.
    split; [reflexivity|]. split; [simpl; lia|]. split; [constructor | reflexivity].
Qed.

Lemma retried_after_TCP (w : Wire) (s s' : string) (q q' : Msg.t) :
  retried_over_TCP w (log_exchange TCP s q (log_exchange UDP s' q' (tick w)))
  = true.
Proof.
  unfold retried_over_TCP, exchanges, log_exchange, tick. simpl.
  rewrite <- app_assoc, skipn_app, Nat.sub_diag, skipn_all. reflexivity.
Qed.

(** X15.  Of a call to [DnsQuery]: an error comes with no response and a
    zero round-trip time; a response returned without a TCP retry is a
    complete NOERROR response; when the identifier cannot be drawn,
    nothing is sent and the query is left as it was; otherwise the query
    leaves with the drawn identifier, which is below 65536, and is
    otherwise untouched. *)
Theorem DnsQuery_returns (world : Network) (w : Wire) (server : string)
    (query : Msg.t) :
  let '(out, w', query') := DnsQuery world w server query in
  (forall r rtt e, out = Returned r rtt (Some e) -> r = None /\ rtt = 0%N)
  /\ (forall r rtt,
        out = Returned (Some r) rtt None ->
        retried_over_TCP w w' = false ->
        Msg.Rcode r = RcodeSuccess /\ Msg.Truncated r = false)
  /\ (forall e,
        rand_Int world (calls w) = inr e ->
        out = Returned None 0 (Some e) /\ exchanges w w' = []
        /\ query' = query)
  /\ (forall id,
        rand_Int world (calls w) = inl id ->
        query' = set_Id (id mod 65536) query /\ (Msg.Id query' < 65536)%N).
Proof.
  unfold DnsQuery, RandUint16.
  destruct (rand_Int world (calls w)) as [id|e]; simpl.
  - assert (Hid : (id mod 65536 < 65536)%N) by (apply N.mod_lt; discriminate).
    assert (Hlast : forall id' : N, @inl N error id = inl id' ->
              set_Id (id mod 65536) query = set_Id (id' mod 65536) query
              /\ (Msg.Id (set_Id (id mod 65536) query) < 65536)%N).
    { intros id' H. injection H as <-. auto. }
    destruct (reply_err (Exchange world _ UDP server _)) as [[|text]|] eqn:Herr;
      simpl.
    2: { split; [intros r rtt e H; injection H as <- <- _; auto|].
         split; [intros r rtt H; discriminate H|].
         split; [intros e H; discriminate H | exact Hlast]. }
    all: destruct (reply (Exchange world _ UDP server _)) as [r0|]; simpl.
    all: try (split; [intros r rtt e H; discriminate H|];
              split; [intros r rtt H; discriminate H|];
              split; [intros e H; discriminate H | exact Hlast]).
    all: destruct ((Msg.Rcode r0 =? RcodeSuccess)%N && negb (Msg.Truncated r0))
           eqn:Hok; simpl.
    all: try (split; [intros r rtt e H; discriminate H|];
              split; [|split; [intros e H; discriminate H | exact Hlast]];
              intros r rtt H _; injection H as <- _;
              apply andb_true_iff in Hok as [Hrc Htc];
              apply N.eqb_eq in Hrc; apply negb_true_iff in Htc; auto).
    all: destruct (reply_err (Exchange world _ TCP server _)); simpl.
    all: split; [intros r rtt e' H; try discriminate H;
                 injection H as <- <- _; auto|].
    all: split; [|split; [intros e' H; discriminate H | exact Hlast]].
    all: intros r rtt H Hno; try discriminate H.
    all: rewrite retried_after_TCP in Hno; discriminate Hno.
  - split; [intros r rtt e' H; injection H as <- <- _; auto|].
    split; [intros r rtt H; discriminate H|].
    split; [|intros id H; discriminate H].
    intros e' H. injection H as <-.
    split; [reflexivity|]. split; [|reflexivity].
    unfold exchanges, tick. simpl. apply skipn_all.
Qed.

End DnsQueryMore.

(** ** The names that [yeti_query] asks for *)

Section ReplayNames.
Context `{codec : Codec} `{gosort : GoSort}.
Hypothesis Hkeeps : keeps_question.

(** One turn of the loop: the question it leaves in the query, the
    secret it leaves, and what it sends. *)
Lemma yeti_query_body_asks (world : Network) (order : range_order)
    (rand_bytes : list Z) (clear_names : bool) (edns_size : N)
    (tgt : target) (t t' : task) (question : Question.t)
    (rest : list Question.t) :
  Msg.Question (iana_query t) = question :: rest ->
  yeti_query_body world order rand_bytes clear_names edns_size tgt t = Some t' ->
  let renamed :=
    if clear_names then (Question.Name question, obfuscate_secret t)
    else obfuscate_query rand_bytes (obfuscate_secret t) (Question.Name question) in
  Msg.Question (iana_query t')
    = Question.mk renamed.1 (Question.Qtype question) (Question.Qclass question)
        :: rest
  /\ obfuscate_secret t' = renamed.2
  /\ exists ex,
       sent (wire t') = sent (wire t) ++ ex
       /\ List.length ex <= 2
       /\ List.Forall (asks (address_of tgt) renamed.1) ex.
Proof.
  intros Hq H. cbv zeta.
  remember (if clear_names then (Question.Name question, obfuscate_secret t)
            else obfuscate_query rand_bytes (obfuscate_secret t)
                   (Question.Name question)) as renamed eqn:Hren.
  revert H. unfold yeti_query_body. rewrite Hq. simpl. rewrite <- Hren.
  clear Hren. destruct renamed as [qname secret]. simpl.
  unfold set_Question0_Name. rewrite Hq. simpl.
  match goal with
  | |- context [DnsQuery world (wire t) ?server ?query] =>
      pose proof (DnsQuery_sent world (wire t) server query)
        as (ex & Hsent & Hlen & Hex & Hquestion);
      destruct (DnsQuery world (wire t) server query) as [[out w] query']
  end.
  simpl in Hsent, Hex, Hquestion.
  assert (Hq' : Msg.Question query'
                = Question.mk qname (Question.Qtype question)
                    (Question.Qclass question) :: rest).
  { rewrite Hquestion. destruct (edns_size =? 0)%N; [reflexivity|].
    rewrite Hkeeps. reflexivity. }
  assert (Hasks : List.Forall (asks (address_of tgt) qname) ex).
  { eapply List.Forall_impl; [|exact Hex]. intros x [Hs Hm].
    split; [exact Hs|]. rewrite Hm, Hq'. reflexivity. }
  intros H.
  assert (Ht' : iana_query t' = query' /\ obfuscate_secret t' = secret
                /\ wire t' = w).
  { destruct out as [[yeti_resp|] rtt [err|]|]; try discriminate H.
    - injection H as <-. auto.
    - destruct (compare_resp order (iana_resp t) yeti_resp); [|discriminate H].
      injection H as <-. auto.
    - injection H as <-. auto.
    - destruct (skip_comparison (iana_resp t)) as [[|]|]; try discriminate H.
      injection H as <-. auto. }
  destruct Ht' as (-> & -> & ->).
  split; [exact Hq'|]. split; [reflexivity|]. eauto.
Qed.

(** X16.  With obfuscation on, the loop of [yeti_query] writes the name
    it has just asked for into the query, and obfuscates that name anew
    for the next target: the first target is asked for the obfuscation
    of the captured name, the second for the obfuscation of the first
    target's name.  Every exchange goes to the target's address at port
    53 and carries the name of its turn. *)
Theorem yeti_query_obfuscates_anew (world : Network) (order : range_order)
    (rand_bytes : list Z) (edns_size : N) (tgt1 tgt2 : target)
    (t t' : task) (question : Question.t) (rest : list Question.t) :
  Msg.Question (iana_query t) = question :: rest ->
  yeti_query_loop world order rand_bytes false edns_size [tgt1; tgt2] t
    = Some t' ->
  let first :=
    obfuscate_query rand_bytes (obfuscate_secret t) (Question.Name question) in
  let second := obfuscate_query rand_bytes first.2 first.1 in
  Msg.Question (iana_query t')
    = Question.mk second.1 (Question.Qtype question) (Question.Qclass question)
        :: rest
  /\ obfuscate_secret t' = second.2
  /\ exists ex1 ex2,
       exchanges (wire t) (wire t') = ex1 ++ ex2
       /\ List.Forall (asks (address_of tgt1) first.1) ex1
       /\ List.Forall (asks (address_of tgt2) second.1) ex2.
Proof.
  intros Hq H first second. simpl in H.
  destruct (yeti_query_body world order rand_bytes false edns_size tgt1 t)
    as [t1|] eqn:H1; [|discriminate H]. simpl in H.
  destruct (yeti_query_body world order rand_bytes false edns_size tgt2 t1)
    as [t2|] eqn:H2; [|discriminate H]. simpl in H.
  injection H as <-.
  destruct (yeti_query_body_asks _ _ _ _ _ _ _ _ _ _ Hq H1)
    as (Hq1 & Hs1 & ex1 & Hsent1 & _ & Hex1).
  destruct (yeti_query_body_asks _ _ _ _ _ _ _ _ _ _ Hq1 H2)
    as (Hq2 & Hs2 & ex2 & Hsent2 & _ & Hex2).
  cbn [Question.Name Question.Qtype Question.Qclass] in Hq2, Hs2, Hex2.
  rewrite Hs1 in Hq2, Hs2, Hex2.
  split; [exact Hq2|]. split; [exact Hs2|].
  exists ex1, ex2. split; [|split; [exact Hex1 | exact Hex2]].
  apply exchanges_app. rewrite Hsent2, Hsent1, app_assoc. reflexivity.
Qed.

(** X17.  With clear names, whatever the number of targets, the loop of
    [yeti_query] leaves the question of the query as it was and draws no
    obfuscation secret; it makes at most two exchanges per target, each
    with the address of one of the targets at port 53 and each asking
    for the captured name. *)
Theorem yeti_query_clear_names (world : Network) (order : range_order)
    (rand_bytes : list Z) (edns_size : N) (targets : list target)
    (t t' : task) (question : Question.t) (rest : list Question.t) :
  Msg.Question (iana_query t) = question :: rest ->
  yeti_query_loop world order rand_bytes true edns_size targets t = Some t' ->
  Msg.Question (iana_query t') = Msg.Question (iana_query t)
  /\ obfuscate_secret t' = obfuscate_secret t
  /\ List.length (exchanges (wire t) (wire t')) <= 2 * List.length targets
  /\ List.Forall
       (fun x => asks x.1.2 (Question.Name question) x
                 /\ exists tgt, In tgt targets /\ x.1.2 = address_of tgt)
       (exchanges (wire t) (wire t')).
Proof.
  intros Hq H.
  assert (Hall : exists ex,
            sent (wire t') = sent (wire t) ++ ex
            /\ Msg.Question (iana_query t') = Msg.Question (iana_query t)
            /\ obfuscate_secret t' = obfuscate_secret t
            /\ List.length ex <= 2 * List.length targets
            /\ List.Forall
                 (fun x => asks x.1.2 (Question.Name question) x
                           /\ exists tgt, In tgt targets /\ x.1.2 = address_of tgt)
                 ex).
  { revert t Hq H. induction targets as [|tgt targets IH]; intros t Hq H.
    - simpl in H. injection H as <-. exists []. rewrite app_nil_r.
      repeat split; auto.
    - simpl in H.
      destruct (yeti_query_body world order rand_bytes true edns_size tgt t)
        as [t1|] eqn:H1; [|discriminate H]. simpl in H.
      destruct (yeti_query_body_asks _ _ _ _ _ _ _ _ _ _ Hq H1)
        as (Hq1 & Hs1 & ex1 & Hsent1 & Hlen1 & Hex1).
      cbn [fst snd] in Hq1, Hs1, Hex1.
      assert (Hq1' : Msg.Question (iana_query t1) = question :: rest)
        by (rewrite Hq1; destruct question; reflexivity).
      destruct (IH t1 Hq1' H) as (ex & Hsent & Hquestion & Hsecret & Hlen & Hex).
      exists (ex1 ++ ex).
      split; [rewrite Hsent, Hsent1, app_assoc; reflexivity|].
      split; [congruence|]. split; [congruence|].
      split; [rewrite length_app; simpl; lia|].
      apply List.Forall_app. split.
      + eapply List.Forall_impl; [|exact Hex1]. intros x [Hs Hn].
        split; [split; [reflexivity | exact Hn]|].
        exists tgt. split; [left; reflexivity | exact Hs].
      + eapply List.Forall_impl; [|exact Hex]. intros x [Ha (tgt' & Hin & Hs)].
        split; [exact Ha|]. exists tgt'. split; [right; exact Hin | exact Hs]. }
  destruct Hall as (ex & Hsent & Hquestion & Hsecret & Hlen & Hex).
  rewrite (exchanges_app _ _ _ Hsent). auto.
Qed.

End ReplayNames.

Lemma keeps_question_plain : keeps_question (codec := Reference.plain_codec).
Proof. intros msg udpsize. reflexivity. Qed.

Lemma yeti_query_obfuscates_anew_witness :
  exists t',
    yeti_query_loop (codec := Reference.plain_codec)
      (gosort := Reference.insertion) DnsQueryExample.world
      Reference.as_listed [] false 4093
      [CaptureExample.server; ReplayExample.other_server] ReplayExample.start
    = Some t'
    /\ let first :=
         obfuscate_query [] (Some [0;1;2;3;4;5;6;7]%Z) "nonexistent.example." in
       let second := obfuscate_query [] first.2 first.1 in
       Msg.Question (iana_query t') = [Question.mk second.1 1 1]
       /\ obfuscate_secret t' = second.2
       /\ exists ex1 ex2,
            exchanges idle (wire t') = ex1 ++ ex2
            /\ List.Forall (asks (address_of CaptureExample.server) first.1) ex1
            /\ List.Forall (asks (address_of ReplayExample.other_server) second.1)
                 ex2.
Proof.
  eexists. split; [vm_compute; reflexivity|].
  apply (yeti_query_obfuscates_anew (codec := Reference.plain_codec)
           (gosort := Reference.insertion) keeps_question_plain
           DnsQueryExample.world Reference.as_listed [] 4093
           CaptureExample.server ReplayExample.other_server
           ReplayExample.start _ (Question.mk "nonexistent.example." 1 1) []).
  - reflexivity.
  - vm_compute. reflexivity.
Defined.

Lemma yeti_query_clear_names_witness :
  exists t',
    yeti_query_loop (codec := Reference.plain_codec)
      (gosort := Reference.insertion) DnsQueryExample.world
      Reference.as_listed [] true 4093
      [CaptureExample.server; ReplayExample.other_server] ReplayExample.start
    = Some t'
    /\ Msg.Question (iana_query t') = Msg.Question (iana_query ReplayExample.start)
    /\ obfuscate_secret t' = obfuscate_secret ReplayExample.start
    /\ List.length (exchanges idle (wire t')) <= 2 * 2
    /\ List.Forall
         (fun x => asks x.1.2 "nonexistent.example." x
                   /\ exists tgt,
                        In tgt [CaptureExample.server; ReplayExample.other_server]
                        /\ x.1.2 = address_of tgt)
         (exchanges idle (wire t')).
Proof.
  eexists. split; [vm_compute; reflexivity|].
  apply (yeti_query_clear_names (codec := Reference.plain_codec)
           (gosort := Reference.insertion) keeps_question_plain
           DnsQueryExample.world Reference.as_listed [] 4093
           [CaptureExample.server; ReplayExample.other_server]
           ReplayExample.start _ (Question.mk "nonexistent.example." 1 1) []).
  - reflexivity.
  - vm_compute. reflexivity.
Defined.

(** ** Reading well-formed records *)

Section FrameRecords.
Context `{codec : Codec}.
Import Layout.











End FrameRecords.




(** ** The books that the main loop keeps *)

Section MainBookkeeping.
Import MainEvents.

Lemma main_steps_from (events : list event) (v : vars) :
  fold_left main_step events (in_main_loop, v)
  = (in_main_loop,
     mkVars (query_count v + Z.of_nat (List.length (messages events))
             - Z.of_nat (List.length (reports events)))%Z
            (printed v ++ reports events)
            (started v ++ messages events)).
Proof.
  revert v. induction events as [|e events IH]; intros v.
  - destruct v as [n p s]. simpl. rewrite !app_nil_r. do 2 f_equal. lia.
  - unfold messages, reports in *. rewrite !omap_cons.
    destruct e as [[y|]|str]; cbn [fold_left main_step main_select after_select];
      rewrite IH; cbn [query_count printed started];
      rewrite <- ?app_assoc; cbn [List.length app]; do 2 f_equal; lia.
Qed.

(** X20.  Whatever the main loop receives, and in whatever order: it
    prints exactly the reports it has received, in the order received,
    and nothing else; it has started one query task per message other
    than nil, in the order received; and [query_count] is the number of
    tasks started less the number of reports printed. *)
Theorem main_bookkeeping (events : list event) :
  let v := (main_run events).2 in
  printed v = reports events
  /\ started v = messages events
  /\ query_count v
     = (Z.of_nat (List.length (started v)) - Z.of_nat (List.length (printed v)))%Z.
Proof.
  unfold main_run, main_start. rewrite main_steps_from. simpl.
  repeat split; lia.
Qed.

End MainBookkeeping.

(** ** The stub resolver: handing out answers *)

Section ResolverWaiting.
Import Resolver Pending.

Lemma take_finished_first (handle : Z) (before after : list answer.t)
    (a : answer.t) :
  answer.handle a = handle ->
  List.Forall (other_than handle) before ->
  take_finished handle (before ++ a :: after) = Some (a, before ++ after).
Proof.
  intros Ha. induction 1 as [|b before Hb _ IH]; simpl.
  - rewrite Ha, Z.eqb_refl. reflexivity.
  - destruct (Z.eqb_spec (answer.handle b) handle) as [E|_]; [contradiction|].
    rewrite IH. reflexivity.
Qed.

Lemma take_finished_none (handle : Z) (l : list answer.t) :
  List.Forall (other_than handle) l -> take_finished handle l = None.
Proof.
  induction 1 as [|b l Hb _ IH]; simpl; [reflexivity|].
  destruct (Z.eqb_spec (answer.handle b) handle) as [E|_]; [contradiction|].
  rewrite IH. reflexivity.
Qed.

Lemma take_finished_app (handle : Z) (l k : list answer.t) :
  take_finished handle (l ++ k) =
    match take_finished handle l with
    | Some (a, rest) => Some (a, rest ++ k)
    | None =>
        match take_finished handle k with
        | Some (a, rest) => Some (a, l ++ rest)
        | None => None
        end
    end.
Proof.
  induction l as [|b l IH]; simpl.
  - destruct (take_finished handle k) as [[a rest]|]; reflexivity.
  - destruct (answer.handle b =? handle)%Z; [reflexivity|].
    rewrite IH.
    destruct (take_finished handle l) as [[a rest]|]; [reflexivity|].
    destruct (take_finished handle k) as [[a rest]|]; reflexivity.
Qed.

Lemma receive_until_take (handle : Z) (channel finished : list answer.t) :
  match take_finished handle channel with
  | Some (a, rest) =>
      exists channel' finished',
        receive_until handle channel finished = (Some a, channel', finished')
        /\ finished' ++ channel' = finished ++ rest
  | None =>
      receive_until handle channel finished = (None, [], finished ++ channel)
  end.
Proof.
  revert finished. induction channel as [|b channel IH]; intros finished; simpl.
  - rewrite app_nil_r. reflexivity.
  - destruct (answer.handle b =? handle)%Z.
    + exists channel, finished. split; reflexivity.
    + specialize (IH (finished ++ [b])).
      destruct (take_finished handle channel) as [[a rest]|].
      * destruct IH as (channel' & finished' & -> & E).
        exists channel', finished'. split; [reflexivity|].
        rewrite E, <- app_assoc. reflexivity.
      * rewrite IH, <- app_assoc. reflexivity.
Qed.

(** [WaitByHandle] in terms of the pending answers. *)
Lemma WaitByHandle_pending (resolver : StubResolver) (handle : Z) :
  match take_finished handle (pending resolver) with
  | Some (a, rest) =>
      exists resolver',
        WaitByHandle resolver handle = Waited (returned_fields a) resolver'
        /\ pending resolver' = rest
  | None =>
      exists resolver',
        pending resolver' = pending resolver
        /\ queued (answers resolver') = []
        /\ WaitByHandle resolver handle
           = if closed (answers resolver) then Wait_panics
             else Blocks resolver'
  end.
Proof.
  unfold pending, WaitByHandle. rewrite take_finished_app.
  destruct (take_finished handle (finished_answers resolver)) as [[a rest]|].
  - eexists. split; reflexivity.
  - pose proof (receive_until_take handle (queued (answers resolver))
                  (finished_answers resolver)) as H.
    destruct (take_finished handle (queued (answers resolver))) as [[a rest]|].
    + destruct H as (channel' & finished' & -> & E).
      eexists. split; [reflexivity | exact E].
    + rewrite H. eexists. split; [|split; [|reflexivity]]; simpl;
        [apply app_nil_r | reflexivity].
Qed.

(** X21.  [Wait] hands out the pending answers oldest first: those that
    [WaitByHandle] has set aside, in the order they arrived, before
    those still in the channel.  With nothing pending it blocks, or, on
    the closed channel, panics on the nil answer that it receives. *)
Theorem Wait_oldest_first (resolver : StubResolver) :
  match pending resolver with
  | a :: rest =>
      exists resolver',
        Wait resolver = Waited (returned_fields a) resolver'
        /\ pending resolver' = rest
  | [] =>
      Wait resolver = if closed (answers resolver) then Wait_panics
                      else Blocks resolver
  end.
Proof.
  unfold pending, Wait.
  destruct (finished_answers resolver) as [|a rest]; simpl.
  - destruct (queued (answers resolver)) as [|a rest]; [reflexivity|].
    eexists. split; reflexivity.
  - eexists. split; reflexivity.
Qed.

(** X22.  [WaitByHandle] returns the oldest pending answer that bears
    the handle and leaves all the others pending, in their order: no
    answer is lost or overtaken.  When no pending answer bears the
    handle, it sets every answer of the channel aside, in order, and
    blocks, or, on the closed channel, panics. *)
Theorem WaitByHandle_finds (resolver : StubResolver) (handle : Z) :
  (forall before a after,
     pending resolver = before ++ a :: after ->
     answer.handle a = handle ->
     List.Forall (other_than handle) before ->
     exists resolver',
       WaitByHandle resolver handle = Waited (returned_fields a) resolver'
       /\ pending resolver' = before ++ after)
  /\ (List.Forall (other_than handle) (pending resolver) ->
      exists resolver',
        pending resolver' = pending resolver
        /\ queued (answers resolver') = []
        /\ WaitByHandle resolver handle
           = if closed (answers resolver) then Wait_panics
             else Blocks resolver').
Proof.
  pose proof (WaitByHandle_pending resolver handle) as H. split.
  - intros before a after Hp Ha Hbefore.
    rewrite Hp, (take_finished_first _ _ _ _ Ha Hbefore) in H. exact H.
  - intros Hnone. rewrite (take_finished_none _ _ Hnone) in H. exact H.
Qed.

End ResolverWaiting.

(** ** The stub resolver: asking, and closing *)

Section ResolverAsking.
Import Resolver Pending.



(** X24.  Once [Close] has returned, a further [Query] panics (it sends
    on the closed channel) and so does a second [Close]; the answers
    pending at that time can still be collected, but when none is
    pending, or none bears the handle asked for, [Wait] and
    [WaitByHandle] panic on the nil answer instead of blocking. *)
Theorem Close_then (resolver resolver' : StubResolver) :
  Close resolver = Some resolver' ->
  (forall qname rtype, Query resolver' qname rtype = None)
  /\ Close resolver' = None
  /\ pending resolver' = pending resolver
  /\ (pending resolver = [] -> Wait resolver' = Wait_panics)
  /\ (forall handle,
        List.Forall (other_than handle) (pending resolver) ->
        WaitByHandle resolver' handle = Wait_panics).
Proof.
  unfold Close, close. intros H.
  destruct (closed (queries resolver)); [discriminate H|]. simpl in H.
  destruct (closed (answers resolver)); [discriminate H|]. simpl in H.
  injection H as <-.
  split; [reflexivity|]. split; [reflexivity|]. split; [reflexivity|]. split.
  - intros Hnone.
    unfold pending in Hnone. apply app_eq_nil in Hnone as [Hf Hq].
    unfold Wait. simpl. rewrite Hf, Hq. reflexivity.
  - intros handle Hnone.
    match goal with
    | |- WaitByHandle ?r handle = _ =>
        pose proof (WaitByHandle_pending r handle) as H
    end.
    unfold pending in H at 1. simpl in H. fold (pending resolver) in H.
    rewrite (take_finished_none _ _ Hnone) in H.
    destruct H as (r' & _ & _ & H). exact H.
Qed.

End ResolverAsking.

(** ** The stub resolver: the worker *)

Section ResolverWorker.
Import Resolver Pending.

Lemma DnsQuery_ends (world : Network) (w : Wire) (server : string)
    (query : Msg.t) :
  (forall r rtt e,
     (DnsQuery world w server query).1.1 = Returned r rtt (Some e) ->
     r = None /\ rtt = 0%N)
  /\ Msg.RecursionDesired (DnsQuery world w server query).2
     = Msg.RecursionDesired query.
Proof.
  unfold DnsQuery, RandUint16.
  destruct (rand_Int world (calls w)) as [id|e]; simpl.
  - destruct (reply_err (Exchange world _ UDP server _)) as [[|text]|]; simpl.
    2: { split; [intros r rtt e H; injection H as <- <- _; auto | reflexivity]. }
    all: destruct (reply (Exchange world _ UDP server _)) as [r0|]; simpl.
    all: try (split; [intros r rtt e H; discriminate H | reflexivity]).
    all: destruct ((Msg.Rcode r0 =? RcodeSuccess)%N && negb (Msg.Truncated r0));
      simpl.
    all: try (split; [intros r rtt e H; discriminate H | reflexivity]).
    all: destruct (reply_err (Exchange world _ TCP server _)); simpl.
    all: split; [intros r rtt e' H; try discriminate H;
                 injection H as <- <- _; auto | reflexivity].
  - split; [intros r rtt e' H; injection H as <- <- _; auto | reflexivity].
Qed.

(** Of the loop over the servers. *)
Lemma try_servers_inv (world : Network) (servers : list string) :
  forall (dns_query : Msg.t) (a0 : answer.t) (w : Wire) (a : answer.t)
         (w' : Wire),
    try_servers world servers dns_query a0 w = Some (a, w') ->
    (answer.handle a = answer.handle a0
     /\ answer.qname a = answer.qname a0
     /\ answer.rtype a = answer.rtype a0)
    /\ ((answer.err a0 <> None -> answer.answer a0 = None /\ answer.rtt a0 = 0%N)
        -> answer.err a <> None -> answer.answer a = None /\ answer.rtt a = 0%N)
    /\ (servers = [] -> a = a0 /\ w' = w)
    /\ (exists ex,
          sent w' = sent w ++ ex
          /\ List.Forall
               (fun x =>
                  (exists server, In server servers
                                  /\ x.1.2 = resolver_address server)
                  /\ Msg.Question x.2 = Msg.Question dns_query
                  /\ Msg.RecursionDesired x.2 = Msg.RecursionDesired dns_query)
               ex)
    /\ (answer.answer a0 = None -> answer.answer a <> None ->
        forall more,
          try_servers world (servers ++ more) dns_query a0 w = Some (a, w')).
Proof.
  induction servers as [|server servers IH]; intros dq a0 w a w' H.
  - simpl in H. injection H as <- <-.
    split; [auto|]. split; [auto|]. split; [auto|]. split.
    + exists []. rewrite app_nil_r. split; [reflexivity | constructor].
    + intros H0 H1. contradiction.
  - simpl in H. simpl app. cbn [try_servers].
    pose proof (DnsQuery_sent world w (resolver_address server) dq)
      as (ex1 & Hsent1 & _ & Hex1 & Hq1).
    pose proof (DnsQuery_ends world w (resolver_address server) dq)
      as [Herr1 Hrd1].
    destruct (DnsQuery world w (resolver_address server) dq)
      as [[out w1] dq1].
    simpl in Hsent1, Hex1, Hq1, Herr1, Hrd1.
    destruct out as [r rtt err|]; [|discriminate H].
    assert (Hfirst : List.Forall
              (fun x =>
                 (exists server0, In server0 (server :: servers)
                                  /\ x.1.2 = resolver_address server0)
                 /\ Msg.Question x.2 = Msg.Question dq
                 /\ Msg.RecursionDesired x.2 = Msg.RecursionDesired dq) ex1).
    { eapply List.Forall_impl; [|exact Hex1]. intros x [Hs Hm].
      split; [exists server; split; [left; reflexivity | exact Hs]|].
      rewrite Hm. auto. }
    destruct r as [r|].
    + injection H as <- <-. simpl.
      split; [auto|]. split.
      { intros _ He. destruct err as [e|]; [|contradiction].
        destruct (Herr1 _ _ _ eq_refl) as [Hr _]. discriminate Hr. }
      split; [discriminate|]. split; [eauto|].
      intros _ _ more. reflexivity.
    + apply IH in H as ((Hh & Hn & Ht) & Herr & _ & (ex & Hsent & Hex) & Hmore).
      simpl in Hh, Hn, Ht, Herr, Hmore.
      split; [auto|]. split.
      { intros _. apply Herr. intros He.
        destruct err as [e|]; [|contradiction].
        destruct (Herr1 _ _ _ eq_refl) as [_ ->]. auto. }
      split; [discriminate|]. split.
      * exists (ex1 ++ ex). split; [rewrite Hsent, Hsent1, app_assoc; reflexivity|].
        apply List.Forall_app. split; [exact Hfirst|].
        eapply List.Forall_impl; [|exact Hex].
        intros x ((server0 & Hin & Hs) & Hq & Hrd).
        split; [exists server0; split; [right; exact Hin | exact Hs]|].
        rewrite Hq, Hrd, Hq1, Hrd1. auto.
      * intros _ Ha more. apply Hmore; [reflexivity | exact Ha].
Qed.

(** X25.  Of one turn of a worker, when it does not panic: the answer
    bears the handle, name and type of the query; an error never comes
    with a response; every exchange goes to one of the servers, at port
    53 (in brackets when the address holds a colon), and asks the one
    question (name, type, class IN) with the RD bit set; with no server
    nothing is sent and the answer holds neither response nor error; and
    once a server has given a response, the servers listed after it are
    never consulted. *)
Theorem stub_resolve_turn_answers (world : Network) (dns_Id : nat -> N)
    (servers : list string) (q : query.t) (w w' : Wire) (a : answer.t) :
  stub_resolve_turn world dns_Id servers q w = Some (a, w') ->
  (answer.handle a = query.handle q
   /\ answer.qname a = query.qname q
   /\ answer.rtype a = query.rtype q)
  /\ (answer.err a <> None -> answer.answer a = None /\ answer.rtt a = 0%N)
  /\ (servers = [] ->
      answer.answer a = None /\ answer.err a = None /\ w' = w)
  /\ List.Forall
       (fun x =>
          (exists server, In server servers /\ x.1.2 = resolver_address server)
          /\ Msg.Question x.2
             = [Question.mk (query.qname q) (query.rtype q) ClassINET]
          /\ Msg.RecursionDesired x.2 = true)
       (exchanges w w')
  /\ (answer.answer a <> None ->
      forall more,
        stub_resolve_turn world dns_Id (servers ++ more) q w = Some (a, w')).
Proof.
  unfold stub_resolve_turn. intros H.
  apply try_servers_inv in H
    as (Hid & Herr & Hnil & (ex & Hsent & Hex) & Hmore).
  simpl in Hid, Herr, Hmore.
  split; [exact Hid|]. split; [apply Herr; intros He; contradiction|].
  split.
  - intros Hs. destruct (Hnil Hs) as [-> ->]. auto.
  - split; [rewrite (exchanges_app _ _ _ Hsent); exact Hex|].
    intros Ha more. apply Hmore; [reflexivity | exact Ha].
Qed.

End ResolverWorker.

Section ResolverStart.
Import Resolver Pending.

(** X26.  [Init] without any server: no server address is given and the
    resolver configuration names none.  For a concurrency within Go's
    [int], and a runtime whose bound on buffer sizes is within it too,
    [Init] returns a resolver exactly when four times the concurrency is
    a size that [make] accepts: the concurrency is not negative and its
    fourfold is within the bound, or it is so far below zero that both
    products wrap around to sizes within the bound (no worker is started
    then).  In every other case [Init] panics, as it does when a product
    wraps around to a negative size.  The resolver returned has nothing
    pending and its handle counter at zero; each turn of a worker then
    answers with neither a response nor an error, and sends nothing. *)
Theorem Init_without_servers (limit concurrency : Z) :
  (limit <= 9223372036854775807)%Z ->
  (-9223372036854775808 <= concurrency <= 9223372036854775807)%Z ->
  let accepted :=
    (0 <= concurrency /\ concurrency * 4 <= limit
     \/ 0 <= (concurrency + 9223372036854775808) * 4 <= limit)%Z in
  (accepted ->
   exists resolver,
     Init limit (inr []) concurrency []
       = Init_returns resolver [] (Z.to_nat concurrency)
     /\ pending resolver = []
     /\ next_handle resolver = 0%Z)
  /\ (~ accepted -> Init limit (inr []) concurrency [] = Init_panics)
  /\ forall world dns_Id q w,
       stub_resolve_turn world dns_Id [] q w
       = Some (answer.mk (query.handle q) (query.qname q) (query.rtype q)
                 None 0 None, w).
Proof.
  intros Hlimit Hint accepted. subst accepted.
  unfold Init, make_sized, wrap_int. cbn [List.length Nat.eqb].
  split; [|split].
  - intros Hok.
    destruct (Z.ltb_spec
      ((concurrency * 4 + 9223372036854775808) mod 18446744073709551616
       - 9223372036854775808) 0) as [H1|H1]; [exfalso; Z.div_mod_to_equations; lia|].
    destruct (Z.ltb_spec limit
      ((concurrency * 4 + 9223372036854775808) mod 18446744073709551616
       - 9223372036854775808)) as [H2|H2]; [exfalso; Z.div_mod_to_equations; lia|].
    destruct (Z.ltb_spec
      ((concurrency * 2 + 9223372036854775808) mod 18446744073709551616
       - 9223372036854775808) 0) as [H3|H3]; [exfalso; Z.div_mod_to_equations; lia|].
    destruct (Z.ltb_spec limit
      ((concurrency * 2 + 9223372036854775808) mod 18446744073709551616
       - 9223372036854775808)) as [H4|H4]; [exfalso; Z.div_mod_to_equations; lia|].
    cbn [orb]. eexists. split; [reflexivity|]. split; reflexivity.
  - intros Hno.
    destruct (Z.ltb_spec
      ((concurrency * 4 + 9223372036854775808) mod 18446744073709551616
       - 9223372036854775808) 0) as [H1|H1]; [reflexivity|].
    destruct (Z.ltb_spec limit
      ((concurrency * 4 + 9223372036854775808) mod 18446744073709551616
       - 9223372036854775808)) as [H2|H2]; [reflexivity|].
    destruct (Z.ltb_spec
      ((concurrency * 2 + 9223372036854775808) mod 18446744073709551616
       - 9223372036854775808) 0) as [H3|H3]; [reflexivity|].
    destruct (Z.ltb_spec limit
      ((concurrency * 2 + 9223372036854775808) mod 18446744073709551616
       - 9223372036854775808)) as [H4|H4]; [reflexivity|].
    exfalso. apply Hno. Z.div_mod_to_equations. lia.
  - reflexivity.
Qed.

End ResolverStart.


Lemma Close_then_witness :
  let closed_resolver :=
    Resolver.mkStubResolver 0 (Resolver.mkChan [] true)
      (Resolver.mkChan [] true) [] in
  (forall qname rtype, Resolver.Query closed_resolver qname rtype = None)
  /\ Resolver.Close closed_resolver = None
  /\ Pending.pending closed_resolver = Pending.pending ResolverExample.fresh
  /\ (Pending.pending ResolverExample.fresh = [] ->
      Resolver.Wait closed_resolver = Resolver.Wait_panics)
  /\ (forall handle,
        List.Forall (Pending.other_than handle)
          (Pending.pending ResolverExample.fresh) ->
        Resolver.WaitByHandle closed_resolver handle = Resolver.Wait_panics).
Proof.
  apply (Close_then ResolverExample.fresh). reflexivity.
Defined.

Lemma stub_resolve_turn_answers_witness :
  exists a w',
    Resolver.stub_resolve_turn DnsQueryExample.world (fun _ => 0%N)
      ResolverExample.servers ResolverExample.asked idle = Some (a, w')
    /\ (Resolver.answer.handle a = 1%Z
        /\ Resolver.answer.qname a = "nonexistent.example."
        /\ Resolver.answer.rtype a = 1%N)
    /\ (Resolver.answer.err a <> None ->
        Resolver.answer.answer a = None /\ Resolver.answer.rtt a = 0%N)
    /\ (ResolverExample.servers = [] ->
        Resolver.answer.answer a = None /\ Resolver.answer.err a = None
        /\ w' = idle)
    /\ List.Forall
         (fun x =>
            (exists server, In server ResolverExample.servers
                            /\ x.1.2 = Resolver.resolver_address server)
            /\ Msg.Question x.2
               = [Question.mk "nonexistent.example." 1 Resolver.ClassINET]
            /\ Msg.RecursionDesired x.2 = true)
         (exchanges idle w')
    /\ (Resolver.answer.answer a <> None ->
        forall more,
          Resolver.stub_resolve_turn DnsQueryExample.world (fun _ => 0%N)
            (ResolverExample.servers ++ more) ResolverExample.asked idle
          = Some (a, w')).
Proof.
  eexists. eexists. split; [vm_compute; reflexivity|].
  apply (stub_resolve_turn_answers DnsQueryExample.world (fun _ => 0%N)
           ResolverExample.servers ResolverExample.asked idle).
  vm_compute. reflexivity.
Defined.

Lemma Init_without_servers_witness :
  (((0 <= 2 /\ 2 * 4 <= 1024
     \/ 0 <= (2 + 9223372036854775808) * 4 <= 1024)%Z ->
    exists resolver,
      Resolver.Init 1024 (inr []) 2 []
        = Resolver.Init_returns resolver [] (Z.to_nat 2)
      /\ Pending.pending resolver = []
      /\ Resolver.next_handle resolver = 0%Z)
   /\ (~ (0 <= 2 /\ 2 * 4 <= 1024
          \/ 0 <= (2 + 9223372036854775808) * 4 <= 1024)%Z ->
       Resolver.Init 1024 (inr []) 2 [] = Resolver.Init_panics)
   /\ forall world dns_Id q w,
        Resolver.stub_resolve_turn world dns_Id [] q w
        = Some (Resolver.answer.mk (Resolver.query.handle q)
                  (Resolver.query.qname q) (Resolver.query.rtype q)
                  None 0 None, w))
  /\ Resolver.Init 1024 (inr []) 2 []
     = Resolver.Init_returns ResolverExample.fresh [] 2.
Proof.
  split; [|reflexivity].
  apply (Init_without_servers 1024 2); lia.
Defined.

(** At a concurrency of 2^61 the first product wraps around to a negative
    size, and [make] panics; at the least [int] both products wrap
    around to zero, and [Init] returns a resolver without workers. *)
Example Init_size_wraps :
  Resolver.Init 1024 (inr []) 2305843009213693952 [] = Resolver.Init_panics
  /\ Resolver.Init 1024 (inr []) (-9223372036854775808) []
     = Resolver.Init_returns ResolverExample.fresh [] 0.
Proof. split; reflexivity. Qed.

Section ResolverWorkerLoop.
Import Resolver Pending.


End ResolverWorkerLoop.


(** ** What [main] makes of its command line *)

Section SetupFacts.
Import Setup.
Variable ParseIP : string -> option string.

Lemma parse_servers_spec (args acc : list string) :
  match parse_servers ParseIP args acc with
  | inl server =>
      exists before after,
        args = before ++ server :: after
        /\ List.Forall (fun a => ParseIP a <> None) before
        /\ ParseIP server = None
  | inr ips =>
      exists parsed, ips = acc ++ parsed /\ map ParseIP args = map Some parsed
  end.
Proof.
  revert acc. induction args as [|a args IH]; intros acc; simpl.
  - exists []. rewrite app_nil_r. auto.
  - destruct (ParseIP a) as [ip|] eqn:Ha.
    + specialize (IH (acc ++ [ip])).
      destruct (parse_servers ParseIP args (acc ++ [ip])) as [server|ips].
      * destruct IH as (before & after & -> & Hb & Hs).
        exists (a :: before), after. split; [reflexivity|].
        split; [constructor; [congruence | exact Hb] | exact Hs].
      * destruct IH as (parsed & -> & Hp).
        exists (ip :: parsed). rewrite <- app_assoc. simpl. rewrite Hp. auto.
    + exists [], args. auto.
Qed.

(** X27.  With fewer than two arguments after the flags, [main] looks at
    none of them: a lone argument, an address or not, is neither checked
    nor used, and the list of addresses stays empty.  With two or more,
    every argument must be an address: the first that [net.ParseIP]
    rejects ends the program with the fatal message that names it, before
    the secret or the EDNS size is looked at; otherwise the addresses
    are kept in the order given. *)
Theorem main_server_arguments (f : flags) :
  (List.length (args f) < 2 ->
   (forall server, main_prepare ParseIP f <> Fatalf_unrecognized_IP server)
   /\ (forall s, main_prepare ParseIP f = goes_on s -> ips s = [])
   /\ forall ParseIP', main_prepare ParseIP' f = main_prepare ParseIP f)
  /\ (2 <= List.length (args f) ->
      (forall before server after,
         args f = before ++ server :: after ->
         List.Forall (fun a => ParseIP a <> None) before ->
         ParseIP server = None ->
         main_prepare ParseIP f = Fatalf_unrecognized_IP server)
      /\ (forall s, main_prepare ParseIP f = goes_on s ->
            map ParseIP (args f) = map Some (ips s))).
Proof.
  unfold main_prepare. split.
  - intros Hlen.
    destruct (Nat.ltb_spec 1 (List.length (args f))) as [H|_]; [lia|].
    split; [|split].
    + intros server.
      destruct (if String.eqb (secret f) EmptyString then _ else _) as [o|];
        [|discriminate].
      destruct (65535 <? edns_size f)%N; discriminate.
    + intros s.
      destruct (if String.eqb (secret f) EmptyString then _ else _) as [o|];
        [|discriminate].
      destruct (65535 <? edns_size f)%N; [discriminate|].
      intros H. injection H as <-. reflexivity.
    + intros ParseIP'.
      destruct (Nat.ltb_spec 1 (List.length (args f))) as [H|_]; [lia|].
      reflexivity.
  - intros Hlen.
    destruct (Nat.ltb_spec 1 (List.length (args f))) as [_|H]; [|lia].
    pose proof (parse_servers_spec (args f) []) as Hspec. split.
    + intros before server after Hargs Hbefore Hserver.
      destruct (parse_servers ParseIP (args f) []) as [bad|parsed].
      * destruct Hspec as (before' & after' & Hargs' & Hbefore' & Hbad).
        f_equal. rewrite Hargs in Hargs'. clear Hargs.
        revert before' Hargs' Hbefore'.
        induction Hbefore as [|b before Hb _ IH]; intros before' E Hbefore'.
        -- destruct before' as [|b' before']; simpl in E.
           ++ injection E as -> _. reflexivity.
           ++ injection E as -> _. inversion Hbefore'; subst. contradiction.
        -- destruct before' as [|b' before']; simpl in E.
           ++ injection E as -> _. contradiction.
           ++ injection E as -> E. inversion Hbefore'; subst.
              apply (IH before'); assumption.
      * exfalso. destruct Hspec as (l & _ & Hmap).
        rewrite Hargs, List.map_app in Hmap. simpl in Hmap. rewrite Hserver in Hmap.
        assert (Hin : In None (map Some l)).
        { rewrite <- Hmap. apply in_or_app. right. left. reflexivity. }
        apply in_map_iff in Hin as (x & Hx & _). discriminate Hx.
    + intros s.
      destruct (parse_servers ParseIP (args f) []) as [bad|parsed];
        [discriminate|].
      destruct Hspec as (l & -> & Hmap). simpl.
      destruct (if String.eqb (secret f) EmptyString then _ else _) as [o|];
        [|discriminate].
      destruct (65535 <? edns_size f)%N; [discriminate|].
      intros H. injection H as <-. exact Hmap.
Qed.

End SetupFacts.

Section SecretRoundTrip.
Import Setup.

Lemma fromHexChar_digit (n : Z) :
  (0 <= n < 16)%Z ->
  fromHexChar (Hex.digit n) = Some n
  /\ fromHexChar (upper_byte (Hex.digit n)) = Some n.
Proof.
  intros H. replace n with (Z.of_nat (Z.to_nat n)) by lia.
  assert (Hk : Z.to_nat n < 16) by lia. revert Hk.
  generalize (Z.to_nat n) as k. intros k Hk.
  do 16 (destruct k as [|k]; [split; reflexivity|]). lia.
Qed.

Lemma DecodeString_Encode (bytes : list Z) :
  List.Forall (fun b => 0 <= b < 256)%Z bytes ->
  DecodeString (Hex.Encode bytes) = Some bytes
  /\ DecodeString (ToUpper (Hex.Encode bytes)) = Some bytes.
Proof.
  induction 1 as [|b bytes Hb _ [IH1 IH2]]; [split; reflexivity|].
  assert (Hhi : (0 <= b / 16 < 16)%Z)
    by (split; [apply Z.div_pos | apply Z.div_lt_upper_bound]; lia).
  assert (Hlo : (0 <= b mod 16 < 16)%Z) by (apply Z.mod_pos_bound; lia).
  destruct (fromHexChar_digit _ Hhi) as [Hh1 Hh2].
  destruct (fromHexChar_digit _ Hlo) as [Hl1 Hl2].
  assert (Hb' : (b / 16 * 16 + b mod 16 = b)%Z)
    by (rewrite (Z.div_mod b 16) at 3 by lia; lia).
  split; cbn [Hex.Encode ToUpper DecodeString].
  - rewrite Hh1, Hl1, IH1. simpl. rewrite Hb'. reflexivity.
  - rewrite Hh2, Hl2, IH2. simpl. rewrite Hb'. reflexivity.
Qed.

(** X28.  The secret that a run draws and writes to its log, in
    upper-case hexadecimal digits, can be handed back with [-s]: [main]
    decodes the logged text (and the same text in lower case) to the very
    bytes of the secret, so that the obfuscator uses them instead of
    drawing others; and an EDNS size of at most 65535 reaches the query
    tasks unchanged by the conversion to 16 bits. *)
Theorem logged_secret_comes_back (ParseIP : string -> option string)
    (bytes : list Z) (clear : bool) (edns : N) :
  bytes <> [] ->
  List.Forall (fun b => 0 <= b < 256)%Z bytes ->
  (edns <= 65535)%N ->
  generated_secret_log bytes
    = "generated random obfuscation secret " +:+ ToUpper (Hex.Encode bytes)
  /\ main_prepare ParseIP (mkFlags clear (ToUpper (Hex.Encode bytes)) edns [])
     = goes_on (mkSettings clear [] (Some bytes) edns)
  /\ main_prepare ParseIP (mkFlags clear (Hex.Encode bytes) edns [])
     = goes_on (mkSettings clear [] (Some bytes) edns)
  /\ forall rand_bytes qname,
       obfuscate_query rand_bytes (Some bytes) qname
       = obfuscate_query bytes None qname
       \/ List.length (FieldsFunc_dot qname) < 2.
Proof.
  intros Hne Hbytes Hedns.
  destruct (DecodeString_Encode bytes Hbytes) as [Hlower Hupper].
  assert (Hmod : (edns mod 65536 = edns)%N) by (apply N.mod_small; lia).
  assert (Hsize : (65535 <? edns)%N = false) by (apply N.ltb_ge; exact Hedns).
  split; [reflexivity|].
  unfold main_prepare. cbn [args secret edns_size clear_names List.length].
  cbn [Nat.ltb Nat.leb]. rewrite Hlower, Hupper, Hsize, Hmod.
  destruct bytes as [|b bytes]; [contradiction|].
  split; [reflexivity|]. split; [reflexivity|].
  intros rand_bytes qname. unfold obfuscate_query.
  destruct (Nat.ltb_spec (List.length (FieldsFunc_dot qname)) 2);
    [right; assumption | left; reflexivity].
Qed.

End SecretRoundTrip.

Lemma logged_secret_comes_back_witness :
  Setup.generated_secret_log [0; 171; 205; 239; 1; 35; 69; 103]%Z
    = "generated random obfuscation secret "
      +:+ Setup.ToUpper (Hex.Encode [0; 171; 205; 239; 1; 35; 69; 103]%Z)
  /\ Setup.main_prepare (fun _ => None)
       (Setup.mkFlags false
          (Setup.ToUpper (Hex.Encode [0; 171; 205; 239; 1; 35; 69; 103]%Z))
          4093 [])
     = Setup.goes_on
         (Setup.mkSettings false [] (Some [0; 171; 205; 239; 1; 35; 69; 103]%Z)
            4093)
  /\ Setup.main_prepare (fun _ => None)
       (Setup.mkFlags false (Hex.Encode [0; 171; 205; 239; 1; 35; 69; 103]%Z)
          4093 [])
     = Setup.goes_on
         (Setup.mkSettings false [] (Some [0; 171; 205; 239; 1; 35; 69; 103]%Z)
            4093)
  /\ forall rand_bytes qname,
       obfuscate_query rand_bytes (Some [0; 171; 205; 239; 1; 35; 69; 103]%Z) qname
       = obfuscate_query [0; 171; 205; 239; 1; 35; 69; 103]%Z None qname
       \/ List.length (FieldsFunc_dot qname) < 2.
Proof.
  apply (logged_secret_comes_back (fun _ => None)
           [0; 171; 205; 239; 1; 35; 69; 103]%Z false 4093).
  - discriminate.
  - repeat constructor; lia.
  - lia.
Defined.

(** ** The text that [print] writes *)

Section PrintFacts.
Context `{presentation : Presentation}.

Lemma PadRight_rule (fuel : nat) :
  78 <= fuel -> PadRight fuel EmptyString 78 "-" = Some (copies 78 "-").
Proof.
  intros H. replace fuel with (78 + (fuel - 78)) by lia.
  generalize (fuel - 78) as k. intros [|k]; vm_compute; reflexivity.
Qed.

(** X29.  [print] returns (its two pads are not empty) and writes seven
    lines: the banner, the query, its time, a rule, the answer, its time,
    a rule.  A rule is 78 dashes.  The banner is the header itself when
    the header has 78 bytes or more, and otherwise the header filled up
    with [=] to exactly 78 bytes.  A time is shown as unknown exactly
    when its seconds are zero and its nanoseconds make up less than one
    second. *)
Theorem print_layout (fuel : nat) (y : ymmv_message) :
  78 <= fuel ->
  let header :=
    "===[ ymmv message (IPv" +:+ decimal (ip_family y) +:+ ", "
    +:+ (if Ascii.eqb (ip_protocol y) "u" then "UDP" else "TCP")
    +:+ ", " +:+ IP_String (addr y) +:+ ") ]" in
  (exists banner,
     print fuel y
     = Some (banner +:+ nl
             +:+ Msg_String (query y) +:+ nl
             +:+ when_line (query_time y)
             +:+ copies 78 "-" +:+ nl
             +:+ Msg_String (answer y) +:+ nl
             +:+ when_line (answer_time y)
             +:+ copies 78 "-" +:+ nl)
     /\ ((78 <= String.length header /\ banner = header)
         \/ (String.length header < 78
             /\ String.length banner = 78
             /\ exists k, banner = str_take 78 (header +:+ copies k "="))))
  /\ forall t : N * N,
       (when_line t = ";; WHEN: unknown" +:+ nl
          <-> ((t.1 = 0 /\ t.2 < 1000000000)%N
               \/ Time_String t = "unknown"))
       /\ (when_line t <> ";; WHEN: unknown" +:+ nl ->
           when_line t = ";; WHEN: " +:+ Time_String t +:+ nl).
Proof.
  intros Hfuel header. split.
  - unfold print. fold header.
    rewrite (PadRight_rule fuel Hfuel). unfold PadRight.
    destruct (Z.leb_spec 78 (Z.of_nat (String.length header))) as [Hle|Hgt].
    + exists header. cbn [mbind option_bind].
      split; [|left; split; [lia | reflexivity]].
      rewrite !append_assoc. reflexivity.
    + destruct (PadRight_loop_fills "=" 78 fuel header) as (k & Hk & Hlen);
        [discriminate | lia|].
      rewrite Hk. cbn [mbind option_bind].
      exists (str_take 78 (header +:+ copies k "=")).
      split; [rewrite !append_assoc; reflexivity|].
      right. split; [lia|]. split; [apply str_take_length; lia | eauto].
  - intros t. unfold when_line, Unix.
    assert (Hzero : ((t.1 + t.2 / 1000000000 =? 0) = true
                     <-> t.1 = 0 /\ t.2 < 1000000000)%N).
    { rewrite N.eqb_eq. split.
      - intros H. apply N.eq_add_0 in H as [H1 H2].
        split; [exact H1|]. apply N.div_small_iff in H2; [exact H2 | discriminate].
      - intros [-> H]. rewrite N.div_small by exact H. reflexivity. }
    destruct (t.1 + t.2 / 1000000000 =? 0)%N.
    + split; [|intros H; contradiction].
      split; [intros _; left; apply Hzero; reflexivity | reflexivity].
    + split; [|reflexivity]. split.
      * intros H. right.
        change (";; WHEN: unknown" +:+ nl) with (";; WHEN: " +:+ "unknown" +:+ nl) in H.
        assert (Hs : Time_String t +:+ nl = "unknown" +:+ nl).
        { simpl in H. injection H as H. exact H. }
        clear H. revert Hs. generalize (Time_String t). intros s.
        intros Hs.
        assert (Hlen : String.length s = 7).
        { apply (f_equal String.length) in Hs. rewrite !length_append in Hs.
          simpl in Hs. lia. }
        do 8 (destruct s as [|? s]; try discriminate Hlen).
        simpl in Hs. injection Hs as -> -> -> -> -> -> ->. reflexivity.
      * intros [H| ->]; [apply Hzero in H; discriminate H | reflexivity].
Qed.

End PrintFacts.

Lemma print_layout_witness :
  let header :=
    "===[ ymmv message (IPv" +:+ decimal 4 +:+ ", " +:+ "UDP"
    +:+ ", " +:+ "192.0.2.7" +:+ ") ]" in
  (exists banner,
     print (presentation := PrintExample.plain_presentation) 78
       PrintExample.undated
     = Some (banner +:+ nl
             +:+ ";; a message" +:+ nl
             +:+ when_line (presentation := PrintExample.plain_presentation)
                   (0%N, 5%N)
             +:+ copies 78 "-" +:+ nl
             +:+ ";; a message" +:+ nl
             +:+ when_line (presentation := PrintExample.plain_presentation)
                   (1462060800%N, 0%N)
             +:+ copies 78 "-" +:+ nl)
     /\ ((78 <= String.length header /\ banner = header)
         \/ (String.length header < 78
             /\ String.length banner = 78
             /\ exists k, banner = str_take 78 (header +:+ copies k "="))))
  /\ forall t : N * N,
       (when_line (presentation := PrintExample.plain_presentation) t
          = ";; WHEN: unknown" +:+ nl
          <-> ((t.1 = 0 /\ t.2 < 1000000000)%N
               \/ decimal t.1 = "unknown"))
       /\ (when_line (presentation := PrintExample.plain_presentation) t
             <> ";; WHEN: unknown" +:+ nl ->
           when_line (presentation := PrintExample.plain_presentation) t
           = ";; WHEN: " +:+ decimal t.1 +:+ nl).
Proof.
  apply (print_layout (presentation := PrintExample.plain_presentation) 78
           PrintExample.undated).
  lia.
Defined.

